(** * Presence layer of UploadFiles: the client view-state reducer
      (frontend/src/contexts/ViewingContext.tsx) and the socket service
      (frontend/src/services/socketService.ts), embedded shallowly, with the
      token check of the backend (backend/src/middlewares/auth.ts).

    JavaScript objects that the code shares and mutates (FileViewers records,
    viewer arrays, listener arrays, sockets) live in explicit stores; values the
    code only ever rebuilds (the outer [Map] of a state, strings, ViewerInfo
    objects) are plain Rocq values. *)

From stdpp Require Import gmap strings list fin_maps.

Set Warnings "-register-all".

Open Scope string_scope.
Open Scope nat_scope.
Open Scope list_scope.

(** ** Generic array helpers *)

(** [Array.prototype.findIndex]: index of the first element satisfying [p];
    JavaScript's [-1] is [None]. *)
Fixpoint findIndex {A : Type} (p : A → bool) (l : list A) : option nat :=
  match l with
  | [] => None
  | x :: l' => if p x then Some 0 else S <$> findIndex p l'
  end.

(** [Array.prototype.indexOf] on an array of references: strict equality. *)
Definition indexOf `{EqDecision A} (x : A) (l : list A) : option nat :=
  findIndex (λ y, bool_decide (y = x)) l.

(** [arr.splice(i, 1)]. *)
Definition splice1 {A : Type} (i : nat) (l : list A) : list A :=
  take i l ++ drop (S i) l.

Module Viewing.

(** *** Data model *)

(** [new Date()] is read from a clock the reducer does not control; the
    instant is an input of the model (milliseconds since the epoch). *)
Abbreviation Date := Z (only parsing).

(** [ViewerInfo] is imported from [types/viewing], which is not part of the
    sources at hand; the fields are those of the interface of the same name
    in the socket service.  The reducer only reads [id]. *)
Record ViewerInfo := mkViewerInfo {
  id : string;
  name : string;
  email : string;
  socketId : string;
  joinedAt : Date
}.

(** References into the two stores. *)
Abbreviation ObjRef := nat (only parsing).
Abbreviation ArrRef := nat (only parsing).

(** A [FileViewers] object as the reducer builds it:
    [{ fileId, viewers, lastUpdated }], where [viewers] is a reference to a
    JavaScript array. *)
Record FileViewers := mkFileViewers {
  fileId : string;
  viewers : ArrRef;
  lastUpdated : Date
}.

(** The store: [objs] holds the FileViewers objects, [arrs] the viewer
    arrays.  Allocation appends, so a fresh reference is the current length. *)
Record Heap := mkHeap {
  objs : list FileViewers;
  arrs : list (list ViewerInfo)
}.

(** [ViewingState].  The [Map] is only ever copied ([new Map(old)]) and the
    copy updated, never an existing one, so it is a value here; its entries
    are references to shared FileViewers objects. *)
Record ViewingState := mkViewingState {
  fileViewers : gmap string ObjRef;
  currentlyViewing : option string
}.

(** [ViewingAction].  The [viewers] payload of SET_FILE_VIEWERS is an array
    reference: the reducer stores the very array it is handed. *)
Inductive ViewingAction :=
  | SET_FILE_VIEWERS (fileId : string) (viewers : ArrRef)
  | USER_STARTED_VIEWING (fileId : string) (viewer : ViewerInfo)
  | USER_STOPPED_VIEWING (fileId : string) (userId : string)
  | SET_CURRENTLY_VIEWING (payload : option string)
  | CLEAR_FILE_VIEWERS (payload : string).

Definition initialHeap : Heap := mkHeap [] [].

Definition initialState : ViewingState := mkViewingState ∅ None.

(** *** Store operations *)

Definition alloc_obj (h : Heap) (o : FileViewers) : Heap * ObjRef :=
  (mkHeap (objs h ++ [o]) (arrs h), length (objs h)).

Definition alloc_arr (h : Heap) (vs : list ViewerInfo) : Heap * ArrRef :=
  (mkHeap (objs h) (arrs h ++ [vs]), length (arrs h)).

Definition set_obj (h : Heap) (r : ObjRef) (o : FileViewers) : Heap :=
  mkHeap (<[r := o]> (objs h)) (arrs h).

Definition set_arr (h : Heap) (a : ArrRef) (vs : list ViewerInfo) : Heap :=
  mkHeap (objs h) (<[a := vs]> (arrs h)).

(** [(v) => v.id === viewer.id] *)
Definition same_id (viewer v : ViewerInfo) : bool :=
  bool_decide (id v = id viewer).

(** [(v) => v.id !== userId] *)
Definition other_id (userId : string) (v : ViewerInfo) : Prop :=
  id v ≠ userId.

#[global] Instance other_id_dec userId v : Decision (other_id userId v).
Proof. unfold other_id. apply _. Defined.

(** The body of the USER_STARTED_VIEWING branch on the viewer array:
    [push] when [findIndex] gives [-1], element assignment otherwise. *)
Definition upsert (viewer : ViewerInfo) (vs : list ViewerInfo) : list ViewerInfo :=
  match findIndex (same_id viewer) vs with
  | None => vs ++ [viewer]
  | Some i => <[i := viewer]> vs
  end.

(** [newFileViewers.get(fileId) || { fileId, viewers: [], lastUpdated: new Date() }]:
    the object the map holds for the file, or a new one with a new empty
    array. *)
Definition get_or_create (now : Date) (h : Heap) (m : gmap string ObjRef)
    (fileId : string) : Heap * ObjRef :=
  match m !! fileId with
  | Some r => (h, r)
  | None =>
      let '(h0, a) := alloc_arr h [] in
      alloc_obj h0 (mkFileViewers fileId a now)
  end.

(** *** The reducer

    [viewingReducer now h state action] returns the store and the state
    after the call.  A result of [None] stands for following a reference that
    is not in the store, which a JavaScript heap cannot contain: on a store
    without dangling references the reducer always returns.  The action type
    is a closed union, so the [default] branch of the [switch] has no
    counterpart.  USER_STARTED_VIEWING reads the clock twice; the first
    reading (of a newly created object) is overwritten by the second, and both
    are [now] here. *)
Definition viewingReducer (now : Date) (h : Heap) (state : ViewingState)
    (action : ViewingAction) : option (Heap * ViewingState) :=
  match action with
  | SET_FILE_VIEWERS fileId viewers =>
      let newFileViewers := fileViewers state in
      let '(h1, r) := alloc_obj h (mkFileViewers fileId viewers now) in
      Some (h1, mkViewingState (<[fileId := r]> newFileViewers)
                               (currentlyViewing state))
  | USER_STARTED_VIEWING fileId viewer =>
      let newFileViewers := fileViewers state in
      let '(h1, currentViewers) := get_or_create now h newFileViewers fileId in
      o ← objs h1 !! currentViewers;
      vs ← arrs h1 !! viewers o;
      let h2 := set_arr h1 (viewers o) (upsert viewer vs) in
      let h3 := set_obj h2 currentViewers
                  (mkFileViewers (Viewing.fileId o) (viewers o) now) in
      Some (h3, mkViewingState (<[fileId := currentViewers]> newFileViewers)
                               (currentlyViewing state))
  | USER_STOPPED_VIEWING fileId userId =>
      let newFileViewers := fileViewers state in
      match newFileViewers !! fileId with
      | Some currentViewers =>
          o ← objs h !! currentViewers;
          vs ← arrs h !! viewers o;
          let '(h1, a) := alloc_arr h (filter (other_id userId) vs) in
          let h2 := set_obj h1 currentViewers
                      (mkFileViewers (Viewing.fileId o) a now) in
          Some (h2,
                mkViewingState
                  (if bool_decide (length (filter (other_id userId) vs) = 0)
                   then delete fileId newFileViewers
                   else <[fileId := currentViewers]> newFileViewers)
                  (currentlyViewing state))
      | None => Some (h, mkViewingState newFileViewers (currentlyViewing state))
      end
  | SET_CURRENTLY_VIEWING payload =>
      Some (h, mkViewingState (fileViewers state) payload)
  | CLEAR_FILE_VIEWERS payload =>
      let newFileViewers := fileViewers state in
      Some (h, mkViewingState (delete payload newFileViewers)
                              (currentlyViewing state))
  end.

(** *** What a state shows

    The content a consumer reads through a state: for each cached file id the
    fields of its FileViewers object, with the array dereferenced. *)
Record FileViewersView := mkView {
  view_fileId : string;
  view_viewers : list ViewerInfo;
  view_lastUpdated : Date
}.

Definition read (h : Heap) (r : ObjRef) : option FileViewersView :=
  o ← objs h !! r;
  vs ← arrs h !! viewers o;
  Some (mkView (fileId o) vs (lastUpdated o)).

Definition view (h : Heap) (state : ViewingState) : gmap string FileViewersView :=
  omap (read h) (fileViewers state).

(** [getFileViewers]: [state.fileViewers.get(fileId)?.viewers || []]. *)
Definition getFileViewers (h : Heap) (state : ViewingState) (fileId : string)
    : list ViewerInfo :=
  match view h state !! fileId with
  | Some v => view_viewers v
  | None => []
  end.

(** The same content without the time stamps. *)
Definition untimed (v : FileViewersView) : string * list ViewerInfo :=
  (view_fileId v, view_viewers v).

(** *** Well-formed stores: no dangling reference *)

Definition heap_closed (h : Heap) : Prop :=
  Forall (λ o, viewers o < length (arrs h)) (objs h).

Definition state_closed (h : Heap) (state : ViewingState) : Prop :=
  map_Forall (λ _ r, r < length (objs h)) (fileViewers state).

Definition wf (h : Heap) (state : ViewingState) : Prop :=
  heap_closed h ∧ state_closed h state.

Definition action_closed (h : Heap) (action : ViewingAction) : Prop :=
  match action with
  | SET_FILE_VIEWERS _ a => a < length (arrs h)
  | _ => True
  end.

(** At most one entry per identity id in an array, and in every array a
    state reaches. *)
Definition unique_ids (vs : list ViewerInfo) : Prop := NoDup (id <$> vs).

Definition state_unique (h : Heap) (state : ViewingState) : Prop :=
  map_Forall (λ _ v, unique_ids (view_viewers v)) (view h state).

#[global] Instance unique_ids_dec vs : Decision (unique_ids vs).
Proof. unfold unique_ids. apply _. Defined.

#[global] Instance wf_dec h state : Decision (wf h state).
Proof. unfold wf, heap_closed, state_closed. apply _. Defined.

#[global] Instance state_unique_dec h state : Decision (state_unique h state).
Proof. unfold state_unique. apply _. Defined.

End Viewing.

Module Socket.

(** *** Payloads

    Event payloads are untyped JavaScript values; the service only builds
    small object literals and passes everything else through. *)
Inductive Value :=
  | Undefined
  | Str (s : string)
  | Obj (fields : list (string * Value)).

(** Subscriber callbacks are closures compared by reference ([indexOf]). *)
Abbreviation Cb := nat (only parsing).

(** What a subscriber callback may do to the service while it runs, and
    whether it ends by throwing.  The hooks of ViewingContext only dispatch
    to the reducer ([cb_ops = []]); a general subscriber can also call
    [on]/[off]. *)
Inductive CbOp :=
  | CallOn (event : string) (cb : Cb)
  | CallOff (event : string) (cb : Cb).

Record CbRun := mkCbRun {
  cb_ops : list CbOp;
  cb_throws : bool
}.

(** *** The transport (socket.io-client) and the page around the service *)

Inductive WireEvent :=
  | FileViewersUpdated
  | UserStartedViewingFile
  | UserStoppedViewingFile
  | NewFileUploaded
  | UserStartedEditing
  | UserStoppedEditing
  | FileBeingEdited
  | ResourceSharedWithYou
  | PermissionUpdated
  | Notification
  | OnlineUsersUpdated
  | Connected.

Definition wire_name (e : WireEvent) : string :=
  match e with
  | FileViewersUpdated => "file-viewers-updated"
  | UserStartedViewingFile => "user-started-viewing-file"
  | UserStoppedViewingFile => "user-stopped-viewing-file"
  | NewFileUploaded => "new-file-uploaded"
  | UserStartedEditing => "user-started-editing"
  | UserStoppedEditing => "user-stopped-editing"
  | FileBeingEdited => "file-being-edited"
  | ResourceSharedWithYou => "resource-shared-with-you"
  | PermissionUpdated => "permission-updated"
  | Notification => "notification"
  | OnlineUsersUpdated => "onlineUsersUpdated"
  | Connected => "connected"
  end.

(** The closures the service registers on a socket. *)
Inductive Handler :=
  | OnConnect
  | OnDisconnect
  | OnConnectError
  | OnReconnect
  | OnReconnectFailed
  | OnWire (e : WireEvent).

(** A socket returned by [io(...)]: [sock_connected] is the library's
    [socket.connected]; [sock_closed] records a client-side
    [socket.disconnect()]; [handlers] is the registration list of
    [socket.on]; [sent] the packets handed to [socket.emit]. *)
Record Sock := mkSock {
  sock_token : string;
  sock_connected : bool;
  sock_closed : bool;
  handlers : list (string * Handler);
  sent : list (string * Value)
}.

Inductive Toast :=
  | ToastConnected
  | ToastDisconnected
  | ToastConnectFailed
  | ToastReconnected
  | ToastReconnectFailed
  | ToastNewFileUploaded (data : Value)
  | ToastStartedEditing (data : Value)
  | ToastFileBeingEdited (data : Value)
  | ToastResourceShared (data : Value)
  | ToastPermissionUpdated (data : Value)
  | ToastNotification (data : Value).

Inductive ConsoleEntry :=
  | WarnCannotStartViewing
  | WarnCannotStopViewing
  | WarnCannotEmit (event : string)
  | WarnCannotGetOnlineUsers
  | WarnNoListeners (event : string)
  | ErrorInListener (number : nat) (event : string)
  | ErrorConnection (error : Value)
  | ErrorReconnectFailed
  | LogOnlineUsersUpdate (users : Value)
  | LogRequestingOnlineUsers
  | LogEmittingGetOnlineUsers.

(** Everything outside the service object: the sockets created so far (a
    socket is named by its position), the toasts shown, the console, the
    pending [setTimeout] callbacks of [forceReconnect] (delay, token) and the
    subscriber callbacks invoked so far with their argument. *)
Record World := mkWorld {
  socks : list Sock;
  toasts : list Toast;
  console : list ConsoleEntry;
  timers : list (nat * string);
  calls : list (Cb * Value)
}.

(** *** The service object *)

Record Service := mkService {
  socket : option nat;
  isConnected : bool;
  listeners : gmap string (list Cb);
  connectionAttempts : nat;
  isConnecting : bool
}.

Definition maxReconnectAttempts : nat := 5.
Definition reconnectDelay : nat := 1000.

Definition newService : Service := mkService None false ∅ 0 false.
Definition newWorld : World := mkWorld [] [] [] [] [].

Definition with_socket (v : option nat) (s : Service) : Service :=
  mkService v (isConnected s) (listeners s) (connectionAttempts s) (isConnecting s).
Definition with_isConnected (v : bool) (s : Service) : Service :=
  mkService (socket s) v (listeners s) (connectionAttempts s) (isConnecting s).
Definition with_listeners (v : gmap string (list Cb)) (s : Service) : Service :=
  mkService (socket s) (isConnected s) v (connectionAttempts s) (isConnecting s).
Definition with_connectionAttempts (v : nat) (s : Service) : Service :=
  mkService (socket s) (isConnected s) (listeners s) v (isConnecting s).
Definition with_isConnecting (v : bool) (s : Service) : Service :=
  mkService (socket s) (isConnected s) (listeners s) (connectionAttempts s) v.

Definition with_socks (v : list Sock) (w : World) : World :=
  mkWorld v (toasts w) (console w) (timers w) (calls w).
Definition toast (t : Toast) (w : World) : World :=
  mkWorld (socks w) (toasts w ++ [t]) (console w) (timers w) (calls w).
Definition console_out (c : ConsoleEntry) (w : World) : World :=
  mkWorld (socks w) (toasts w) (console w ++ [c]) (timers w) (calls w).
Definition setTimeout (delay : nat) (token : string) (w : World) : World :=
  mkWorld (socks w) (toasts w) (console w) (timers w ++ [(delay, token)]) (calls w).
Definition record_call (cb : Cb) (data : Value) (w : World) : World :=
  mkWorld (socks w) (toasts w) (console w) (timers w) (calls w ++ [(cb, data)]).

(** *** Socket primitives *)

Definition update_sock (i : nat) (f : Sock → Sock) (w : World) : World :=
  with_socks (alter f i (socks w)) w.

(** [io(SOCKET_URL, { auth: { token }, ..., autoConnect: true })]: a new
    socket, not yet connected, with no handler. *)
Definition io (token : string) (w : World) : World * nat :=
  (with_socks (socks w ++ [mkSock token false false [] []]) w, length (socks w)).

(** [socket.on(name, handler)] *)
Definition sock_on (i : nat) (name : string) (h : Handler) (w : World) : World :=
  update_sock i (λ k, mkSock (sock_token k) (sock_connected k) (sock_closed k)
                             (handlers k ++ [(name, h)]) (sent k)) w.

(** [socket.removeAllListeners()] *)
Definition sock_removeAllListeners (i : nat) (w : World) : World :=
  update_sock i (λ k, mkSock (sock_token k) (sock_connected k) (sock_closed k)
                             [] (sent k)) w.

(** [socket.emit(event, data)] *)
Definition sock_emit (i : nat) (event : string) (data : Value) (w : World) : World :=
  update_sock i (λ k, mkSock (sock_token k) (sock_connected k) (sock_closed k)
                             (handlers k) (sent k ++ [(event, data)])) w.

Definition sock_set_connected (i : nat) (b : bool) (w : World) : World :=
  update_sock i (λ k, mkSock (sock_token k) b (sock_closed k)
                             (handlers k) (sent k)) w.

Definition sock_set_closed (i : nat) (w : World) : World :=
  update_sock i (λ k, mkSock (sock_token k) (sock_connected k) true
                             (handlers k) (sent k)) w.

(** [this.socket?.connected], as a condition. *)
Definition socket_connected (s : Service) (w : World) : bool :=
  match socket s with
  | Some i =>
      match socks w !! i with
      | Some k => sock_connected k
      | None => false
      end
  | None => false
  end.

(** The handlers registered for [name], in registration order. *)
Definition handlers_for (name : string) (k : Sock) : list Handler :=
  snd <$> filter (λ p, p.1 = name) (handlers k).

(** Sockets the client has not closed. *)
Definition live_socks (w : World) : list Sock :=
  filter (λ k, sock_closed k = false) (socks w).

Definition connected_socks (w : World) : list Sock :=
  filter (λ k, sock_connected k = true ∧ sock_closed k = false) (socks w).

(** *** Service methods

    A method is a function on the pair of the service object and the world.
    [behaviour cb data] says what the subscriber callback [cb] does when it is
    called with [data]. *)
Section Methods.

Variable behaviour : Cb → Value → CbRun.

(** [on(event, callback)] *)
Definition on (event : string) (callback : Cb) (s : Service) : Service :=
  let m := if bool_decide (is_Some (listeners s !! event))
           then listeners s
           else <[event := []]> (listeners s) in
  with_listeners (alter (λ callbacks : list Cb, callbacks ++ [callback]) event m) s.

(** [off(event, callback)] *)
Definition off (event : string) (callback : Cb) (s : Service) : Service :=
  match listeners s !! event with
  | Some callbacks =>
      match indexOf callback callbacks with
      | Some index =>
          with_listeners (<[event := splice1 index callbacks]> (listeners s)) s
      | None => s
      end
  | None => s
  end.

Definition run_op (s : Service) (op : CbOp) : Service :=
  match op with
  | CallOn event cb => on event cb s
  | CallOff event cb => off event cb s
  end.

(** One step of [callbacks.forEach((callback, index) => { try { callback(data) }
    catch (error) { console.error(...) } })] at position [index].  [forEach]
    visits the positions below the length the array had when the loop began
    and skips a position the array no longer has; the array is the live one
    of the registry, which [on] and [off] update in place. *)
Definition call_listener (event : string) (data : Value)
    (st : Service * World) (index : nat) : Service * World :=
  let '(s, w) := st in
  match listeners s !! event ≫= (λ callbacks, callbacks !! index) with
  | Some callback =>
      let r := behaviour callback data in
      let s' := foldl run_op s (cb_ops r) in
      let w' := record_call callback data w in
      if cb_throws r
      then (s', console_out (ErrorInListener (index + 1) event) w')
      else (s', w')
  | None => st
  end.

(** [triggerEvent(event, data)] *)
Definition triggerEvent (event : string) (data : Value)
    (st : Service * World) : Service * World :=
  let '(s, w) := st in
  match listeners s !! event with
  | Some callbacks =>
      if bool_decide (0 < length callbacks)
      then foldl (call_listener event data) st (seq 0 (length callbacks))
      else (s, console_out (WarnNoListeners event) w)
  | None => (s, console_out (WarnNoListeners event) w)
  end.

(** [emit(event, data)] *)
Definition emit (event : string) (data : Value)
    (st : Service * World) : Service * World :=
  let '(s, w) := st in
  if socket_connected s w
  then match socket s with
       | Some i => (s, sock_emit i event data w)
       | None => st
       end
  else (s, console_out (WarnCannotEmit event) w).

(** [startViewingFile(fileId)] *)
Definition startViewingFile (fileId : string)
    (st : Service * World) : Service * World :=
  let '(s, w) := st in
  if socket_connected s w
  then match socket s with
       | Some i =>
           (s, sock_emit i "start-viewing-file" (Obj [("fileId", Str fileId)]) w)
       | None => st
       end
  else (s, console_out WarnCannotStartViewing w).

(** [stopViewingFile(fileId)] *)
Definition stopViewingFile (fileId : string)
    (st : Service * World) : Service * World :=
  let '(s, w) := st in
  if socket_connected s w
  then match socket s with
       | Some i =>
           (s, sock_emit i "stop-viewing-file" (Obj [("fileId", Str fileId)]) w)
       | None => st
       end
  else (s, console_out WarnCannotStopViewing w).

(** [getOnlineUsers()] *)
Definition getOnlineUsers (st : Service * World) : Service * World :=
  let '(s, w) := st in
  if socket_connected s w
  then match socket s with
       | Some i =>
           (s, sock_emit i "get-online-users" Undefined
                 (console_out LogEmittingGetOnlineUsers w))
       | None => st
       end
  else (s, console_out WarnCannotGetOnlineUsers w).

(** The wire events in the order [setupEventListeners] subscribes to them. *)
Definition wire_events : list WireEvent :=
  [ FileViewersUpdated; UserStartedViewingFile; UserStoppedViewingFile;
    NewFileUploaded; UserStartedEditing; UserStoppedEditing; FileBeingEdited;
    ResourceSharedWithYou; PermissionUpdated; Notification;
    OnlineUsersUpdated; Connected ].

(** [setupEventListeners()] *)
Definition setupEventListeners (st : Service * World) : Service * World :=
  let '(s, w) := st in
  match socket s with
  | None => st
  | Some i =>
      (s, foldl (λ w e, sock_on i (wire_name e) (OnWire e) w) w wire_events)
  end.

(** [reregisterListeners()] *)
Definition reregisterListeners (st : Service * World) : Service * World :=
  let '(s, w) := st in
  match socket s with
  | None => st
  | Some _ => setupEventListeners st
  end.

Definition on_world (f : World → World) (st : Service * World) : Service * World :=
  (st.1, f st.2).
Definition on_service (f : Service → Service) (st : Service * World) : Service * World :=
  (f st.1, st.2).

(** [v.p] on an untyped payload: a [TypeError] on [undefined] ([None]);
    [undefined] on a string (of a string's own properties the closures read
    only [length], and only to print it); on an object the field of that
    name (the last one, should the list repeat it), [undefined] when it has
    none. *)
Definition prop (p : string) (v : Value) : option Value :=
  match v with
  | Undefined => None
  | Str _ => Some Undefined
  | Obj fields =>
      Some (default Undefined
              (last (omap (λ q : string * Value,
                             if bool_decide (q.1 = p) then Some q.2 else None)
                          fields)))
  end.

(** [v.p1.p2] and so on. *)
Definition read_path (path : list string) (v : Value) : option Value :=
  foldl (λ acc p, acc ≫= prop p) (Some v) path.

(** What the closure of a wire event reads from its payload before it does
    anything else: [data.file.originalName], [data.userName],
    [data.editor.userName], [data.sharedBy.name], [data.updatedBy.name],
    [data.message] and [users.length] are evaluated as arguments of the
    first call the closure makes.  The reads that follow in some closures
    ([data.resourceType], [data.type]) are of the payload itself and cannot
    fail once the first has succeeded. *)
Definition first_read (e : WireEvent) : list string :=
  match e with
  | NewFileUploaded => ["file"; "originalName"]
  | UserStartedEditing => ["userName"]
  | FileBeingEdited => ["editor"; "userName"]
  | ResourceSharedWithYou => ["sharedBy"; "name"]
  | PermissionUpdated => ["updatedBy"; "name"]
  | Notification => ["message"]
  | OnlineUsersUpdated => ["length"]
  | FileViewersUpdated | UserStartedViewingFile | UserStoppedViewingFile
  | UserStoppedEditing | Connected => []
  end.

(** The closure of [e] ends by throwing a [TypeError] on the payload
    [data]; it has then done nothing. *)
Definition wire_throws (e : WireEvent) (data : Value) : bool :=
  match read_path (first_read e) data with
  | Some _ => false
  | None => true
  end.

(** The body of the closure [setupEventListeners] registers for a wire
    event, on a payload [data] it can read. *)
Definition wire_body (e : WireEvent) (data : Value)
    (st : Service * World) : Service * World :=
  match e with
  | FileViewersUpdated => triggerEvent "file-viewers-updated" data st
  | UserStartedViewingFile => triggerEvent "user-started-viewing-file" data st
  | UserStoppedViewingFile => triggerEvent "user-stopped-viewing-file" data st
  | NewFileUploaded =>
      triggerEvent "fileListUpdated" Undefined
        (on_world (toast (ToastNewFileUploaded data)) st)
  | UserStartedEditing =>
      triggerEvent "userStartedEditing" data
        (on_world (toast (ToastStartedEditing data)) st)
  | UserStoppedEditing => triggerEvent "userStoppedEditing" data st
  | FileBeingEdited => on_world (toast (ToastFileBeingEdited data)) st
  | ResourceSharedWithYou =>
      triggerEvent "resourceShared" data
        (on_world (toast (ToastResourceShared data)) st)
  | PermissionUpdated =>
      triggerEvent "permissionUpdated" data
        (on_world (toast (ToastPermissionUpdated data)) st)
  | Notification =>
      triggerEvent "notification" data
        (on_world (toast (ToastNotification data)) st)
  | OnlineUsersUpdated =>
      triggerEvent "onlineUsersUpdated" data
        (on_world (console_out (LogOnlineUsersUpdate data)) st)
  | Connected =>
      getOnlineUsers (on_world (console_out LogRequestingOnlineUsers) st)
  end.

(** The state the closure of a wire event leaves, applied to the payload
    [data]: that of its body, or the state it found when it throws. *)
Definition run_wire (e : WireEvent) (data : Value)
    (st : Service * World) : Service * World :=
  if wire_throws e data then st else wire_body e data st.


(** [reason === 'io client disconnect'] *)
Definition is_client_disconnect (reason : Value) : bool :=
  match reason with
  | Str r => bool_decide (r = "io client disconnect")
  | _ => false
  end.

(** The bodies of the closures registered on a socket; [arg] is the argument
    the transport passes (disconnect reason, error, payload). *)
Definition run_handler (arg : Value) (st : Service * World) (h : Handler)
    : Service * World :=
  match h with
  | OnConnect =>
      let s := with_connectionAttempts 0
                 (with_isConnecting false (with_isConnected true st.1)) in
      reregisterListeners (s, toast ToastConnected st.2)
  | OnDisconnect =>
      let s := with_isConnecting false (with_isConnected false st.1) in
      if is_client_disconnect arg
      then (s, st.2)
      else (s, toast ToastDisconnected st.2)
  | OnConnectError =>
      let s := with_connectionAttempts (connectionAttempts st.1 + 1)
                 (with_isConnecting false st.1) in
      let w := console_out (ErrorConnection arg) st.2 in
      if bool_decide (maxReconnectAttempts ≤ connectionAttempts s)
      then (s, toast ToastConnectFailed w)
      else (s, w)
  | OnReconnect => on_world (toast ToastReconnected) st
  | OnReconnectFailed =>
      (with_isConnecting false st.1,
       toast ToastReconnectFailed (console_out ErrorReconnectFailed st.2))
  | OnWire e => run_wire e arg st
  end.

(** The closure ends by throwing.  The life-cycle closures read nothing
    from their argument. *)
Definition handler_throws (arg : Value) (h : Handler) : bool :=
  match h with
  | OnWire e => wire_throws e arg
  | _ => false
  end.

(** The loop of the transport's emitter over the closures of one event:
    they run in registration order, each called outside any [try]; a closure
    that throws ends the loop, and the closures registered after it are not
    called. *)
Fixpoint run_handlers (arg : Value) (st : Service * World) (hs : list Handler)
    : Service * World :=
  match hs with
  | [] => st
  | h :: hs' =>
      if handler_throws arg h
      then st
      else run_handlers arg (run_handler arg st h) hs'
  end.

(** The transport emits [name] on socket [i]: the handlers registered for
    [name] at that moment run in registration order (the emitter iterates over
    a copy of its list), up to the first that throws. *)
Definition deliver (i : nat) (name : string) (arg : Value)
    (st : Service * World) : Service * World :=
  match socks st.2 !! i with
  | Some k => run_handlers arg st (handlers_for name k)
  | None => st
  end.

(** [socket.disconnect()]: a connected socket is marked disconnected and
    emits ['disconnect'] with reason ["io client disconnect"]; the socket is
    closed for good. *)
Definition sock_disconnect (i : nat) (st : Service * World) : Service * World :=
  match socks st.2 !! i with
  | Some k =>
      let st1 := on_world (sock_set_closed i) st in
      if sock_connected k
      then deliver i "disconnect" (Str "io client disconnect")
             (on_world (sock_set_connected i false) st1)
      else st1
  | None => st
  end.

(** [connect(token)].  [io] does not throw in this model, so the [catch]
    branch has no counterpart. *)
Definition connect (token : string) (st : Service * World) : Service * World :=
  let '(s, w) := st in
  if isConnecting s || socket_connected s w
  then st
  else
    let s1 := with_isConnecting true s in
    let '(w1, i) := io token w in
    let s2 := with_socket (Some i) s1 in
    let w2 := sock_on i "connect" OnConnect w1 in
    let w3 := sock_on i "disconnect" OnDisconnect w2 in
    let w4 := sock_on i "connect_error" OnConnectError w3 in
    let w5 := sock_on i "reconnect" OnReconnect w4 in
    let w6 := sock_on i "reconnect_failed" OnReconnectFailed w5 in
    setupEventListeners (s2, w6).

(** [disconnect()] *)
Definition disconnect (st : Service * World) : Service * World :=
  let '(s, w) := st in
  match socket s with
  | Some i =>
      let s1 := with_isConnecting false (with_isConnected false s) in
      let w1 := sock_removeAllListeners i w in
      let '(s2, w2) := sock_disconnect i (s1, w1) in
      (with_listeners ∅ (with_socket None s2), w2)
  | None => st
  end.

(** [shouldReconnect()] *)
Definition shouldReconnect (s : Service) : bool :=
  negb (isConnected s) && negb (isConnecting s)
  && bool_decide (connectionAttempts s < maxReconnectAttempts).

(** [forceReconnect(token)]: the reconnect itself is left to a timer. *)
Definition forceReconnect (token : string) (st : Service * World) : Service * World :=
  on_world (setTimeout 1000 token) (disconnect st).

(** The event loop runs the oldest pending timer: [() => this.connect(token)]. *)
Definition run_timer (st : Service * World) : Service * World :=
  match timers st.2 with
  | (_, token) :: rest =>
      connect token
        (st.1, mkWorld (socks st.2) (toasts st.2) (console st.2) rest (calls st.2))
  | [] => st
  end.

(** [get connected()] *)
Definition connected (s : Service) (w : World) : bool :=
  isConnected s && socket_connected s w.

(** [get connecting()] *)
Definition connecting (s : Service) : bool := isConnecting s.

(** *** What the transport does on its own

    The library reports through the handlers registered on a socket: the
    socket object, and with it the handlers, lives on across automatic
    reconnections ([reconnection: true]), and ['connect'] is emitted on the
    first connection and on every reconnection.  A socket the client closed
    stays silent. *)
Definition sock_open (i : nat) (w : World) : bool :=
  match socks w !! i with
  | Some k => negb (sock_closed k)
  | None => false
  end.

(** The handshake succeeded (first connection or automatic reconnection):
    [socket.connected] becomes true and ['connect'] is emitted. *)
Definition transport_connect (i : nat) (st : Service * World) : Service * World :=
  if sock_open i st.2
  then deliver i "connect" Undefined (on_world (sock_set_connected i true) st)
  else st.

(** The connection dropped: [socket.connected] becomes false and
    ['disconnect'] is emitted with the [reason]. *)
Definition transport_disconnect (i : nat) (reason : string)
    (st : Service * World) : Service * World :=
  if sock_open i st.2
  then deliver i "disconnect" (Str reason) (on_world (sock_set_connected i false) st)
  else st.

(** A connection attempt failed. *)
Definition transport_connect_error (i : nat) (error : Value)
    (st : Service * World) : Service * World :=
  if sock_open i st.2 then deliver i "connect_error" error st else st.

(** The server sent the wire event [e] with payload [data]. *)
Definition inbound (i : nat) (e : WireEvent) (data : Value)
    (st : Service * World) : Service * World :=
  if sock_open i st.2 then deliver i (wire_name e) data st else st.

(** An automatic reconnection of socket [i]: the connection drops and the
    library's retry succeeds, with no [disconnect()] of the service between. *)
Definition reconnect_cycle (i : nat) (st : Service * World) : Service * World :=
  transport_connect i (transport_disconnect i "transport close" st).

(** The library's ['reconnect'] and ['reconnect_failed'] notifications. *)
Definition transport_reconnect (i : nat) (st : Service * World) : Service * World :=
  if sock_open i st.2 then deliver i "reconnect" Undefined st else st.

Definition transport_reconnect_failed (i : nat) (st : Service * World)
    : Service * World :=
  if sock_open i st.2 then deliver i "reconnect_failed" Undefined st else st.

(** *** Histories

    Everything that can happen to the service: a method called by the page,
    a timer firing, or the transport reporting on one of the sockets. *)
Inductive Call :=
  | CallConnect (token : string)
  | CallDisconnect
  | CallForceReconnect (token : string)
  | TimerFires
  | CallOnOff (op : CbOp)
  | CallEmit (event : string) (data : Value)
  | CallStartViewingFile (fileId : string)
  | CallStopViewingFile (fileId : string)
  | CallGetOnlineUsers
  | TransportConnect (i : nat)
  | TransportDisconnect (i : nat) (reason : string)
  | TransportConnectError (i : nat) (error : Value)
  | TransportReconnect (i : nat)
  | TransportReconnectFailed (i : nat)
  | TransportInbound (i : nat) (e : WireEvent) (data : Value).

Definition run (st : Service * World) (c : Call) : Service * World :=
  match c with
  | CallConnect token => connect token st
  | CallDisconnect => disconnect st
  | CallForceReconnect token => forceReconnect token st
  | TimerFires => run_timer st
  | CallOnOff op => on_service (λ s, run_op s op) st
  | CallEmit event data => emit event data st
  | CallStartViewingFile fileId => startViewingFile fileId st
  | CallStopViewingFile fileId => stopViewingFile fileId st
  | CallGetOnlineUsers => getOnlineUsers st
  | TransportConnect i => transport_connect i st
  | TransportDisconnect i reason => transport_disconnect i reason st
  | TransportConnectError i error => transport_connect_error i error st
  | TransportReconnect i => transport_reconnect i st
  | TransportReconnectFailed i => transport_reconnect_failed i st
  | TransportInbound i e data => inbound i e data st
  end.

(** The state a page reaches from a fresh service by a history. *)
Definition after (history : list Call) : Service * World :=
  foldl run (newService, newWorld) history.

End Methods.

(** *** Vocabulary of the statements *)

(** What every history keeps true: without a socket no attempt is pending,
    and the current socket is one of the sockets created. *)
Definition coherent (st : Service * World) : Prop :=
  (socket st.1 = None → isConnecting st.1 = false)
  ∧ (∀ i, socket st.1 = Some i → i < length (socks st.2)).

(** A step that keeps the current socket, starts no attempt and loses no
    socket. *)
Definition steady (st st' : Service * World) : Prop :=
  socket st'.1 = socket st.1
  ∧ (isConnecting st'.1 = true → isConnecting st.1 = true)
  ∧ length (socks st.2) ≤ length (socks st'.2).

(** The callbacks registered for an event class, in order
    ([this.listeners.get(event)], an absent entry read as no callback). *)
Definition registered (s : Service) (event : string) : list nat :=
  default [] (listeners s !! event).

(** Removal of the first occurrence, as the specification words [off]. *)
Fixpoint remove_first (cb : nat) (l : list nat) : list nat :=
  match l with
  | [] => []
  | x :: l' => if decide (x = cb) then l' else x :: remove_first cb l'
  end.

(** What a call of [on] or [off] is specified to do to the list of one event
    class. *)
Definition spec_op (event : string) (l : list nat) (op : CbOp) : list nat :=
  match op with
  | CallOn e cb => if decide (e = event) then l ++ [cb] else l
  | CallOff e cb => if decide (e = event) then remove_first cb l else l
  end.

Definition op_event (op : CbOp) : string :=
  match op with
  | CallOn e _ | CallOff e _ => e
  end.

(** The callbacks in [cbs], called with [data], leave the list of [event]
    alone: they call neither [on] nor [off] for that class. *)
Definition quiet_for (behaviour : nat → Value → CbRun) (event : string)
    (data : Value) (cbs : list nat) : Prop :=
  Forall (λ cb, Forall (λ op, op_event op ≠ event) (cb_ops (behaviour cb data))) cbs.

#[global] Instance quiet_for_dec behaviour event data cbs :
  Decision (quiet_for behaviour event data cbs).
Proof. unfold quiet_for. apply _. Defined.

(** The callbacks in [cbs], called with [data], unsubscribe none of [cbs]
    from [event]: they may subscribe callbacks to the class, and they may
    call [off] for it with a callback that is not in [cbs]. *)
Definition spares (behaviour : nat → Value → CbRun) (event : string)
    (data : Value) (cbs : list nat) : Prop :=
  Forall (λ cb,
            Forall (λ op, match op with
                          | CallOff e x => e = event → x ∉ cbs
                          | CallOn _ _ => True
                          end) (cb_ops (behaviour cb data))) cbs.

#[global] Instance spares_dec behaviour event data cbs :
  Decision (spares behaviour event data cbs).
Proof.
  unfold spares. apply Forall_dec. intros cb. apply Forall_dec.
  intros [e x | e x]; apply _.
Defined.

(** The same subscribers, none of which throws. *)
Definition never_throws (behaviour : nat → Value → CbRun) : nat → Value → CbRun :=
  λ cb data, mkCbRun (cb_ops (behaviour cb data)) false.

(** Subscribers that only observe. *)
Definition observers : nat → Value → CbRun := λ _ _, mkCbRun [] false.

Definition is_listener_error (event : string) (c : ConsoleEntry) : Prop :=
  ∃ n, c = ErrorInListener n event.

(** The invocation [c] of a callback ends by throwing. *)
Definition throws (behaviour : nat → Value → CbRun) (c : nat * Value) : Prop :=
  cb_throws (behaviour c.1 c.2) = true.

#[global] Instance throws_dec behaviour c : Decision (throws behaviour c).
Proof. unfold throws. apply _. Defined.

(** Two worlds that differ in the console at most. *)
Definition agree (w w0 : World) : Prop :=
  socks w = socks w0 ∧ toasts w = toasts w0 ∧ timers w = timers w0
  ∧ calls w = calls w0.

(** The registrations [connect] makes for the connection life cycle and the
    ones [setupEventListeners] makes, as (name, closure) pairs. *)
Definition lifecycle_regs : list (string * Handler) :=
  [ ("connect", OnConnect); ("disconnect", OnDisconnect);
    ("connect_error", OnConnectError); ("reconnect", OnReconnect);
    ("reconnect_failed", OnReconnectFailed) ].

Definition wire_regs : list (string * Handler) :=
  (λ e, (wire_name e, OnWire e)) <$> wire_events.


(** Socket [i] is the service's current socket, the client has not closed
    it, and it carries the life-cycle registrations followed by [m] rounds of
    the wire registrations. *)
Definition attached (i m : nat) (st : Service * World) : Prop :=
  socket st.1 = Some i
  ∧ ∃ k, socks st.2 !! i = Some k
         ∧ sock_closed k = false
         ∧ handlers k = lifecycle_regs ++ concat (replicate m wire_regs).

End Socket.

Module Provider.

(** *** ViewingProvider: the reducer state next to the socket service

    [useReducer(viewingReducer, initialState)] keeps the current ViewingState
    (with the store its objects live in); [socketService] is the module's
    singleton. *)
Record Client := mkClient {
  heap : Viewing.Heap;
  state : Viewing.ViewingState;
  service : Socket.Service;
  world : Socket.World
}.

Section Effects.

Variable behaviour : Socket.Cb → Socket.Value → Socket.CbRun.

(** JavaScript truthiness of a [string | null]. *)
Definition truthy (v : option string) : bool :=
  match v with
  | Some s => negb (bool_decide (s = ""))
  | None => false
  end.

(** The first effect of ViewingProvider, run when [user] or [token] change:
    [if (user && token) socketService.connect(token)]. *)
Definition connect_effect (user : bool) (token : option string) (c : Client) : Client :=
  match token with
  | Some t =>
      if user && truthy token
      then let st := Socket.connect t (service c, world c) in
           mkClient (heap c) (state c) st.1 st.2
      else c
  | None => c
  end.

(** Its cleanup, run before the effect runs again for a new [user] or
    [token] (the provider stays mounted and keeps its reducer state) and when
    the provider unmounts.  [captured] is the ViewingState of the render that
    installed the effect (the closure reads [state.currentlyViewing] from
    there).  No action is dispatched, so the reducer state is left as it
    is. *)
Definition cleanup_effect (captured : Viewing.ViewingState) (c : Client) : Client :=
  let st0 := (service c, world c) in
  let st1 := match Viewing.currentlyViewing captured with
             | Some f => if truthy (Some f)
                         then Socket.stopViewingFile f st0
                         else st0
             | None => st0
             end in
  let st2 := Socket.disconnect behaviour st1 in
  mkClient (heap c) (state c) st2.1 st2.2.

End Effects.

End Provider.

Module Samples.

(** *** Concrete data used in examples *)

Import Viewing.

Definition alice : ViewerInfo :=
  mkViewerInfo "u1" "Alice" "alice@example.com" "s1" 1000.
Definition bob : ViewerInfo :=
  mkViewerInfo "u2" "Bob" "bob@example.com" "s2" 2000.
(** Alice again, from another connection. *)
Definition alice2 : ViewerInfo :=
  mkViewerInfo "u1" "Alice" "alice@example.com" "s9" 3000.

(** A store with the FileViewers object of file ["f1"] (viewed by Alice,
    stamped 100) and a second array as an incoming payload would bring it, in
    which Alice appears twice. *)
Definition heap1 : Heap :=
  mkHeap [mkFileViewers "f1" 0 100] [[alice]; [alice; alice2]].

Definition state1 : ViewingState := mkViewingState {["f1" := 0]} None.

(** Two subscribers of one event class, registered in the order 1, 2. *)
Definition two_listeners : Socket.Service :=
  Socket.on "file-viewers-updated" 2
    (Socket.on "file-viewers-updated" 1 Socket.newService).

(** Subscriber 1 unsubscribes itself when it is called (a one-shot
    listener); every other subscriber only observes. *)
Definition one_shot : nat → Socket.Value → Socket.CbRun :=
  λ cb _, if decide (cb = 1)
          then Socket.mkCbRun [Socket.CallOff "file-viewers-updated" 1] false
          else Socket.mkCbRun [] false.

(** Subscriber 1 unsubscribes itself and then throws; every other
    subscriber only observes. *)
Definition one_shot_throws : nat → Socket.Value → Socket.CbRun :=
  λ cb _, if decide (cb = 1)
          then Socket.mkCbRun [Socket.CallOff "file-viewers-updated" 1] true
          else Socket.mkCbRun [] false.

(** Subscriber 1 subscribes subscriber 3 and calls [off] for subscriber 9,
    which is not subscribed; every other subscriber only observes. *)
Definition busy : nat → Socket.Value → Socket.CbRun :=
  λ cb _, if decide (cb = 1)
          then Socket.mkCbRun [Socket.CallOn "file-viewers-updated" 3;
                               Socket.CallOff "file-viewers-updated" 9] true
          else Socket.mkCbRun [] false.

(** Subscriber 1 throws; every other subscriber only observes. *)
Definition faulty : nat → Socket.Value → Socket.CbRun :=
  λ cb _, Socket.mkCbRun [] (bool_decide (cb = 1)).

(** A fresh page after [connect("tok")]: socket 0 exists and is not yet
    connected (see [dialing_reached]). *)
Definition dialing_service : Socket.Service :=
  Socket.mkService (Some 0) false ∅ 0 true.

Definition dialing_world : Socket.World :=
  Socket.mkWorld
    [Socket.mkSock "tok" false false (Socket.lifecycle_regs ++ Socket.wire_regs) []]
    [] [] [] [].

(** A fresh page after [connect("tok")] and five failed attempts of the
    transport on socket 0 (see [exhausted_reached]). *)
Definition exhausted_service : Socket.Service :=
  Socket.mkService (Some 0) false ∅ 5 false.

Definition exhausted_world : Socket.World :=
  Socket.mkWorld
    [Socket.mkSock "tok" false false (Socket.lifecycle_regs ++ Socket.wire_regs) []]
    [Socket.ToastConnectFailed]
    (replicate 5 (Socket.ErrorConnection Socket.Undefined))
    [] [].

(** A connected page (see [online_reached]) with one subscriber, caching the
    viewers of ["f1"] and viewing it. *)
Definition online_service : Socket.Service :=
  Socket.mkService (Some 0) true {["file-viewers-updated" := [1]]} 0 false.

Definition online_world : Socket.World :=
  Socket.mkWorld
    [Socket.mkSock "tok" true false
       (Socket.lifecycle_regs ++ Socket.wire_regs ++ Socket.wire_regs) []]
    [Socket.ToastConnected] [] [] [].

Definition client1 : Provider.Client :=
  Provider.mkClient heap1
    (Viewing.mkViewingState {["f1" := 0]} (Some "f1"))
    online_service online_world.

End Samples.

Module Auth.

(** *** backend/src/middlewares/auth.ts *)

(** [String.prototype.replace(pattern, '')] with a string pattern: the first
    occurrence of the pattern is cut out, wherever it is; a string without
    the pattern is returned as it is. *)
Fixpoint strip_prefix (pat s : string) : option string :=
  match pat, s with
  | EmptyString, _ => Some s
  | String a pat', String b s' =>
      if Ascii.eqb a b then strip_prefix pat' s' else None
  | String _ _, EmptyString => None
  end.

Fixpoint replace_first (pat s : string) : string :=
  match strip_prefix pat s with
  | Some rest => rest
  | None =>
      match s with
      | EmptyString => EmptyString
      | String c s' => String c (replace_first pat s')
      end
  end.

(** The pattern occurs in the string. *)
Definition occurs (pat s : string) : Prop :=
  ∃ a b, s = a +:+ pat +:+ b.

(** No occurrence of the pattern in [s] starts before the end of [a]. *)
Definition first_after (pat a s : string) : Prop :=
  ∀ a' b', s = a' +:+ pat +:+ b' → String.length a ≤ String.length a'.

(** [occurs], computed. *)
Fixpoint contains (pat s : string) : bool :=
  match strip_prefix pat s with
  | Some _ => true
  | None =>
      match s with
      | EmptyString => false
      | String _ s' => contains pat s'
      end
  end.

(** What [authenticate] does with a request: it answers with a status and a
    JSON body [{ success, message }], or it stores the decoded token in
    [req.user] and calls [next()]. *)
Inductive Outcome (User : Type) :=
  | Respond (status : nat) (success : bool) (message : string)
  | Next (user : User).

Arguments Respond {User} status success message.
Arguments Next {User} user.

Section Authenticate.

(** The decoded payload is whatever [jwt.verify] returns ([any]). *)
Context {User : Type}.

(** [jwt.verify(token, process.env.JWT_SECRET)]: the decoded payload, or
    [None] when it throws.  The library and the secret are outside the
    sources. *)
Variable verify : string → option User.

(** [req.header('Authorization')?.replace('Bearer ', '')] *)
Definition token_of (authorization : option string) : option string :=
  replace_first "Bearer " <$> authorization.

(** [authenticate(req, res, next)], as a function of the Authorization
    header of the request ([None]: the header is absent).  [next] is taken
    to return; an exception from it would land in the [catch]. *)
Definition authenticate (authorization : option string) : Outcome User :=
  match token_of authorization with
  | None => Respond 401 false "No token, authorization denied"
  | Some token =>
      if bool_decide (token = "")
      then Respond 401 false "No token, authorization denied"
      else match verify token with
           | Some decoded => Next decoded
           | None => Respond 401 false "Token is not valid"
           end
  end.

(** The answer to a request whose token is [token]. *)
Definition answer_for (token : string) : Outcome User :=
  if bool_decide (token = "")
  then Respond 401 false "No token, authorization denied"
  else match verify token with
       | Some decoded => Next decoded
       | None => Respond 401 false "Token is not valid"
       end.

End Authenticate.

(** A verifier that accepts one token, for the examples. *)
Definition accepts_only (good : string) : string → option nat :=
  λ token, if bool_decide (token = good) then Some 7 else None.

End Auth.

Module Feed.

(** *** The reducer fed by the provider

    What reaches the reducer over the life of a page.  The three presence
    events arrive from the socket with a payload decoded by the transport:
    the [viewers] of a ['file-viewers-updated'] packet is an array of its
    own, which [handleFileViewersUpdated] dispatches as it is.
    SET_CURRENTLY_VIEWING is dispatched by [startViewing] and [stopViewing];
    nothing in the provider dispatches CLEAR_FILE_VIEWERS, which is kept as
    an event for the sake of the reducer. *)

Import Viewing.

Inductive Event :=
  | file_viewers_updated (fileId : string) (viewers : list ViewerInfo)
  | user_started_viewing_file (fileId : string) (viewer : ViewerInfo)
  | user_stopped_viewing_file (fileId : string) (userId : string)
  | set_currently_viewing (payload : option string)
  | clear_file_viewers (fileId : string).

(** The action a handler dispatches for an event, the decoded array put in
    the store. *)
Definition action_of (ev : Event) (h : Heap) : Heap * ViewingAction :=
  match ev with
  | file_viewers_updated f vs =>
      let '(h1, a) := alloc_arr h vs in (h1, SET_FILE_VIEWERS f a)
  | user_started_viewing_file f v => (h, USER_STARTED_VIEWING f v)
  | user_stopped_viewing_file f u => (h, USER_STOPPED_VIEWING f u)
  | set_currently_viewing p => (h, SET_CURRENTLY_VIEWING p)
  | clear_file_viewers f => (h, CLEAR_FILE_VIEWERS f)
  end.

(** One packet is handed to the reducer once per transport handler that
    relays it (see [Socket.inbound]): decoded once, then dispatched at each
    of the [instants], with the same payload object every time. *)
Definition dispatch_all (action : ViewingAction) (instants : list Z)
    (hs : Heap * ViewingState) : option (Heap * ViewingState) :=
  foldl (λ acc now, acc ≫= (λ hs, viewingReducer now hs.1 hs.2 action))
        (Some hs) instants.

Definition receive (hs : Heap * ViewingState) (d : list Z * Event)
    : option (Heap * ViewingState) :=
  let '(h1, action) := action_of d.2 hs.1 in
  dispatch_all action d.1 (h1, hs.2).

(** A whole history of (instants, event), from [initialState]. *)
Definition replay (history : list (list Z * Event)) : option (Heap * ViewingState) :=
  foldl (λ acc d, acc ≫= (λ hs, receive hs d))
        (Some (initialHeap, initialState)) history.

(** The same history with every event dispatched once, at its first
    instant. *)
Definition once (history : list (list Z * Event)) : list (list Z * Event) :=
  (λ d, (take 1 d.1, d.2)) <$> history.

(** *** The same transitions on values, with no store

    What each branch of the reducer does to the content of the map when no
    object or array is shared: SET_FILE_VIEWERS replaces the entry,
    USER_STARTED_VIEWING pushes or overwrites by [id], USER_STOPPED_VIEWING
    filters by [id] and deletes an entry left empty, SET_CURRENTLY_VIEWING
    moves the pointer, CLEAR_FILE_VIEWERS deletes the entry. *)
Record Ideal := mkIdeal {
  shown : gmap string FileViewersView;
  pointer : option string
}.

Definition ideal0 : Ideal := mkIdeal ∅ None.

Definition ideal_step (m : Ideal) (te : Z * Event) : Ideal :=
  match te.2 with
  | file_viewers_updated f vs =>
      mkIdeal (<[f := mkView f vs te.1]> (shown m)) (pointer m)
  | user_started_viewing_file f v =>
      match shown m !! f with
      | Some e =>
          mkIdeal (<[f := mkView (view_fileId e) (upsert v (view_viewers e)) te.1]>
                     (shown m)) (pointer m)
      | None => mkIdeal (<[f := mkView f [v] te.1]> (shown m)) (pointer m)
      end
  | user_stopped_viewing_file f u =>
      match shown m !! f with
      | Some e =>
          let rest := filter (other_id u) (view_viewers e) in
          if bool_decide (rest = [])
          then mkIdeal (delete f (shown m)) (pointer m)
          else mkIdeal (<[f := mkView (view_fileId e) rest te.1]> (shown m)) (pointer m)
      | None => m
      end
  | set_currently_viewing p => mkIdeal (shown m) p
  | clear_file_viewers f => mkIdeal (delete f (shown m)) (pointer m)
  end.

Definition ideal_receive (m : Ideal) (d : list Z * Event) : Ideal :=
  foldl (λ m now, ideal_step m (now, d.2)) m d.1.

Definition ideal (history : list (list Z * Event)) : Ideal :=
  foldl ideal_receive ideal0 history.

(** The file an event is about. *)
Definition file_of (ev : Event) : option string :=
  match ev with
  | file_viewers_updated f _ | user_started_viewing_file f _
  | user_stopped_viewing_file f _ | clear_file_viewers f => Some f
  | set_currently_viewing _ => None
  end.

(** The references a cached file leads to: its object and that object's
    array. *)
Definition refs_of (h : Heap) (state : ViewingState) (f : string)
    : option (nat * nat) :=
  r ← fileViewers state !! f;
  o ← objs h !! r;
  Some (r, viewers o).

(** No two cached files share an object or an array. *)
Definition separated (h : Heap) (state : ViewingState) : Prop :=
  ∀ f1 f2 p1 p2,
    f1 ≠ f2 → refs_of h state f1 = Some p1 → refs_of h state f2 = Some p2 →
    p1.1 ≠ p2.1 ∧ p1.2 ≠ p2.2.

(** The array [a] is not the array of a cached file other than [f]. *)
Definition unused_by_others (h : Heap) (st : ViewingState) (f : string) (a : nat)
    : Prop :=
  ∀ f' p, f' ≠ f → refs_of h st f' = Some p → p.2 ≠ a.

(** The reducer's store and state stand for the value model [m]. *)
Definition stands_for (m : Ideal) (hs : Heap * ViewingState) : Prop :=
  wf hs.1 hs.2 ∧ separated hs.1 hs.2
  ∧ view hs.1 hs.2 = shown m ∧ currentlyViewing hs.2 = pointer m.

(** Two models that show the same viewers under the same file ids, time
    stamps aside. *)
Definition alike (m1 m2 : Ideal) : Prop :=
  untimed <$> shown m1 = untimed <$> shown m2 ∧ pointer m1 = pointer m2.

(** Every entry is filed under its own file id. *)
Definition keyed (m : Ideal) : Prop :=
  ∀ f e, shown m !! f = Some e → view_fileId e = f.

(** The viewers the model shows for a file ([getFileViewers] on values). *)
Definition viewers_of (m : Ideal) (f : string) : list ViewerInfo :=
  match shown m !! f with
  | Some e => view_viewers e
  | None => []
  end.

End Feed.

Module Outbound.

(** *** The remaining senders of the socket service

    Each method builds an object literal and hands it to [emit].  A
    parameter declared optional and left out is the field value
    [undefined]. *)

Import Socket.

Definition optional (v : option string) : Value :=
  match v with
  | Some s => Str s
  | None => Undefined
  end.

(** [notifyFileUploaded(fileData, parentFolder?)] *)
Definition notifyFileUploaded (fileData : Value) (parentFolder : option string)
    (st : Service * World) : Service * World :=
  emit "file-uploaded"
    (Obj [("fileData", fileData); ("parentFolder", optional parentFolder)]) st.

(** [startEditingFile(fileId)] *)
Definition startEditingFile (fileId : string) (st : Service * World)
    : Service * World :=
  emit "start-editing-file" (Obj [("fileId", Str fileId)]) st.

(** [stopEditingFile(fileId)] *)
Definition stopEditingFile (fileId : string) (st : Service * World)
    : Service * World :=
  emit "stop-editing-file" (Obj [("fileId", Str fileId)]) st.

(** [joinCollaboration(resourceId)] *)
Definition joinCollaboration (resourceId : string) (st : Service * World)
    : Service * World :=
  emit "join-collaboration" (Obj [("resourceId", Str resourceId)]) st.

(** [leaveCollaboration(resourceId)] *)
Definition leaveCollaboration (resourceId : string) (st : Service * World)
    : Service * World :=
  emit "leave-collaboration" (Obj [("resourceId", Str resourceId)]) st.

(** [sendNotification(targetUserId, type, message, resourceId?)] *)
Definition sendNotification (targetUserId type message : string)
    (resourceId : option string) (st : Service * World) : Service * World :=
  emit "send-notification"
    (Obj [("targetUserId", Str targetUserId); ("type", Str type);
          ("message", Str message); ("resourceId", optional resourceId)]) st.

(** [checkUserOnline(userId)] *)
Definition checkUserOnline (userId : string) (st : Service * World)
    : Service * World :=
  emit "check-user-online" (Obj [("userId", Str userId)]) st.

(** A call of one of the senders of the service. *)
Inductive Request :=
  | StartViewingFile (fileId : string)
  | StopViewingFile (fileId : string)
  | Emit (event : string) (data : Value)
  | NotifyFileUploaded (fileData : Value) (parentFolder : option string)
  | StartEditingFile (fileId : string)
  | StopEditingFile (fileId : string)
  | JoinCollaboration (resourceId : string)
  | LeaveCollaboration (resourceId : string)
  | SendNotification (targetUserId type message : string) (resourceId : option string)
  | GetOnlineUsers
  | CheckUserOnline (userId : string).

Definition perform (st : Service * World) (r : Request) : Service * World :=
  match r with
  | StartViewingFile f => startViewingFile f st
  | StopViewingFile f => stopViewingFile f st
  | Emit event data => emit event data st
  | NotifyFileUploaded d p => notifyFileUploaded d p st
  | StartEditingFile f => startEditingFile f st
  | StopEditingFile f => stopEditingFile f st
  | JoinCollaboration r => joinCollaboration r st
  | LeaveCollaboration r => leaveCollaboration r st
  | SendNotification u t m r => sendNotification u t m r st
  | GetOnlineUsers => getOnlineUsers st
  | CheckUserOnline u => checkUserOnline u st
  end.

(** *** Vocabulary of the statements *)

(** The packet a request puts on the wire when it is sent. *)
Definition packet_of (r : Request) : string * Value :=
  match r with
  | StartViewingFile f => ("start-viewing-file", Obj [("fileId", Str f)])
  | StopViewingFile f => ("stop-viewing-file", Obj [("fileId", Str f)])
  | Emit event data => (event, data)
  | NotifyFileUploaded d p =>
      ("file-uploaded", Obj [("fileData", d); ("parentFolder", optional p)])
  | StartEditingFile f => ("start-editing-file", Obj [("fileId", Str f)])
  | StopEditingFile f => ("stop-editing-file", Obj [("fileId", Str f)])
  | JoinCollaboration r => ("join-collaboration", Obj [("resourceId", Str r)])
  | LeaveCollaboration r => ("leave-collaboration", Obj [("resourceId", Str r)])
  | SendNotification u t m r =>
      ("send-notification",
       Obj [("targetUserId", Str u); ("type", Str t); ("message", Str m);
            ("resourceId", optional r)])
  | GetOnlineUsers => ("get-online-users", Undefined)
  | CheckUserOnline u => ("check-user-online", Obj [("userId", Str u)])
  end.

(** The console line a request leaves when it is dropped, and the one it
    leaves when it is sent. *)
Definition warning_of (r : Request) : ConsoleEntry :=
  match r with
  | StartViewingFile _ => WarnCannotStartViewing
  | StopViewingFile _ => WarnCannotStopViewing
  | GetOnlineUsers => WarnCannotGetOnlineUsers
  | _ => WarnCannotEmit (packet_of r).1
  end.

Definition log_of (r : Request) : list ConsoleEntry :=
  match r with
  | GetOnlineUsers => [LogEmittingGetOnlineUsers]
  | _ => []
  end.

(** The files announced as viewed and not withdrawn since, as a reader of
    the packets sees them: ['start-viewing-file'] adds the file,
    ['stop-viewing-file'] removes it. *)
Definition announce (acc : gset string) (p : string * Value) : gset string :=
  match p.2 with
  | Obj [(key, Str f)] =>
      if bool_decide (key = "fileId")
      then if bool_decide (p.1 = "start-viewing-file") then acc ∪ {[f]}
           else if bool_decide (p.1 = "stop-viewing-file") then acc ∖ {[f]}
           else acc
      else acc
  | _ => acc
  end.

Definition announced (packets : list (string * Value)) : gset string :=
  foldl announce ∅ packets.

End Outbound.

Module Hooks.

(** *** What ViewingProvider hands to its consumers

    [startViewing] and [stopViewing] are made anew by every render and close
    over the [state] of that render: [captured] is that state.  What they
    send goes to the service as it is when they are called; what they
    dispatch is reduced on the state the reducer holds then. *)

Import Viewing Socket Provider Outbound.

(** [dispatch(action)]: the reducer runs at the instant [now]. *)
Definition dispatch (now : Z) (action : ViewingAction) (c : Client) : option Client :=
  hs ← viewingReducer now (heap c) (state c) action;
  Some (mkClient hs.1 hs.2 (service c) (world c)).

(** [startViewing(fileId)], as made by the render of [captured] *)
Definition startViewing_from (captured : ViewingState) (now : Z) (fileId : string)
    (c : Client) : option Client :=
  let st0 := (service c, world c) in
  let st1 := match currentlyViewing captured with
             | Some cur =>
                 if truthy (Some cur) && negb (bool_decide (cur = fileId))
                 then stopViewingFile cur st0
                 else st0
             | None => st0
             end in
  let st2 := startViewingFile fileId st1 in
  dispatch now (SET_CURRENTLY_VIEWING (Some fileId))
    (mkClient (heap c) (state c) st2.1 st2.2).

(** [stopViewing(fileId)], as made by the render of [captured] *)
Definition stopViewing_from (captured : ViewingState) (now : Z) (fileId : string)
    (c : Client) : option Client :=
  let st1 := stopViewingFile fileId (service c, world c) in
  let c1 := mkClient (heap c) (state c) st1.1 st1.2 in
  if bool_decide (currentlyViewing captured = Some fileId)
  then dispatch now (SET_CURRENTLY_VIEWING None) c1
  else Some c1.

(** The two as made by the latest render: the state they close over is the
    one the reducer holds. *)
Definition startViewing (now : Z) (fileId : string) (c : Client) : option Client :=
  startViewing_from (state c) now fileId c.

Definition stopViewing (now : Z) (fileId : string) (c : Client) : option Client :=
  stopViewing_from (state c) now fileId c.

(** [isCurrentlyViewing(fileId)] *)
Definition isCurrentlyViewing (fileId : string) (c : Client) : bool :=
  bool_decide (currentlyViewing (state c) = Some fileId).

(** [getCurrentViewersCount(fileId)]:
    [state.fileViewers.get(fileId)?.viewers.length || 0] *)
Definition getCurrentViewersCount (fileId : string) (c : Client) : nat :=
  match view (heap c) (state c) !! fileId with
  | Some v => length (view_viewers v)
  | None => 0
  end.



(** A call a consumer makes. *)
Inductive PageCall :=
  | PageStartViewing (fileId : string)
  | PageStopViewing (fileId : string).

Definition page_file (p : PageCall) : string :=
  match p with
  | PageStartViewing f | PageStopViewing f => f
  end.

(** A page: the client, and the state of the render whose functions the
    consumer holds. *)
Record Page := mkPage {
  client : Client;
  rendered : ViewingState
}.

(** The provider renders, handing the consumer functions that close over
    the state of the reducer; or the consumer calls one of the functions it
    holds. *)
Inductive PageStep :=
  | Render
  | Call (now : Z) (p : PageCall).

Definition page_run (pg : option Page) (step : PageStep) : option Page :=
  pg ← pg;
  match step with
  | Render => Some (mkPage (client pg) (state (client pg)))
  | Call now (PageStartViewing f) =>
      c ← startViewing_from (rendered pg) now f (client pg);
      Some (mkPage c (rendered pg))
  | Call now (PageStopViewing f) =>
      c ← stopViewing_from (rendered pg) now f (client pg);
      Some (mkPage c (rendered pg))
  end.

(** The calls [ps], each made with the functions of a render that follows
    the call before it. *)
Definition from_latest_render (ps : list (Z * PageCall)) : list PageStep :=
  ps ≫= (λ p, [Render; Call p.1 p.2]).

(** *** Vocabulary of the statements *)

(** The packets sent so far on the current socket of the service. *)
Definition sent_now (c : Client) : list (string * Value) :=
  match socket (service c) ≫= (λ i, socks (world c) !! i) with
  | Some k => sent k
  | None => []
  end.

(** The file the page shows as viewed, as a set. *)
Definition shown_as_viewed (c : Client) : gset string :=
  match currentlyViewing (state c) with
  | Some f => {[f]}
  | None => ∅
  end.

(** The ['stop-viewing-file'] request [startViewing] makes first, if any. *)
Definition leaving (cv : option string) (fileId : string) : list Request :=
  match cv with
  | Some cur =>
      if truthy (Some cur) && negb (bool_decide (cur = fileId))
      then [StopViewingFile cur]
      else []
  | None => []
  end.

(** The page online: its service has a current socket, connected, and what
    the packets on it announce is what the page shows as viewed. *)
Definition in_step (c : Client) : Prop :=
  (∃ i k, socket (service c) = Some i ∧ socks (world c) !! i = Some k
          ∧ sock_connected k = true)
  ∧ announced (sent_now c) = shown_as_viewed c
  ∧ currentlyViewing (state c) ≠ Some "".

End Hooks.

Module Relay.

(** *** Vocabulary for what one packet sets off *)

Import Socket.



(** A socket the client has not closed carries each life-cycle closure once
    and the wire closures a whole number of rounds, at least one; a socket
    the client closed is disconnected and carries none. *)
Definition sock_shape (k : Sock) : Prop :=
  (sock_closed k = false
   ∧ ∃ m, handlers k = lifecycle_regs ++ concat (replicate (S m) wire_regs))
  ∨ (sock_closed k = true ∧ sock_connected k = false ∧ handlers k = []).

(** Every socket has one of the two shapes, and the current socket of the
    service is one the client has not closed. *)
Definition shaped (st : Service * World) : Prop :=
  Forall sock_shape (socks st.2)
  ∧ ∀ i, socket st.1 = Some i →
      ∃ k, socks st.2 !! i = Some k ∧ sock_closed k = false.

(** The step keeps the current socket, the sockets, the toasts and the
    timers. *)
Definition kept (st st' : Service * World) : Prop :=
  socket st'.1 = socket st.1 ∧ socks st'.2 = socks st.2
  ∧ toasts st'.2 = toasts st.2 ∧ timers st'.2 = timers st.2.

End Relay.

(** * Properties of the reducer *)

Module ViewingProofs.

Import Viewing.

(** ** Arrays *)

Lemma findIndex_None {A} (p : A → bool) l :
  findIndex p l = None ↔ Forall (λ x, p x = false) l.
Proof.
  induction l as [|x l IH]; simpl.
  - split; [constructor | done].
  - destruct (p x) eqn:E.
    + split; [done | inversion 1; congruence].
    + rewrite fmap_None, IH. split.
      * by constructor.
      * by inversion 1.
Qed.

Lemma findIndex_Some {A} (p : A → bool) l i :
  findIndex p l = Some i →
  ∃ x, l !! i = Some x ∧ p x = true ∧ Forall (λ y, p y = false) (take i l).
Proof.
  revert i. induction l as [|x l IH]; simpl; intros i; [done |].
  destruct (p x) eqn:E.
  - intros [= <-]. exists x. repeat split; [done | constructor].
  - intros H. apply fmap_Some in H as (j & Hj & ->).
    destruct (IH j Hj) as (y & Hy & Hp & Hall).
    exists y. repeat split; [done .. |]. simpl. by constructor.
Qed.

Lemma same_id_true viewer v : same_id viewer v = true ↔ id v = id viewer.
Proof. unfold same_id. by rewrite bool_decide_eq_true. Qed.

Lemma same_id_false viewer v : same_id viewer v = false ↔ id v ≠ id viewer.
Proof. unfold same_id. by rewrite bool_decide_eq_false. Qed.

Lemma upsert_absent viewer vs :
  Forall (λ v, id v ≠ id viewer) vs → upsert viewer vs = vs ++ [viewer].
Proof.
  intros Habs. unfold upsert.
  assert (findIndex (same_id viewer) vs = None) as ->; [| done].
  apply findIndex_None. eapply Forall_impl; [exact Habs |].
  intros v. by rewrite same_id_false.
Qed.

Lemma unique_lookup_inj vs i j v w :
  unique_ids vs → vs !! i = Some v → vs !! j = Some w → id v = id w → i = j.
Proof.
  intros Hu Hi Hj Heq. eapply NoDup_lookup; [exact Hu | |].
  - rewrite list_lookup_fmap, Hi. reflexivity.
  - rewrite list_lookup_fmap, Hj. simpl. by rewrite Heq.
Qed.

Lemma upsert_present viewer vs i v :
  unique_ids vs → vs !! i = Some v → id v = id viewer →
  upsert viewer vs = <[i := viewer]> vs.
Proof.
  intros Hu Hi Hid. unfold upsert.
  destruct (findIndex (same_id viewer) vs) as [j|] eqn:E.
  - apply findIndex_Some in E as (w & Hj & Hw & _).
    apply same_id_true in Hw.
    assert (j = i) as ->; [| done].
    eapply unique_lookup_inj; eauto. congruence.
  - apply findIndex_None in E.
    eapply Forall_lookup_1 in E; [| exact Hi].
    apply same_id_false in E. done.
Qed.

Lemma upsert_unique viewer vs : unique_ids vs → unique_ids (upsert viewer vs).
Proof.
  unfold unique_ids, upsert. intros Hu.
  destruct (findIndex (same_id viewer) vs) as [j|] eqn:E.
  - apply findIndex_Some in E as (w & Hj & Hw & _).
    apply same_id_true in Hw.
    rewrite list_fmap_insert, list_insert_id; [done |].
    rewrite list_lookup_fmap, Hj. simpl. by rewrite Hw.
  - apply findIndex_None in E.
    rewrite fmap_app. simpl. apply NoDup_app. split; [done |].
    split; [| apply NoDup_singleton].
    intros x Hx Hx'. apply list_elem_of_singleton in Hx' as ->.
    apply list_elem_of_fmap in Hx as (v & Hv & Hin).
    eapply Forall_forall in E; [| exact Hin].
    apply same_id_false in E. congruence.
Qed.

Lemma filter_unique (P : ViewerInfo → Prop) `{∀ v, Decision (P v)} vs :
  unique_ids vs → unique_ids (filter P vs).
Proof.
  unfold unique_ids. intros Hu. eapply sublist_NoDup; [exact Hu |].
  apply fmap_sublist, sublist_filter.
Qed.

(** ** The store *)

(** [h'] is [h] with further objects and arrays allocated. *)
Definition extends (h h' : Heap) : Prop :=
  (∃ os, objs h' = objs h ++ os) ∧ (∃ as', arrs h' = arrs h ++ as').

Lemma extends_alloc_obj h o : extends h (alloc_obj h o).1.
Proof. split; simpl; [by exists [o] | exists []; by rewrite app_nil_r]. Qed.

Lemma extends_alloc_arr h vs : extends h (alloc_arr h vs).1.
Proof. split; simpl; [exists []; by rewrite app_nil_r | by exists [vs]]. Qed.

Lemma extends_trans h1 h2 h3 : extends h1 h2 → extends h2 h3 → extends h1 h3.
Proof.
  intros [[o1 E1] [a1 F1]] [[o2 E2] [a2 F2]]. split.
  - exists (o1 ++ o2). by rewrite E2, E1, app_assoc.
  - exists (a1 ++ a2). by rewrite F2, F1, app_assoc.
Qed.

Lemma heap_closed_lookup h r o :
  heap_closed h → objs h !! r = Some o → viewers o < length (arrs h).
Proof. intros Hc Hr. by eapply Forall_lookup_1 in Hc. Qed.

Lemma read_lookup h r v :
  read h r = Some v ↔
  ∃ o, objs h !! r = Some o ∧ arrs h !! viewers o = Some (view_viewers v)
       ∧ view_fileId v = fileId o ∧ view_lastUpdated v = lastUpdated o.
Proof.
  unfold read. split.
  - intros H. apply bind_Some in H as (o & Ho & H).
    apply bind_Some in H as (vs & Hvs & [= <-]). exists o. simpl. done.
  - intros (o & Ho & Hvs & Hf & Ht). rewrite Ho. simpl. rewrite Hvs. simpl.
    destruct v; simpl in *. by subst.
Qed.

Lemma read_is_Some h r :
  heap_closed h → r < length (objs h) → is_Some (read h r).
Proof.
  intros Hc Hr. apply lookup_lt_is_Some_2 in Hr as [o Ho].
  destruct (lookup_lt_is_Some_2 (arrs h) (viewers o)) as [vs Hvs];
    [by eapply heap_closed_lookup |].
  exists (mkView (fileId o) vs (lastUpdated o)).
  apply read_lookup. by exists o.
Qed.

(** Allocation does not change what existing references show. *)
Lemma read_extends h h' r :
  heap_closed h → extends h h' → r < length (objs h) → read h' r = read h r.
Proof.
  intros Hc [[os Eo] [as' Ea]] Hr. unfold read. rewrite Eo, Ea.
  rewrite lookup_app_l by done.
  destruct (objs h !! r) as [o|] eqn:Ho; [simpl | done].
  rewrite lookup_app_l; [done |]. by eapply heap_closed_lookup.
Qed.

Lemma view_extends h h' st :
  wf h st → extends h h' → view h' st = view h st.
Proof.
  intros [Hc Hs] Hext. unfold view. apply map_eq; intros f.
  rewrite !lookup_omap. destruct (fileViewers st !! f) as [r|] eqn:Hr; [simpl | done].
  apply read_extends; [done .. |]. by apply (Hs f r).
Qed.

Lemma heap_closed_extends_arrs h h' :
  heap_closed h → objs h' = objs h → (∃ as', arrs h' = arrs h ++ as') → heap_closed h'.
Proof.
  unfold heap_closed. intros Hc -> [as' ->].
  eapply Forall_impl; [exact Hc |]. intros o Ho. simpl in *.
  rewrite length_app. lia.
Qed.

Lemma state_closed_mono h h' st :
  state_closed h st → length (objs h) ≤ length (objs h') → state_closed h' st.
Proof.
  unfold state_closed. intros Hs Hle. eapply map_Forall_impl; [exact Hs |].
  intros f r Hr. simpl in *. lia.
Qed.

Lemma view_lookup h st f v :
  view h st !! f = Some v ↔ ∃ r, fileViewers st !! f = Some r ∧ read h r = Some v.
Proof. unfold view. rewrite lookup_omap. apply bind_Some. Qed.

Lemma view_lookup_None h st f :
  wf h st → view h st !! f = None ↔ fileViewers st !! f = None.
Proof.
  intros [Hc Hs]. unfold view. rewrite lookup_omap. split.
  - destruct (fileViewers st !! f) as [r|] eqn:Hr; [simpl | done].
    intros Hnone. destruct (read_is_Some h r Hc) as [v Hv]; [by apply (Hs f r) |].
    congruence.
  - by intros ->.
Qed.

(** ** The reducer, action by action *)

(** SET_FILE_VIEWERS: a new object for the file, every other file as before. *)
Lemma reduce_set now h st f a vs :
  wf h st → arrs h !! a = Some vs →
  ∃ h' st',
    viewingReducer now h st (SET_FILE_VIEWERS f a) = Some (h', st')
    ∧ wf h' st'
    ∧ extends h h'
    ∧ view h' st' = <[f := mkView f vs now]> (view h st)
    ∧ currentlyViewing st' = currentlyViewing st.
Proof.
  intros Hwf Ha. destruct (Hwf) as [Hc Hs]. simpl.
  eexists _, _. split; [reflexivity |].
  assert (Hext : extends h (alloc_obj h (mkFileViewers f a now)).1)
    by apply extends_alloc_obj.
  repeat split; try exact (proj1 Hext); try exact (proj2 Hext).
  - unfold heap_closed; simpl. apply Forall_app. split; [done |].
    constructor; [| constructor]. simpl. by eapply lookup_lt_Some.
  - unfold state_closed; simpl. apply map_Forall_insert_2.
    + rewrite length_app. simpl. lia.
    + eapply map_Forall_impl; [exact Hs |]. intros ? r Hr. simpl in *.
      rewrite length_app. lia.
  - unfold view at 1. simpl. erewrite omap_insert_Some.
    + f_equal. apply (view_extends h _ st Hwf Hext).
    + apply read_lookup. eexists. simpl. split; [apply list_lookup_middle; done |].
      by simpl.
Qed.

(** Overwriting an object in place and one array in place: what any
    reference shows afterwards. *)
Lemma read_set_obj_arr h cur o vs vs' now r v :
  objs h !! cur = Some o → arrs h !! viewers o = Some vs →
  read (set_obj (set_arr h (viewers o) vs') cur
          (mkFileViewers (fileId o) (viewers o) now)) r = Some v →
  ∃ v0, read h r = Some v0
    ∧ view_fileId v = view_fileId v0
    ∧ (view_viewers v = view_viewers v0
       ∨ view_viewers v = vs' ∧ view_viewers v0 = vs).
Proof.
  intros Ho Hvs Hr. apply read_lookup in Hr as (o' & Ho' & Hvs' & Hf & _).
  simpl in *.
  assert (∃ o0, objs h !! r = Some o0 ∧ viewers o0 = viewers o'
                ∧ fileId o0 = fileId o') as (o0 & Ho0 & Hv0 & Hf0).
  { destruct (decide (r = cur)) as [-> | Hne].
    - rewrite list_lookup_insert_eq in Ho' by (by eapply lookup_lt_Some).
      injection Ho' as <-. by exists o.
    - rewrite list_lookup_insert_ne in Ho' by done. by exists o'. }
  destruct (decide (viewers o' = viewers o)) as [Heq | Hne].
  - rewrite Heq, list_lookup_insert_eq in Hvs' by (by eapply lookup_lt_Some).
    injection Hvs' as Hvs'.
    exists (mkView (fileId o0) vs (lastUpdated o0)). split; [| split].
    + apply read_lookup. exists o0. simpl. by rewrite Hv0, Heq.
    + simpl. congruence.
    + right. by simpl.
  - rewrite list_lookup_insert_ne in Hvs' by done.
    exists (mkView (fileId o0) (view_viewers v) (lastUpdated o0)). split; [| split].
    + apply read_lookup. exists o0. simpl. by rewrite Hv0.
    + simpl. congruence.
    + by left.
Qed.

Lemma read_set_obj_arr_cur h cur o vs vs' now :
  objs h !! cur = Some o → arrs h !! viewers o = Some vs →
  read (set_obj (set_arr h (viewers o) vs') cur
          (mkFileViewers (fileId o) (viewers o) now)) cur
  = Some (mkView (fileId o) vs' now).
Proof.
  intros Ho Hvs. apply read_lookup. eexists. simpl. split; [| split].
  - apply list_lookup_insert_eq. by eapply lookup_lt_Some.
  - simpl. apply list_lookup_insert_eq. by eapply lookup_lt_Some.
  - done.
Qed.

Lemma wf_set_obj_arr h st cur o vs' now :
  wf h st → objs h !! cur = Some o →
  wf (set_obj (set_arr h (viewers o) vs') cur
        (mkFileViewers (fileId o) (viewers o) now)) st.
Proof.
  intros [Hc Hs] Ho. split.
  - unfold heap_closed; simpl. rewrite length_insert.
    apply Forall_insert; [done |]. simpl. by eapply heap_closed_lookup.
  - unfold state_closed; simpl. by rewrite length_insert.
Qed.

(** The first half of USER_STARTED_VIEWING: the object for the file, created
    empty when the file is not cached. *)
Lemma get_or_create_spec now h st f :
  wf h st →
  let h1 := (get_or_create now h (fileViewers st) f).1 in
  let cur := (get_or_create now h (fileViewers st) f).2 in
  let st1 := mkViewingState (<[f := cur]> (fileViewers st)) (currentlyViewing st) in
  wf h1 st1 ∧ extends h h1
  ∧ (∃ o, objs h1 !! cur = Some o ∧ arrs h1 !! viewers o = Some (getFileViewers h st f))
  ∧ (∀ f', f' ≠ f → view h1 st1 !! f' = view h st !! f')
  ∧ (∀ v, view h1 st1 !! f = Some v → view_viewers v = getFileViewers h st f).
Proof.
  intros Hwf. destruct (Hwf) as [Hc Hs]. unfold get_or_create, getFileViewers.
  destruct (fileViewers st !! f) as [r|] eqn:Hf; simpl.
  - rewrite insert_id by done.
    assert (Hst : mkViewingState (fileViewers st) (currentlyViewing st) = st)
      by by destruct st.
    rewrite Hst. split; [done |].
    split; [split; exists []; by rewrite app_nil_r |].
    destruct (read_is_Some h r Hc) as [v Hv]; [by apply (Hs f r) |].
    assert (Hview : view h st !! f = Some v) by (apply view_lookup; eauto).
    rewrite Hview. split; [| split; [done |]].
    + apply read_lookup in Hv as (o & Ho & Hvs & _). eauto.
    + intros v' [= <-]. done.
  - assert (Hnone : view h st !! f = None) by by apply view_lookup_None.
    rewrite Hnone.
    set (h1 := mkHeap (objs h ++ [mkFileViewers f (length (arrs h)) now])
                      (arrs h ++ [[]])).
    assert (Hext : extends h h1) by (split; simpl; eauto).
    assert (Hnew : read h1 (length (objs h)) = Some (mkView f [] now)).
    { apply read_lookup. eexists. simpl. split; [by apply list_lookup_middle |].
      simpl. split; [by apply list_lookup_middle | done]. }
    split; [split |]; [| | split; [done |]; split; [| split]].
    + unfold heap_closed; simpl. apply Forall_app. split.
      * eapply Forall_impl; [exact Hc |]. intros o Ho. simpl in *.
        rewrite length_app. lia.
      * constructor; [| constructor]. simpl. rewrite length_app. simpl. lia.
    + unfold state_closed; simpl. apply map_Forall_insert_2.
      * rewrite length_app. simpl. lia.
      * eapply map_Forall_impl; [exact Hs |]. intros ? r Hr. simpl in *.
        rewrite length_app. lia.
    + eexists. split; [by apply list_lookup_middle |]. simpl.
      by apply list_lookup_middle.
    + intros f' Hne. unfold view. simpl.
      rewrite !lookup_omap, lookup_insert_ne by done.
      destruct (fileViewers st !! f') as [r|] eqn:Hr; [simpl | done].
      apply read_extends; [done .. |]. by apply (Hs f' r).
    + intros v. unfold view. simpl. rewrite lookup_omap, lookup_insert_eq. simpl.
      fold h1. rewrite Hnew. by intros [= <-].
Qed.

Lemma getFileViewers_unique h st f :
  state_unique h st → unique_ids (getFileViewers h st f).
Proof.
  intros Hu. unfold getFileViewers.
  destruct (view h st !! f) as [v|] eqn:Hv.
  - by apply (Hu f v).
  - apply NoDup_nil_2.
Qed.

Lemma state_eta (st : ViewingState) :
  mkViewingState (fileViewers st) (currentlyViewing st) = st.
Proof. by destruct st. Qed.

(** USER_STARTED_VIEWING *)
Lemma reduce_started now h st f viewer :
  wf h st → state_unique h st →
  ∃ h' st',
    viewingReducer now h st (USER_STARTED_VIEWING f viewer) = Some (h', st')
    ∧ wf h' st' ∧ state_unique h' st'
    ∧ getFileViewers h' st' f = upsert viewer (getFileViewers h st f)
    ∧ currentlyViewing st' = currentlyViewing st.
Proof.
  intros Hwf Hu.
  destruct (get_or_create_spec now h st f Hwf)
    as (Hwf1 & _ & (o & Ho & Hvs) & Hother & Hsame).
  simpl. destruct (get_or_create now h (fileViewers st) f) as [h1 cur] eqn:Hgc.
  simpl in *. rewrite Ho. simpl. rewrite Hvs. simpl.
  set (vs := getFileViewers h st f) in *.
  set (st1 := mkViewingState (<[f := cur]> (fileViewers st)) (currentlyViewing st)) in *.
  eexists _, _. split; [reflexivity |].
  split; [by apply wf_set_obj_arr |].
  split; [| split; [| done]].
  - intros f' v Hv. apply view_lookup in Hv as (r & Hr & Hread).
    eapply read_set_obj_arr in Hread as (v0 & Hread0 & _ & Hcases); [| done ..].
    assert (Hv0 : view h1 st1 !! f' = Some v0) by (apply view_lookup; eauto).
    assert (Hu0 : unique_ids (view_viewers v0)).
    { destruct (decide (f' = f)) as [-> | Hne].
      - rewrite (Hsame v0 Hv0). by apply getFileViewers_unique.
      - rewrite Hother in Hv0 by done. by apply (Hu f' v0). }
    simpl. destruct Hcases as [Heq | [Heq Hvs0]]; rewrite Heq.
    + exact Hu0.
    + apply upsert_unique. rewrite <- Hvs0. exact Hu0.
  - unfold getFileViewers at 1.
    assert (Hv : view (set_obj (set_arr h1 (viewers o) (upsert viewer vs)) cur
                         (mkFileViewers (fileId o) (viewers o) now)) st1 !! f
                 = Some (mkView (fileId o) (upsert viewer vs) now)).
    { apply view_lookup. exists cur. split; [apply lookup_insert_eq |].
      by apply read_set_obj_arr_cur with (vs := vs). }
    by rewrite Hv.
Qed.

(** USER_STOPPED_VIEWING *)
Lemma reduce_stopped now h st f userId :
  wf h st → state_unique h st →
  ∃ h' st',
    viewingReducer now h st (USER_STOPPED_VIEWING f userId) = Some (h', st')
    ∧ wf h' st' ∧ state_unique h' st'
    ∧ getFileViewers h' st' f = filter (other_id userId) (getFileViewers h st f)
    ∧ currentlyViewing st' = currentlyViewing st.
Proof.
  intros Hwf Hu. destruct (Hwf) as [Hc Hs]. simpl.
  destruct (fileViewers st !! f) as [cur|] eqn:Hf.
  - destruct (read_is_Some h cur Hc) as [v Hv]; [by apply (Hs f cur) |].
    assert (Hview : view h st !! f = Some v) by (apply view_lookup; eauto).
    apply read_lookup in Hv as (o & Ho & Hvs & _).
    rewrite Ho. simpl. rewrite Hvs. simpl.
    set (vs' := filter (other_id userId) (view_viewers v)).
    set (h2 := set_obj (mkHeap (objs h) (arrs h ++ [vs'])) cur
                 (mkFileViewers (fileId o) (length (arrs h)) now)).
    assert (Hcur : read h2 cur = Some (mkView (fileId o) vs' now)).
    { apply read_lookup. unfold h2. eexists. simpl. split; [| split].
      - apply list_lookup_insert_eq. by eapply lookup_lt_Some.
      - simpl. by apply list_lookup_middle.
      - split; reflexivity. }
    assert (Hold : ∀ r, r ≠ cur → read h2 r = read h r).
    { intros r Hne. unfold read, h2; simpl.
      rewrite list_lookup_insert_ne by done.
      destruct (objs h !! r) as [o'|] eqn:Ho'; [simpl | done].
      rewrite lookup_app_l; [done |]. by eapply heap_closed_lookup. }
    assert (Hc2 : heap_closed h2).
    { unfold heap_closed, h2; simpl. apply Forall_insert.
      - eapply Forall_impl; [exact Hc |]. intros o' Ho'. simpl in *.
        rewrite length_app. simpl. lia.
      - simpl. rewrite length_app. simpl. lia. }
    assert (Hgf : getFileViewers h st f = view_viewers v)
      by (unfold getFileViewers; by rewrite Hview).
    assert (Huv' : unique_ids vs').
    { apply filter_unique. by apply (Hu f v). }
    assert (Hread2 : ∀ f' r w, fileViewers st !! f' = Some r → read h2 r = Some w →
                               unique_ids (view_viewers w)).
    { intros f' r w Hr Hw. destruct (decide (r = cur)) as [-> | Hne].
      - rewrite Hcur in Hw. by injection Hw as <-.
      - rewrite Hold in Hw by done. apply (Hu f' w). apply view_lookup. eauto. }
    eexists _, _. split; [reflexivity |]. fold vs' h2.
    case_bool_decide as Hlen.
    + split; [split; [done |] | split; [| split; [| done]]].
      * unfold state_closed, h2; simpl. rewrite length_insert.
        by apply map_Forall_delete.
      * intros f' w Hw. apply view_lookup in Hw as (r & Hr & Hw). simpl in Hr.
        apply lookup_delete_Some in Hr as [_ Hr]. by eapply Hread2.
      * unfold getFileViewers at 1, view. simpl.
        rewrite lookup_omap, lookup_delete_eq. simpl.
        rewrite Hgf. fold vs'. apply length_zero_iff_nil in Hlen. by rewrite Hlen.
    + rewrite insert_id by done.
      split; [split; [done |] | split; [| split; [| done]]].
      * unfold state_closed, h2; simpl. by rewrite length_insert.
      * intros f' w Hw. apply view_lookup in Hw as (r & Hr & Hw). by eapply Hread2.
      * unfold getFileViewers at 1.
        assert (Hv2 : view h2 (mkViewingState (fileViewers st) (currentlyViewing st)) !! f
                      = Some (mkView (fileId o) vs' now))
          by (apply view_lookup; eauto).
        rewrite Hv2, Hgf. done.
  - rewrite state_eta. eexists _, _. split; [reflexivity |].
    split; [done |]. split; [done |]. split; [| done].
    assert (Hnone : view h st !! f = None) by by apply view_lookup_None.
    unfold getFileViewers. by rewrite Hnone.
Qed.

(** SET_CURRENTLY_VIEWING and CLEAR_FILE_VIEWERS touch no object. *)
Lemma reduce_set_current now h st payload :
  viewingReducer now h st (SET_CURRENTLY_VIEWING payload)
  = Some (h, mkViewingState (fileViewers st) payload).
Proof. reflexivity. Qed.

Lemma reduce_clear now h st payload :
  viewingReducer now h st (CLEAR_FILE_VIEWERS payload)
  = Some (h, mkViewingState (delete payload (fileViewers st)) (currentlyViewing st)).
Proof. reflexivity. Qed.

Lemma view_delete h st f c :
  view h (mkViewingState (delete f (fileViewers st)) c) = delete f (view h st).
Proof. unfold view. simpl. apply omap_delete. Qed.

(** On a store without dangling references the reducer returns. *)
Lemma reducer_total now h st action :
  wf h st → action_closed h action →
  is_Some (viewingReducer now h st action).
Proof.
  intros Hwf Hact. destruct action as [f a | f viewer | f userId | p | p];
    try (by eexists).
  - destruct (get_or_create_spec now h st f Hwf) as (_ & _ & (o & Ho & Hvs) & _).
    simpl. destruct (get_or_create now h (fileViewers st) f) as [h1 cur].
    simpl in *. rewrite Ho. simpl. rewrite Hvs. by eexists.
  - destruct Hwf as [Hc Hs]. simpl.
    destruct (fileViewers st !! f) as [cur|] eqn:Hf; [| by eexists].
    destruct (read_is_Some h cur Hc) as [v Hv]; [by apply (Hs f cur) |].
    apply read_lookup in Hv as (o & Ho & Hvs & _).
    rewrite Ho. simpl. rewrite Hvs. by eexists.
Qed.

(** ** The previous state after a transition *)

(** SET_FILE_VIEWERS, SET_CURRENTLY_VIEWING and CLEAR_FILE_VIEWERS leave what
    the previous state shows untouched. *)
Lemma reducer_frame now h st action h' st' :
  wf h st → action_closed h action →
  match action with
  | USER_STARTED_VIEWING _ _ | USER_STOPPED_VIEWING _ _ => False
  | _ => True
  end →
  viewingReducer now h st action = Some (h', st') →
  view h' st = view h st.
Proof.
  intros Hwf Hact Hkind Hred. destruct action; try done; simpl in *.
  - destruct (lookup_lt_is_Some_2 _ _ Hact) as [vs Hvs].
    injection Hred as <- <-. apply view_extends; [done |].
    apply extends_alloc_obj.
  - by injection Hred as <- <-.
  - by injection Hred as <- <-.
Qed.

Import Samples.

(** C1. The reducer does not leave the previous state alone.  In [state1]
    file ["f1"] is viewed by Alice (stamped 100).  USER_STARTED_VIEWING for
    Bob, reduced at instant 200, pushes Bob onto the array of the object that
    [state1] still holds and restamps that object: read again after the call,
    [state1] shows Alice and Bob, stamped 200.  USER_STOPPED_VIEWING for
    Alice, reduced at instant 300, empties the list [state1] shows. *)
Theorem reducer_mutates_previous_state :
  view heap1 state1 !! "f1" = Some (mkView "f1" [alice] 100)
  ∧ (∃ h' st',
       viewingReducer 200 heap1 state1 (USER_STARTED_VIEWING "f1" bob) = Some (h', st')
       ∧ view h' state1 !! "f1" = Some (mkView "f1" [alice; bob] 200))
  ∧ (∃ h' st',
       viewingReducer 300 heap1 state1 (USER_STOPPED_VIEWING "f1" "u1") = Some (h', st')
       ∧ view h' state1 !! "f1" = Some (mkView "f1" [] 300)).
Proof.
  split; [reflexivity |]. split; eexists _, _; (split; [reflexivity |]); reflexivity.
Qed.

(** ** At most one entry per identity *)

(** C2 as it stands fails: SET_FILE_VIEWERS installs the array it is given,
    duplicates included. *)
Lemma set_file_viewers_keeps_duplicates :
  ¬ (∀ now h st action h' st',
       wf h st → action_closed h action → state_unique h st →
       viewingReducer now h st action = Some (h', st') →
       state_unique h' st').
Proof.
  intros Hclaim.
  assert (Hwf : wf heap1 state1) by compute_done.
  assert (Hu : state_unique heap1 state1) by compute_done.
  specialize (Hclaim 200%Z heap1 state1 (SET_FILE_VIEWERS "f2" 1) _ _ Hwf
                ltac:(simpl; lia) Hu eq_refl).
  specialize (Hclaim "f2" (mkView "f2" [alice; alice2] 200) eq_refl).
  simpl in Hclaim. apply NoDup_cons_1_1 in Hclaim. apply Hclaim.
  apply list_elem_of_here.
Qed.

(** C2, amended.  Every action keeps the viewer lists free of repeated
    identity ids, provided the array of a SET_FILE_VIEWERS payload is itself
    free of them; the reducer returns, on a store without dangling
    references, and leaves such a store.  USER_STARTED_VIEWING appends the
    viewer when no entry of the file has its id and overwrites, at its
    position, the entry that has. *)
Theorem reducer_keeps_unique_ids now h st action :
  wf h st → action_closed h action → state_unique h st →
  (∀ f a vs, action = SET_FILE_VIEWERS f a → arrs h !! a = Some vs → unique_ids vs) →
  ∃ h' st',
    viewingReducer now h st action = Some (h', st')
    ∧ wf h' st'
    ∧ state_unique h' st'
    ∧ ∀ f viewer, action = USER_STARTED_VIEWING f viewer →
        (Forall (λ v, id v ≠ id viewer) (getFileViewers h st f) →
         getFileViewers h' st' f = getFileViewers h st f ++ [viewer])
        ∧ (∀ i v, getFileViewers h st f !! i = Some v → id v = id viewer →
           getFileViewers h' st' f = <[i := viewer]> (getFileViewers h st f)).
Proof.
  intros Hwf Hact Hu Hpayload. destruct action as [f a | f viewer | f userId | p | p].
  - simpl in Hact. destruct (lookup_lt_is_Some_2 _ _ Hact) as [vs Hvs].
    destruct (reduce_set now h st f a vs Hwf Hvs) as (h' & st' & Hred & Hwf' & _ & Hview & _).
    exists h', st'. repeat split; try done; try apply Hwf'.
    unfold state_unique. rewrite Hview. apply map_Forall_insert_2; [| done].
    simpl. by eapply Hpayload.
  - destruct (reduce_started now h st f viewer Hwf Hu)
      as (h' & st' & Hred & Hwf' & Hu' & Hget & _).
    exists h', st'. split; [done |]. split; [done |]. split; [done |].
    intros f0 viewer0 [= <- <-]. rewrite Hget. split.
    + apply upsert_absent.
    + intros i v Hi Hid. eapply upsert_present; [| done ..].
      by apply getFileViewers_unique.
  - destruct (reduce_stopped now h st f userId Hwf Hu)
      as (h' & st' & Hred & Hwf' & Hu' & _).
    exists h', st'. repeat split; try done; apply Hwf'.
  - eexists _, _. split; [reflexivity |]. repeat split; try done; apply Hwf.
  - eexists _, _. split; [reflexivity |]. destruct Hwf as [Hc Hs].
    split; [split; [done |] |]; [| split; [| done]].
    + by apply map_Forall_delete.
    + unfold state_unique. rewrite view_delete. by apply map_Forall_delete.
Qed.

Lemma reducer_keeps_unique_ids_witness :
  (wf heap1 state1 ∧ state_unique heap1 state1)
  ∧ ∃ h' st',
      viewingReducer 200 heap1 state1 (USER_STARTED_VIEWING "f1" alice2) = Some (h', st')
      ∧ wf h' st'
      ∧ state_unique h' st'
      ∧ ∀ f viewer, USER_STARTED_VIEWING "f1" alice2 = USER_STARTED_VIEWING f viewer →
          (Forall (λ v, id v ≠ id viewer) (getFileViewers heap1 state1 f) →
           getFileViewers h' st' f = getFileViewers heap1 state1 f ++ [viewer])
          ∧ (∀ i v, getFileViewers heap1 state1 f !! i = Some v → id v = id viewer →
             getFileViewers h' st' f = <[i := viewer]> (getFileViewers heap1 state1 f)).
Proof.
  split; [split; compute_done |].
  apply (reducer_keeps_unique_ids 200 heap1 state1 (USER_STARTED_VIEWING "f1" alice2)).
  - compute_done.
  - exact I.
  - compute_done.
  - intros f a vs Hact. discriminate Hact.
Defined.

(** ** Replaying SET_FILE_VIEWERS *)

(** C7 as it stands fails: the second application stamps the object with the
    instant it runs at. *)
Lemma set_file_viewers_replay_differs :
  ¬ (∀ t1 t2 h st f a h1 st1 h2 st2,
       wf h st → action_closed h (SET_FILE_VIEWERS f a) →
       viewingReducer t1 h st (SET_FILE_VIEWERS f a) = Some (h1, st1) →
       viewingReducer t2 h1 st1 (SET_FILE_VIEWERS f a) = Some (h2, st2) →
       view h2 st2 = view h1 st1).
Proof.
  intros Hclaim.
  assert (Hwf : wf heap1 state1) by compute_done.
  specialize (Hclaim 200%Z 201%Z heap1 state1 "f1" 0 _ _ _ _ Hwf
                ltac:(simpl; lia) eq_refl eq_refl).
  apply (f_equal (λ m, view_lastUpdated <$> m !! "f1")) in Hclaim.
  vm_compute in Hclaim. discriminate Hclaim.
Qed.

(** C7, amended.  Applying the same SET_FILE_VIEWERS action twice gives a
    state that shows, for every file, the same file id and the same viewers
    as applying it once, and the same currently viewed file; the entry of the
    action's file carries the instant of the second application, so the two
    states show exactly the same when both applications read the same
    instant. *)
Theorem set_file_viewers_replay t1 t2 h st f a :
  wf h st → action_closed h (SET_FILE_VIEWERS f a) →
  ∃ h1 st1 h2 st2,
    viewingReducer t1 h st (SET_FILE_VIEWERS f a) = Some (h1, st1)
    ∧ viewingReducer t2 h1 st1 (SET_FILE_VIEWERS f a) = Some (h2, st2)
    ∧ untimed <$> view h2 st2 = untimed <$> view h1 st1
    ∧ currentlyViewing st2 = currentlyViewing st1
    ∧ view_lastUpdated <$> view h2 st2 !! f = Some t2
    ∧ (t2 = t1 → view h2 st2 = view h1 st1).
Proof.
  intros Hwf Hact. simpl in Hact.
  destruct (lookup_lt_is_Some_2 _ _ Hact) as [vs Hvs].
  destruct (reduce_set t1 h st f a vs Hwf Hvs)
    as (h1 & st1 & Hred1 & Hwf1 & [_ [as1 Hext1]] & Hview1 & Hcv1).
  assert (Hvs1 : arrs h1 !! a = Some vs).
  { rewrite Hext1. by apply lookup_app_l_Some. }
  destruct (reduce_set t2 h1 st1 f a vs Hwf1 Hvs1)
    as (h2 & st2 & Hred2 & _ & _ & Hview2 & Hcv2).
  exists h1, st1, h2, st2. split; [done |]. split; [done |].
  rewrite Hview2, Hview1. split; [| split; [done |]; split].
  - by rewrite !fmap_insert, insert_insert_eq.
  - by rewrite lookup_insert_eq.
  - intros ->. by rewrite insert_insert_eq.
Qed.

Lemma set_file_viewers_replay_witness :
  (wf heap1 state1 ∧ action_closed heap1 (SET_FILE_VIEWERS "f1" 0))
  ∧ ∃ h1 st1 h2 st2,
      viewingReducer 200 heap1 state1 (SET_FILE_VIEWERS "f1" 0) = Some (h1, st1)
      ∧ viewingReducer 201 h1 st1 (SET_FILE_VIEWERS "f1" 0) = Some (h2, st2)
      ∧ untimed <$> view h2 st2 = untimed <$> view h1 st1
      ∧ currentlyViewing st2 = currentlyViewing st1
      ∧ view_lastUpdated <$> view h2 st2 !! "f1" = Some 201%Z
      ∧ (201%Z = 200%Z → view h2 st2 = view h1 st1).
Proof.
  split; [split; [compute_done | simpl; lia] |].
  apply (set_file_viewers_replay 200 201 heap1 state1 "f1" 0).
  - compute_done.
  - simpl. lia.
Defined.

End ViewingProofs.

(** * Properties of the socket service *)

Module SocketProofs.

Import Socket.

(** ** The listener registry *)

Lemma indexOf_remove_first (cb : nat) (l : list nat) :
  match indexOf cb l with
  | Some i => splice1 i l = remove_first cb l
  | None => remove_first cb l = l
  end.
Proof.
  unfold indexOf. induction l as [|x l IH]; simpl; [done |].
  case_bool_decide as Hx; simpl.
  - rewrite decide_True by done. unfold splice1. simpl. by rewrite drop_0.
  - rewrite decide_False by done.
    destruct (findIndex (λ y, bool_decide (y = cb)) l) as [i|]; simpl.
    + unfold splice1 in *. simpl. by rewrite IH.
    + by rewrite IH.
Qed.

Lemma registered_on ev cb s e :
  registered (on ev cb s) e
  = if decide (ev = e) then registered s e ++ [cb] else registered s e.
Proof.
  unfold registered, on. simpl. case_bool_decide as Hsome.
  - destruct Hsome as [l Hl]. rewrite lookup_alter. case_decide as He.
    + subst. by rewrite Hl.
    + done.
  - apply eq_None_not_Some in Hsome. rewrite lookup_alter.
    case_decide as He.
    + subst. by rewrite lookup_insert_eq, Hsome.
    + by rewrite lookup_insert_ne.
Qed.

Lemma registered_off ev cb s e :
  registered (off ev cb s) e
  = if decide (ev = e) then remove_first cb (registered s e) else registered s e.
Proof.
  unfold registered, off.
  destruct (listeners s !! ev) as [l|] eqn:Hl.
  - pose proof (indexOf_remove_first cb l) as Hix.
    destruct (indexOf cb l) as [i|]; simpl.
    + rewrite lookup_insert. case_decide as He; subst.
      * rewrite Hl. simpl. by rewrite Hix.
      * done.
    + case_decide as He; subst; [| done]. rewrite Hl. simpl. by rewrite Hix.
  - case_decide as He; subst; [| done]. by rewrite Hl.
Qed.

Lemma registered_run_op s op e :
  registered (run_op s op) e = spec_op e (registered s e) op.
Proof.
  destruct op as [ev cb | ev cb]; simpl.
  - apply registered_on.
  - apply registered_off.
Qed.

Lemma registered_foldl_run_op ops s e :
  registered (foldl run_op s ops) e = foldl (spec_op e) (registered s e) ops.
Proof.
  revert s. induction ops as [|op ops IH]; intros s; simpl; [done |].
  by rewrite IH, registered_run_op.
Qed.

(** [on] and [off] change nothing but the registry. *)
Lemma run_op_frame s op :
  socket (run_op s op) = socket s
  ∧ isConnected (run_op s op) = isConnected s
  ∧ connectionAttempts (run_op s op) = connectionAttempts s
  ∧ isConnecting (run_op s op) = isConnecting s.
Proof.
  destruct op as [ev cb | ev cb]; simpl; [done |].
  unfold off. destruct (listeners s !! ev) as [l|]; [| done].
  by destruct (indexOf cb l).
Qed.



(** ** Dispatch *)

Section Dispatch.

Variable behaviour : nat → Value → CbRun.

(** One position of the loop, with and without the failures. *)
Lemma call_listener_isolated ev d s w w0 k :
  agree w w0 →
  ∃ s' w' w0' errs new,
    call_listener behaviour ev d (s, w) k = (s', w')
    ∧ call_listener (never_throws behaviour) ev d (s, w0) k = (s', w0')
    ∧ agree w' w0'
    ∧ console w0' = console w0
    ∧ console w' = console w ++ errs
    ∧ calls w' = calls w ++ new
    ∧ Forall (is_listener_error ev) errs
    ∧ length errs = length (filter (throws behaviour) new).
Proof.
  intros (Hs & Ht & Hti & Hc). unfold call_listener.
  destruct (listeners s !! ev ≫= (λ callbacks, callbacks !! k)) as [cb|].
  - simpl. destruct (cb_throws (behaviour cb d)) eqn:Hthrow.
    + eexists _, _, _, [ErrorInListener (k + 1) ev], [(cb, d)].
      split; [reflexivity |]. split; [reflexivity |].
      split; [by repeat split; simpl; try congruence |].
      split; [done |]. split; [done |]. split; [done |].
      split; [repeat constructor; by eexists |].
      rewrite filter_cons_True by done. done.
    + eexists _, _, _, [], [(cb, d)].
      split; [reflexivity |]. split; [reflexivity |].
      split; [by repeat split; simpl; try congruence |].
      split; [done |]. split; [by rewrite app_nil_r |]. split; [done |].
      split; [constructor |].
      rewrite filter_cons_False; [done |]. unfold throws. simpl. by rewrite Hthrow.
  - exists s, w, w0, [], []. rewrite !app_nil_r. repeat split; done.
Qed.

Lemma foldl_call_listener_isolated ev d ks s w w0 :
  agree w w0 →
  ∃ s' w' w0' errs new,
    foldl (call_listener behaviour ev d) (s, w) ks = (s', w')
    ∧ foldl (call_listener (never_throws behaviour) ev d) (s, w0) ks = (s', w0')
    ∧ agree w' w0'
    ∧ console w0' = console w0
    ∧ console w' = console w ++ errs
    ∧ calls w' = calls w ++ new
    ∧ Forall (is_listener_error ev) errs
    ∧ length errs = length (filter (throws behaviour) new).
Proof.
  revert s w w0. induction ks as [|k ks IH]; intros s w w0 Hag; cbn [foldl].
  - exists s, w, w0, [], []. rewrite !app_nil_r. repeat split; done || apply Hag.
  - destruct (call_listener_isolated ev d s w w0 k Hag)
      as (s1 & w1 & w01 & e1 & n1 & -> & -> & Hag1 & Hc01 & Hc1 & Hn1 & He1 & Hl1).
    destruct (IH s1 w1 w01 Hag1)
      as (s2 & w2 & w02 & e2 & n2 & -> & -> & Hag2 & Hc02 & Hc2 & Hn2 & He2 & Hl2).
    exists s2, w2, w02, (e1 ++ e2), (n1 ++ n2).
    split; [done |]. split; [done |]. split; [done |].
    split; [congruence |].
    split; [by rewrite Hc2, Hc1, app_assoc |].
    split; [by rewrite Hn2, Hn1, app_assoc |].
    split; [by apply Forall_app |].
    rewrite filter_app, !length_app. lia.
Qed.




(** A callback that unsubscribes none of the callbacks the loop began with
    leaves them in their places: what it subscribes comes after them. *)
Lemma remove_first_app_absent (cb : nat) (l ext : list nat) :
  cb ∉ l → remove_first cb (l ++ ext) = l ++ remove_first cb ext.
Proof.
  induction l as [|x l IH]; simpl; intros Hnot; [done |].
  apply not_elem_of_cons in Hnot as [Hne Hnot].
  rewrite decide_False by done. by rewrite IH.
Qed.

Lemma foldl_spec_op_spares ev cbs ops : ∀ ext,
  Forall (λ op, match op with
                | CallOff e x => e = ev → x ∉ cbs
                | CallOn _ _ => True
                end) ops →
  ∃ ext', foldl (spec_op ev) (cbs ++ ext) ops = cbs ++ ext'.
Proof.
  induction ops as [|op ops IH]; intros ext Hall; cbn [foldl].
  - by exists ext.
  - inversion Hall as [|? ? Hop Hops]; subst.
    destruct op as [e x | e x]; cbn [spec_op]; case_decide as He.
    + rewrite <- app_assoc. by apply IH.
    + by apply IH.
    + rewrite remove_first_app_absent by auto. by apply IH.
    + by apply IH.
Qed.

Lemma call_listener_spares ev d s w cbs ext k cb :
  registered s ev = cbs ++ ext → cbs !! k = Some cb →
  Forall (λ op, match op with
                | CallOff e x => e = ev → x ∉ cbs
                | CallOn _ _ => True
                end) (cb_ops (behaviour cb d)) →
  ∃ s' w' ext',
    call_listener behaviour ev d (s, w) k = (s', w')
    ∧ registered s' ev = cbs ++ ext'
    ∧ calls w' = calls w ++ [(cb, d)].
Proof.
  intros Hreg Hk Hsp.
  assert (Hl : listeners s !! ev = Some (cbs ++ ext)).
  { unfold registered in Hreg. destruct (listeners s !! ev) as [l|]; simpl in Hreg.
    - by subst.
    - destruct cbs; [done | discriminate Hreg]. }
  destruct (foldl_spec_op_spares ev cbs (cb_ops (behaviour cb d)) ext Hsp)
    as [ext' Hext'].
  unfold call_listener. rewrite Hl. simpl.
  rewrite (lookup_app_l_Some _ _ _ _ Hk).
  destruct (cb_throws (behaviour cb d)); eexists _, _, ext';
    (split; [reflexivity |]); (split; [| done]);
    by rewrite registered_foldl_run_op, Hreg.
Qed.

Lemma foldl_call_listener_spares ev d cbs n : ∀ k s w ext,
  registered s ev = cbs ++ ext → spares behaviour ev d cbs →
  k + n ≤ length cbs →
  ∃ s' w' ext',
    foldl (call_listener behaviour ev d) (s, w) (seq k n) = (s', w')
    ∧ registered s' ev = cbs ++ ext'
    ∧ calls w' = calls w ++ ((λ cb, (cb, d)) <$> take n (drop k cbs)).
Proof.
  induction n as [|n IH]; intros k s w ext Hreg Hsp Hlen; cbn [foldl seq].
  - exists s, w, ext. by rewrite take_0, app_nil_r.
  - destruct (lookup_lt_is_Some_2 cbs k) as [cb Hk]; [lia |].
    destruct (call_listener_spares ev d s w cbs ext k cb Hreg Hk)
      as (s1 & w1 & ext1 & -> & Hreg1 & Hc1).
    { eapply Forall_lookup_1 in Hsp; [exact Hsp | exact Hk]. }
    destruct (IH (S k) s1 w1 ext1 Hreg1 Hsp) as (s2 & w2 & ext2 & -> & Hreg2 & Hc2);
      [lia |].
    exists s2, w2, ext2. split; [done |]. split; [done |].
    rewrite Hc2, Hc1, <- app_assoc. f_equal.
    rewrite (drop_S cbs cb k Hk). done.
Qed.

Lemma triggerEvent_isolated ev d s w :
  let r := triggerEvent behaviour ev d (s, w) in
  let r0 := triggerEvent (never_throws behaviour) ev d (s, w) in
  r.1 = r0.1
  ∧ agree r.2 r0.2
  ∧ ∃ errs new,
      console r.2 = console r0.2 ++ errs
      ∧ calls r.2 = calls w ++ new
      ∧ Forall (is_listener_error ev) errs
      ∧ length errs = length (filter (throws behaviour) new).
Proof.
  intros r r0. unfold r, r0, triggerEvent.
  destruct (listeners s !! ev) as [cbs|]; [case_bool_decide |].
  - destruct (foldl_call_listener_isolated ev d (seq 0 (length cbs)) s w w)
      as (s' & w' & w0' & errs & new & -> & -> & Hag & Hc0 & Hc & Hn & He & Hl);
      [done |].
    cbn [fst snd]. split; [done |]. split; [done |].
    exists errs, new. by rewrite Hc0.
  - cbn [fst snd]. split; [done |]. split; [done |].
    exists [], []. by rewrite !app_nil_r.
  - cbn [fst snd]. split; [done |]. split; [done |].
    exists [], []. by rewrite !app_nil_r.
Qed.

Lemma filter_throws_calls (d : Value) (cbs : list nat) :
  length (filter (throws behaviour) ((λ cb, (cb, d)) <$> cbs))
  = length (filter (λ cb, cb_throws (behaviour cb d) = true) cbs).
Proof.
  induction cbs as [|cb l IH]; [done |].
  rewrite fmap_cons. destruct (cb_throws (behaviour cb d)) eqn:Hth.
  - rewrite !filter_cons_True by done. simpl. by rewrite IH.
  - rewrite !filter_cons_False; [done | | ]; unfold throws; simpl; congruence.
Qed.

Lemma triggerEvent_spares ev d s w :
  spares behaviour ev d (registered s ev) →
  ∃ s' w' ext,
    triggerEvent behaviour ev d (s, w) = (s', w')
    ∧ registered s' ev = registered s ev ++ ext
    ∧ calls w' = calls w ++ ((λ cb, (cb, d)) <$> registered s ev).
Proof.
  intros Hsp. unfold triggerEvent.
  destruct (listeners s !! ev) as [cbs|] eqn:Hl.
  - assert (Hreg : registered s ev = cbs) by (unfold registered; by rewrite Hl).
    rewrite Hreg in *. case_bool_decide as Hlen.
    + destruct (foldl_call_listener_spares ev d cbs (length cbs) 0 s w [])
        as (s' & w' & ext & -> & Hreg' & Hc'); [by rewrite app_nil_r | done | lia |].
      exists s', w', ext. split; [done |]. split; [done |].
      by rewrite Hc', drop_0, firstn_all.
    + eexists _, _, []. split; [reflexivity |]. rewrite app_nil_r.
      split; [done |].
      destruct cbs; [by rewrite app_nil_r | simpl in Hlen; lia].
  - assert (Hreg : registered s ev = []) by (unfold registered; by rewrite Hl).
    rewrite Hreg. eexists _, _, []. split; [reflexivity |].
    split; [done |]. by rewrite app_nil_r.
Qed.

End Dispatch.

Import Samples.

Lemma remove_first_absent (cb : nat) (l : list nat) :
  cb ∉ l → remove_first cb l = l.
Proof.
  induction l as [|x l IH]; simpl; [done |]. intros Hnot.
  apply not_elem_of_cons in Hnot as [Hne Hnot].
  rewrite decide_False by done. by rewrite IH.
Qed.


(** C4.  [on] and [off] are as claimed: after any sequence of calls the
    list of a class is what appending at the end (no deduplication) and
    removing the first occurrence (nothing when absent) give.  The dispatch
    is not: [triggerEvent] walks, with [forEach], the very array that [off]
    splices.  With callbacks 1 and 2 registered in this order, callback 1
    unsubscribing itself when it is called, a dispatch calls callback 1 and
    ends; callback 2, registered before, during and after the dispatch, is
    never called.  A dispatch in which no callback unsubscribes a callback
    that was registered when the dispatch began does call each of those
    once per registration, in registration order, and keeps them at the
    head of the list. *)
Theorem dispatch_walks_live_array :
  (∀ s ops ev,
     registered (foldl run_op s ops) ev = foldl (spec_op ev) (registered s ev) ops)
  ∧ (let ev := "file-viewers-updated" in
     let r := triggerEvent one_shot ev Undefined (two_listeners, newWorld) in
     registered two_listeners ev = [1; 2]
     ∧ cb_ops (one_shot 1 Undefined) = [CallOff ev 1]
     ∧ cb_ops (one_shot 2 Undefined) = []
     ∧ calls r.2 = [(1, Undefined)]
     ∧ registered r.1 ev = [2]
     ∧ console r.2 = [])
  ∧ (∀ behaviour ev d s w,
       spares behaviour ev d (registered s ev) →
       let r := triggerEvent behaviour ev d (s, w) in
       calls r.2 = calls w ++ ((λ cb, (cb, d)) <$> registered s ev)
       ∧ ∃ ext, registered r.1 ev = registered s ev ++ ext).
Proof.
  split; [intros s ops ev; apply registered_foldl_run_op |].
  split; [repeat (split; [vm_compute; reflexivity |]); vm_compute; reflexivity |].
  intros behaviour ev d s w Hsp r. unfold r.
  destruct (triggerEvent_spares behaviour ev d s w Hsp)
    as (s' & w' & ext & -> & Hreg & Hcalls).
  split; [done |]. by exists ext.
Qed.

(** The callbacks of [busy] subscribe and unsubscribe during the dispatch
    and still spare each other. *)
Example busy_dispatch :
  let ev := "file-viewers-updated" in
  let r := triggerEvent busy ev Undefined (two_listeners, newWorld) in
  spares busy ev Undefined (registered two_listeners ev)
  ∧ ¬ quiet_for busy ev Undefined (registered two_listeners ev)
  ∧ calls r.2 = [(1, Undefined); (2, Undefined)]
  ∧ registered r.1 ev = [1; 2; 3].
Proof.
  split; [compute_done |]. split; [compute_done |].
  split; vm_compute; reflexivity.
Qed.

(** C5.  The failure of a callback is reported and changes nothing else, for
    every dispatch: it ends in the same service state (registry included),
    has called the same callbacks in the same order and leaves the same
    sockets, toasts and timers as the dispatch in which no callback throws,
    and the console holds, in addition, one listener error of the class per
    call that threw.  That every remaining callback runs does not hold: with
    callbacks 1 and 2 registered, callback 1 unsubscribing itself and then
    throwing, the error of callback 1 is logged and the loop ends; callback
    2 is still registered and was not called.  The remaining callbacks are
    all called, whichever callbacks throw, in every dispatch in which no
    callback unsubscribes a callback registered when the dispatch began. *)
Theorem dispatch_isolates_failures :
  (∀ (behaviour : nat → Value → CbRun) ev d s w,
     let r := triggerEvent behaviour ev d (s, w) in
     let r0 := triggerEvent (never_throws behaviour) ev d (s, w) in
     r.1 = r0.1
     ∧ agree r.2 r0.2
     ∧ ∃ errs new,
         console r.2 = console r0.2 ++ errs
         ∧ calls r.2 = calls w ++ new
         ∧ Forall (is_listener_error ev) errs
         ∧ length errs = length (filter (throws behaviour) new))
  ∧ (let ev := "file-viewers-updated" in
     let r := triggerEvent one_shot_throws ev Undefined (two_listeners, newWorld) in
     registered two_listeners ev = [1; 2]
     ∧ one_shot_throws 1 Undefined = mkCbRun [CallOff ev 1] true
     ∧ one_shot_throws 2 Undefined = mkCbRun [] false
     ∧ calls r.2 = [(1, Undefined)]
     ∧ console r.2 = [ErrorInListener 1 ev]
     ∧ registered r.1 ev = [2])
  ∧ (∀ (behaviour : nat → Value → CbRun) ev d s w,
       spares behaviour ev d (registered s ev) →
       let r := triggerEvent behaviour ev d (s, w) in
       let r0 := triggerEvent (never_throws behaviour) ev d (s, w) in
       calls r.2 = calls w ++ ((λ cb, (cb, d)) <$> registered s ev)
       ∧ (∃ errs,
            console r.2 = console r0.2 ++ errs
            ∧ Forall (is_listener_error ev) errs
            ∧ length errs
              = length (filter (λ cb, cb_throws (behaviour cb d) = true)
                          (registered s ev)))
       ∧ ∃ ext, registered r.1 ev = registered s ev ++ ext).
Proof.
  split; [exact triggerEvent_isolated |].
  split; [repeat (split; [vm_compute; reflexivity |]); vm_compute; reflexivity |].
  intros behaviour ev d s w Hsp r r0.
  destruct (triggerEvent_isolated behaviour ev d s w)
    as (_ & _ & errs & new & Hcons & Hnew & Herrs & Hlen).
  fold r r0 in Hcons, Hnew. revert Hcons Hnew. unfold r.
  destruct (triggerEvent_spares behaviour ev d s w Hsp)
    as (s' & w' & ext & -> & Hreg & Hcalls).
  cbn [fst snd]. intros Hcons Hnew.
  split; [done |]. split; [| by exists ext].
  rewrite Hcalls in Hnew. apply app_inv_head in Hnew. subst new.
  exists errs. split; [done |]. split; [done |].
  by rewrite Hlen, filter_throws_calls.
Qed.

Example faulty_dispatch :
  let r := triggerEvent faulty "file-viewers-updated" Undefined (two_listeners, newWorld) in
  calls r.2 = [(1, Undefined); (2, Undefined)]
  ∧ console r.2 = [ErrorInListener 1 "file-viewers-updated"]
  ∧ r.1 = two_listeners.
Proof. repeat split; reflexivity. Qed.

(** ** Outbound actions without a connection *)

(** C6.  When [this.socket?.connected] is not true, [startViewingFile],
    [stopViewingFile] and [emit] write one warning to the console, after
    what the console held, and do nothing else: the service object is the
    same, and so is every socket (no packet is sent or kept), the timers
    (nothing is scheduled), the toasts and the callbacks called. *)
Theorem outbound_dropped_when_not_connected f ev d s w :
  socket_connected s w = false →
  startViewingFile f (s, w)
  = (s, mkWorld (socks w) (toasts w) (console w ++ [WarnCannotStartViewing])
                (timers w) (calls w))
  ∧ stopViewingFile f (s, w)
    = (s, mkWorld (socks w) (toasts w) (console w ++ [WarnCannotStopViewing])
                  (timers w) (calls w))
  ∧ emit ev d (s, w)
    = (s, mkWorld (socks w) (toasts w) (console w ++ [WarnCannotEmit ev])
                  (timers w) (calls w)).
Proof.
  intros Hnc. unfold startViewingFile, stopViewingFile, emit. rewrite Hnc.
  repeat split; reflexivity.
Qed.

Example dialing_reached :
  connect "tok" (newService, newWorld) = (dialing_service, dialing_world).
Proof. vm_compute. reflexivity. Qed.

Lemma outbound_dropped_when_not_connected_witness :
  socket_connected dialing_service dialing_world = false
  ∧ startViewingFile "f1" (dialing_service, dialing_world)
    = (dialing_service,
       mkWorld (socks dialing_world) [] [WarnCannotStartViewing] [] [])
  ∧ stopViewingFile "f1" (dialing_service, dialing_world)
    = (dialing_service,
       mkWorld (socks dialing_world) [] [WarnCannotStopViewing] [] [])
  ∧ emit "start-editing-file" (Obj [("fileId", Str "f1")]) (dialing_service, dialing_world)
    = (dialing_service,
       mkWorld (socks dialing_world) [] [WarnCannotEmit "start-editing-file"] [] []).
Proof.
  split; [reflexivity |].
  exact (outbound_dropped_when_not_connected "f1" "start-editing-file"
           (Obj [("fileId", Str "f1")]) dialing_service dialing_world eq_refl).
Defined.

(** ** Sockets *)

Lemma world_eta w :
  mkWorld (socks w) (toasts w) (console w) (timers w) (calls w) = w.
Proof. by destruct w. Qed.

Lemma update_sock_spec i f w k :
  socks w !! i = Some k →
  update_sock i f w
  = mkWorld (<[i := f k]> (socks w)) (toasts w) (console w) (timers w) (calls w).
Proof.
  intros Hk. unfold update_sock, with_socks. f_equal.
  apply list_eq. intros j. destruct (decide (j = i)) as [-> | Hne].
  - rewrite list_lookup_alter_eq, Hk, list_lookup_insert_eq; [done |].
    by eapply lookup_lt_Some.
  - by rewrite list_lookup_alter_ne, list_lookup_insert_ne.
Qed.

Lemma update_sock_missing i f w :
  socks w !! i = None → update_sock i f w = w.
Proof.
  intros Hk. unfold update_sock, with_socks.
  assert (alter f i (socks w) = socks w) as ->; [| apply world_eta].
  apply list_eq. intros j. destruct (decide (j = i)) as [-> | Hne].
  - by rewrite list_lookup_alter_eq, Hk.
  - by rewrite list_lookup_alter_ne.
Qed.

(** Registering a batch of closures on socket [i]. *)
Lemma foldl_sock_on i (regs : list WireEvent) : ∀ w k,
  socks w !! i = Some k →
  foldl (λ w e, sock_on i (wire_name e) (OnWire e) w) w regs
  = mkWorld (<[i := mkSock (sock_token k) (sock_connected k) (sock_closed k)
                      (handlers k ++ ((λ e, (wire_name e, OnWire e)) <$> regs))
                      (sent k)]> (socks w))
            (toasts w) (console w) (timers w) (calls w).
Proof.
  induction regs as [|e regs IH]; intros w k Hk; simpl.
  - rewrite app_nil_r. rewrite list_insert_id; [apply eq_sym, world_eta |].
    rewrite Hk. by destruct k.
  - unfold sock_on at 2. rewrite (update_sock_spec _ _ _ _ Hk).
    erewrite IH.
    2: { simpl. apply list_lookup_insert_eq. by eapply lookup_lt_Some. }
    simpl. by rewrite list_insert_insert_eq, <- app_assoc.
Qed.

Lemma setupEventListeners_spec s w i k :
  socket s = Some i → socks w !! i = Some k →
  setupEventListeners (s, w)
  = (s, mkWorld (<[i := mkSock (sock_token k) (sock_connected k) (sock_closed k)
                         (handlers k ++ wire_regs) (sent k)]> (socks w))
                (toasts w) (console w) (timers w) (calls w)).
Proof.
  intros Hs Hk. unfold setupEventListeners. rewrite Hs.
  by rewrite (foldl_sock_on i wire_events w k Hk).
Qed.

Lemma alter_last {A} (f : A → A) (l : list A) (x : A) :
  alter f (length l) (l ++ [x]) = l ++ [f x].
Proof.
  apply list_eq. intros j. destruct (decide (j = length l)) as [-> | Hne].
  - by rewrite list_lookup_alter_eq, !list_lookup_middle.
  - rewrite list_lookup_alter_ne by done.
    destruct (decide (j < length l)).
    + by rewrite !lookup_app_l.
    + rewrite !lookup_ge_None_2; [done | |]; rewrite length_app; simpl; lia.
Qed.

(** [connect] when neither a connection attempt is pending nor the current
    socket is connected: one more socket, carrying the life-cycle closures and
    one round of wire closures. *)
Lemma sock_on_last l tk cn cl hs sn name h t c ti ca :
  sock_on (length l) name h (mkWorld (l ++ [mkSock tk cn cl hs sn]) t c ti ca)
  = mkWorld (l ++ [mkSock tk cn cl (hs ++ [(name, h)]) sn]) t c ti ca.
Proof.
  unfold sock_on, update_sock, with_socks. cbn [socks toasts console timers calls].
  by rewrite alter_last.
Qed.

Lemma connect_fresh tok s w :
  isConnecting s = false → socket_connected s w = false →
  connect tok (s, w)
  = (mkService (Some (length (socks w))) (isConnected s) (listeners s)
               (connectionAttempts s) true,
     mkWorld (socks w ++ [mkSock tok false false (lifecycle_regs ++ wire_regs) []])
             (toasts w) (console w) (timers w) (calls w)).
Proof.
  intros Hc Hsc. unfold connect. rewrite Hc, Hsc. cbn [orb].
  unfold io, with_socks. cbn [socks toasts console timers calls].
  rewrite !sock_on_last.
  unfold setupEventListeners, with_socket, with_isConnecting.
  cbn [socket isConnected listeners connectionAttempts isConnecting].
  unfold wire_events. cbn [foldl]. rewrite !sock_on_last.
  reflexivity.
Qed.

(** A pending attempt or a connected current socket makes [connect] return
    at once, without creating a socket. *)
Lemma connect_noop_when_busy tok s w :
  isConnecting s = true ∨ socket_connected s w = true →
  connect tok (s, w) = (s, w).
Proof.
  intros Hbusy. unfold connect.
  assert (isConnecting s || socket_connected s w = true) as ->; [| done].
  destruct Hbusy as [-> | ->]; [done | apply orb_true_r].
Qed.

Lemma connect_listeners tok st :
  listeners (connect tok st).1 = listeners st.1.
Proof.
  destruct st as [s w]. unfold connect.
  destruct (isConnecting s || socket_connected s w); [done |].
  unfold setupEventListeners, io. cbn [socket with_socket]. reflexivity.
Qed.

(** ** Handlers on a socket across reconnections *)

Lemma filter_concat_replicate {A} (P : A → Prop) `{∀ x, Decision (P x)}
    (m : nat) (l : list A) :
  filter P (concat (replicate m l)) = concat (replicate m (filter P l)).
Proof.
  induction m as [|m IH]; simpl; [done |]. by rewrite filter_app, IH.
Qed.

Lemma concat_replicate_nil {A} (m : nat) : concat (replicate m (@nil A)) = [].
Proof. induction m as [|m IH]; simpl; done. Qed.


Lemma concat_replicate_S_end {A} (m : nat) (l : list A) :
  concat (replicate m l) ++ l = concat (replicate (S m) l).
Proof.
  induction m as [|m IH]; simpl; [by rewrite app_nil_r |].
  by rewrite <- app_assoc, IH.
Qed.


Lemma handlers_for_lifecycle k m name h :
  (name, h) ∈ lifecycle_regs →
  handlers k = lifecycle_regs ++ concat (replicate m wire_regs) →
  handlers_for name k = [h].
Proof.
  intros Hin Hk. unfold handlers_for. rewrite Hk, filter_app, filter_concat_replicate.
  unfold lifecycle_regs in Hin. rewrite !elem_of_cons in Hin.
  destruct Hin as [[= -> ->] | [[= -> ->] | [[= -> ->] | [[= -> ->] | [[= -> ->] | Hin]]]]];
    [| | | | | by apply elem_of_nil in Hin];
    (assert (filter (λ p : string * Handler, p.1 = _) wire_regs = []) as -> by done);
    by rewrite concat_replicate_nil.
Qed.


Section Transport.

Variable behaviour : nat → Value → CbRun.

Lemma deliver_spec i name arg s w k :
  socks w !! i = Some k →
  deliver behaviour i name arg (s, w)
  = run_handlers behaviour arg (s, w) (handlers_for name k).
Proof. intros Hk. unfold deliver. cbn [fst snd]. by rewrite Hk. Qed.






Lemma sock_open_spec i w k :
  socks w !! i = Some k → sock_open i w = negb (sock_closed k).
Proof. intros Hk. unfold sock_open. by rewrite Hk. Qed.

Lemma insert_lookup_same i (k k' : Sock) (l : list Sock) :
  l !! i = Some k → <[i := k']> l !! i = Some k'.
Proof. intros Hk. apply list_lookup_insert_eq. by eapply lookup_lt_Some. Qed.

(** ['connect'] reported on the current socket, which carries [m] rounds of
    wire closures. *)
Lemma transport_connect_spec i m s w k :
  socket s = Some i → socks w !! i = Some k → sock_closed k = false →
  handlers k = lifecycle_regs ++ concat (replicate m wire_regs) →
  transport_connect behaviour i (s, w)
  = (mkService (Some i) true (listeners s) 0 false,
     mkWorld (<[i := mkSock (sock_token k) true false
                       (lifecycle_regs ++ concat (replicate (S m) wire_regs))
                       (sent k)]> (socks w))
             (toasts w ++ [ToastConnected]) (console w) (timers w) (calls w)).
Proof.
  intros Hs Hk Hcl Hh. unfold transport_connect. cbn [fst snd].
  rewrite (sock_open_spec i w k Hk), Hcl. cbn [negb].
  unfold on_world, sock_set_connected. cbn [fst snd].
  rewrite (update_sock_spec _ _ _ _ Hk).
  erewrite deliver_spec; [| cbn [socks]; by eapply insert_lookup_same].
  unfold handlers_for at 1. cbn [handlers].
  fold (handlers_for "connect" k).
  rewrite (handlers_for_lifecycle k m "connect" OnConnect); [| by left | done].
  cbn [run_handlers handler_throws run_handler fst snd].
  unfold reregisterListeners, with_connectionAttempts, with_isConnecting,
    with_isConnected.
  cbn [socket isConnected listeners connectionAttempts isConnecting].
  rewrite Hs.
  erewrite setupEventListeners_spec; [| done |].
  2: { unfold toast. cbn [socks]. by eapply insert_lookup_same. }
  unfold toast. cbn [socks toasts console timers calls sock_token sock_connected
                     sock_closed handlers sent].
  rewrite list_insert_insert_eq, Hcl, Hh, <- app_assoc, concat_replicate_S_end.
  reflexivity.
Qed.

Lemma transport_disconnect_spec i m reason s w k :
  socket s = Some i → socks w !! i = Some k → sock_closed k = false →
  handlers k = lifecycle_regs ++ concat (replicate m wire_regs) →
  transport_disconnect behaviour i reason (s, w)
  = (mkService (Some i) false (listeners s) (connectionAttempts s) false,
     mkWorld (<[i := mkSock (sock_token k) false false (handlers k) (sent k)]> (socks w))
             (if bool_decide (reason = "io client disconnect")
              then toasts w else toasts w ++ [ToastDisconnected])
             (console w) (timers w) (calls w)).
Proof.
  intros Hs Hk Hcl Hh. unfold transport_disconnect. cbn [fst snd].
  rewrite (sock_open_spec i w k Hk), Hcl. cbn [negb].
  unfold on_world, sock_set_connected. cbn [fst snd].
  rewrite (update_sock_spec _ _ _ _ Hk).
  erewrite deliver_spec; [| cbn [socks]; by eapply insert_lookup_same].
  unfold handlers_for at 1. cbn [handlers].
  fold (handlers_for "disconnect" k).
  rewrite (handlers_for_lifecycle k m "disconnect" OnDisconnect);
    [| right; by left | done].
  cbn [run_handlers handler_throws run_handler fst snd is_client_disconnect].
  unfold with_isConnecting, with_isConnected, toast.
  cbn [socket isConnected listeners connectionAttempts isConnecting
       socks toasts console timers calls].
  rewrite Hs, Hcl. by destruct (bool_decide (reason = "io client disconnect")).
Qed.





(** [disconnect()] on a service that holds a socket. *)
Lemma disconnect_spec s w i k :
  socket s = Some i → socks w !! i = Some k →
  disconnect behaviour (s, w)
  = (mkService None false ∅ (connectionAttempts s) false,
     mkWorld (<[i := mkSock (sock_token k) false true [] (sent k)]> (socks w))
             (toasts w) (console w) (timers w) (calls w)).
Proof.
  intros Hs Hk. unfold disconnect. rewrite Hs.
  unfold sock_removeAllListeners. rewrite (update_sock_spec _ _ _ _ Hk).
  set (k1 := mkSock (sock_token k) (sock_connected k) (sock_closed k) [] (sent k)).
  set (w1 := mkWorld (<[i := k1]> (socks w)) (toasts w) (console w) (timers w) (calls w)).
  assert (Hk1 : socks w1 !! i = Some k1) by (by eapply insert_lookup_same).
  unfold sock_disconnect. cbn [fst snd]. rewrite Hk1.
  unfold on_world, sock_set_closed. cbn [fst snd].
  rewrite (update_sock_spec _ _ _ _ Hk1).
  unfold w1, k1. cbn [socks toasts console timers calls sock_token sock_connected
                      sock_closed handlers sent].
  rewrite list_insert_insert_eq.
  unfold with_isConnecting, with_isConnected, with_listeners, with_socket.
  cbn [socket isConnected listeners connectionAttempts isConnecting].
  destruct (sock_connected k) eqn:Hconn.
  - unfold sock_set_connected.
    erewrite update_sock_spec; [| cbn [socks]; by eapply insert_lookup_same].
    cbn [socks toasts console timers calls sock_token sock_connected
         sock_closed handlers sent].
    rewrite list_insert_insert_eq.
    erewrite deliver_spec; [| cbn [socks]; by eapply insert_lookup_same].
    unfold handlers_for. cbn [handlers]. rewrite filter_nil.
    cbn [fmap list_fmap foldl].
    cbn [socket isConnected listeners connectionAttempts isConnecting].
    reflexivity.
  - cbn [socket isConnected listeners connectionAttempts isConnecting].
    reflexivity.
Qed.

Lemma disconnect_without_socket s w :
  socket s = None → disconnect behaviour (s, w) = (s, w).
Proof. intros Hs. unfold disconnect. by rewrite Hs. Qed.

End Transport.

(** ** What every history keeps true *)

Lemma steady_refl st : steady st st.
Proof. by repeat split. Qed.

Lemma steady_trans st1 st2 st3 : steady st1 st2 → steady st2 st3 → steady st1 st3.
Proof.
  intros (Hs1 & Hc1 & Hl1) (Hs2 & Hc2 & Hl2). split; [congruence |].
  split; [tauto | lia].
Qed.

Lemma steady_coherent st st' : steady st st' → coherent st → coherent st'.
Proof.
  intros (Hs & Hc & Hl) [Hnone Hsome]. split.
  - rewrite Hs. intros Hn. destruct (isConnecting st'.1) eqn:E; [| done].
    rewrite <- (Hnone Hn). symmetry. by apply Hc.
  - rewrite Hs. intros i Hi. specialize (Hsome i Hi). lia.
Qed.

Lemma steady_foldl {A} (f : Service * World → A → Service * World) (l : list A) st :
  (∀ st x, steady st (f st x)) → steady st (foldl f st l).
Proof.
  intros Hf. revert st. induction l as [|x l IH]; intros st; cbn [foldl].
  - apply steady_refl.
  - eapply steady_trans; [apply Hf | apply IH].
Qed.

(** Steps that touch the world only, and keep every socket. *)
Lemma steady_world s w w' :
  length (socks w) ≤ length (socks w') → steady (s, w) (s, w').
Proof. intros Hl. by repeat split. Qed.

Lemma length_update_sock i f w : length (socks (update_sock i f w)) = length (socks w).
Proof. unfold update_sock, with_socks. cbn [socks]. apply length_alter. Qed.

Lemma steady_run_op st op : steady st (on_service (λ s, run_op s op) st).
Proof.
  destruct st as [s w]. unfold on_service. cbn [fst snd].
  destruct (run_op_frame s op) as (Hs & _ & _ & Hc).
  split; [done |]. split; [| done]. cbn [fst]. by rewrite Hc.
Qed.

(** The guarded senders: a packet on the current socket, or a warning. *)
Ltac steady_send :=
  match goal with
  | |- steady ?st _ =>
      destruct st as [s w];
      unfold emit, startViewingFile, stopViewingFile, getOnlineUsers;
      destruct (socket_connected s w);
      [ destruct (socket s); [| apply steady_refl];
        apply steady_world; unfold sock_emit; by rewrite length_update_sock
      | by apply steady_world ]
  end.

Lemma steady_emit event data st : steady st (emit event data st).
Proof. steady_send. Qed.

Lemma steady_startViewingFile f st : steady st (startViewingFile f st).
Proof. steady_send. Qed.

Lemma steady_stopViewingFile f st : steady st (stopViewingFile f st).
Proof. steady_send. Qed.

Lemma steady_getOnlineUsers st : steady st (getOnlineUsers st).
Proof. steady_send. Qed.

Lemma steady_setupEventListeners st : steady st (setupEventListeners st).
Proof.
  destruct st as [s w]. unfold setupEventListeners.
  destruct (socket s) as [i|]; [| apply steady_refl].
  apply steady_world. generalize wire_events. intros es. revert w.
  induction es as [|e es IH]; intros w; cbn [foldl]; [done |].
  etrans; [| apply IH]. unfold sock_on. by rewrite length_update_sock.
Qed.

Lemma steady_reregisterListeners st : steady st (reregisterListeners st).
Proof.
  destruct st as [s w]. unfold reregisterListeners.
  destruct (socket s); [apply steady_setupEventListeners | apply steady_refl].
Qed.

Section Steady.

Variable behaviour : nat → Value → CbRun.

Lemma steady_call_listener event data st k :
  steady st (call_listener behaviour event data st k).
Proof.
  destruct st as [s w]. unfold call_listener.
  destruct (listeners s !! event ≫= (λ callbacks, callbacks !! k)) as [cb|];
    [| apply steady_refl].
  assert (Hops : ∀ ops s0, socket (foldl run_op s0 ops) = socket s0
                           ∧ isConnecting (foldl run_op s0 ops) = isConnecting s0).
  { induction ops as [|op ops IH]; intros s0; cbn [foldl]; [done |].
    destruct (IH (run_op s0 op)) as [-> ->].
    destruct (run_op_frame s0 op) as (-> & _ & _ & ->). done. }
  destruct (Hops (cb_ops (behaviour cb data)) s) as [Hs Hc].
  destruct (cb_throws (behaviour cb data)); (split; [done |]);
    (split; [cbn [fst]; by rewrite Hc | done]).
Qed.

Lemma steady_triggerEvent event data st :
  steady st (triggerEvent behaviour event data st).
Proof.
  destruct st as [s w]. unfold triggerEvent.
  destruct (listeners s !! event) as [cbs|]; [| by apply steady_world].
  case_bool_decide; [| by apply steady_world].
  apply steady_foldl. intros st k. apply steady_call_listener.
Qed.

Lemma steady_run_wire e data st : steady st (run_wire behaviour e data st).
Proof.
  unfold run_wire. destruct (wire_throws e data); [apply steady_refl |].
  destruct st as [s w].
  destruct e; cbn [wire_body];
    try apply steady_triggerEvent;
    try (eapply steady_trans; [| apply steady_triggerEvent]; by apply steady_world).
  - by apply steady_world.
  - eapply steady_trans; [| apply steady_getOnlineUsers]. by apply steady_world.
Qed.

Lemma steady_run_handler arg st h : steady st (run_handler behaviour arg st h).
Proof.
  destruct st as [s w]. destruct h; cbn [run_handler fst snd].
  - eapply steady_trans; [| apply steady_reregisterListeners]. by repeat split.
  - destruct (is_client_disconnect arg); by repeat split.
  - case_bool_decide; by repeat split.
  - by apply steady_world.
  - by repeat split.
  - apply steady_run_wire.
Qed.

Lemma steady_deliver i name arg st : steady st (deliver behaviour i name arg st).
Proof.
  unfold deliver. destruct (socks st.2 !! i) as [k|]; [| apply steady_refl].
  generalize (handlers_for name k). intros hs.
  assert (H : ∀ st0, steady st st0 → steady st (run_handlers behaviour arg st0 hs)).
  { induction hs as [| h hs IH]; intros st0 Hst0; [done |].
    cbn [run_handlers]. destruct (handler_throws arg h); [done |].
    apply IH. eapply steady_trans; [exact Hst0 | apply steady_run_handler]. }
  apply H, steady_refl.
Qed.

Lemma steady_set_connected i b st :
  steady st (on_world (sock_set_connected i b) st).
Proof.
  destruct st as [s w]. apply steady_world. unfold sock_set_connected.
  by rewrite length_update_sock.
Qed.

Lemma steady_transport_connect i st : steady st (transport_connect behaviour i st).
Proof.
  unfold transport_connect. destruct (sock_open i st.2); [| apply steady_refl].
  eapply steady_trans; [apply steady_set_connected | apply steady_deliver].
Qed.

Lemma steady_transport_disconnect i reason st :
  steady st (transport_disconnect behaviour i reason st).
Proof.
  unfold transport_disconnect. destruct (sock_open i st.2); [| apply steady_refl].
  eapply steady_trans; [apply steady_set_connected | apply steady_deliver].
Qed.

Lemma steady_transport_connect_error i error st :
  steady st (transport_connect_error behaviour i error st).
Proof.
  unfold transport_connect_error.
  destruct (sock_open i st.2); [apply steady_deliver | apply steady_refl].
Qed.

Lemma steady_transport_reconnect i st :
  steady st (transport_reconnect behaviour i st).
Proof.
  unfold transport_reconnect.
  destruct (sock_open i st.2); [apply steady_deliver | apply steady_refl].
Qed.

Lemma steady_transport_reconnect_failed i st :
  steady st (transport_reconnect_failed behaviour i st).
Proof.
  unfold transport_reconnect_failed.
  destruct (sock_open i st.2); [apply steady_deliver | apply steady_refl].
Qed.

Lemma steady_inbound i e data st : steady st (inbound behaviour i e data st).
Proof.
  unfold inbound.
  destruct (sock_open i st.2); [apply steady_deliver | apply steady_refl].
Qed.

Create HintDb steady.

#[local] Hint Resolve steady_run_op steady_emit steady_startViewingFile
  steady_stopViewingFile steady_getOnlineUsers steady_transport_connect
  steady_transport_disconnect steady_transport_connect_error
  steady_transport_reconnect steady_transport_reconnect_failed
  steady_inbound : steady.

Lemma coherent_connect tok st : coherent st → coherent (connect tok st).
Proof.
  destruct st as [s w]. intros Hco.
  destruct (isConnecting s || socket_connected s w) eqn:Hbusy.
  - unfold connect. by rewrite Hbusy.
  - apply orb_false_elim in Hbusy as [Hc Hsc].
    rewrite connect_fresh by done. split; cbn [fst snd socket socks]; [done |].
    intros i [= <-]. rewrite length_app. simpl. lia.
Qed.

Lemma coherent_disconnect st : coherent st → coherent (disconnect behaviour st).
Proof.
  destruct st as [s w]. intros [Hnone Hsome]. cbn [fst snd] in *.
  destruct (socket s) as [i|] eqn:Hs.
  - destruct (lookup_lt_is_Some_2 (socks w) i (Hsome i eq_refl)) as [k Hk].
    rewrite (disconnect_spec behaviour s w i k Hs Hk).
    split; cbn [fst snd socket isConnecting]; [done | intros j Hj; discriminate Hj].
  - rewrite disconnect_without_socket by done. split; cbn [fst snd].
    + intros _. by apply Hnone.
    + rewrite Hs. intros j Hj. discriminate Hj.
Qed.

Lemma coherent_timers st ts :
  coherent st →
  coherent (st.1, mkWorld (socks st.2) (toasts st.2) (console st.2) ts (calls st.2)).
Proof. intros Hco. exact Hco. Qed.

Lemma coherent_run st c : coherent st → coherent (run behaviour st c).
Proof.
  intros Hco. destruct c; cbn [run];
    try (eapply steady_coherent; [| exact Hco]; by auto with steady).
  - by apply coherent_connect.
  - by apply coherent_disconnect.
  - unfold forceReconnect, on_world, setTimeout.
    by apply (coherent_timers (disconnect behaviour st)), coherent_disconnect.
  - unfold run_timer. destruct (timers st.2) as [|[delay tok] rest]; [done |].
    by apply coherent_connect, coherent_timers.
Qed.

(** Every history leads to a coherent state. *)
Lemma coherent_after history : coherent (after behaviour history).
Proof.
  unfold after. induction history as [|c history IH] using rev_ind.
  - split; cbn; [done | intros i Hi; discriminate Hi].
  - rewrite foldl_app. cbn [foldl]. by apply coherent_run.
Qed.

End Steady.

(** ** One transport session at a time *)

(** C3.  The guard of [connect] looks at [isConnecting] and at
    [socket.connected] only.  After a failed attempt both are false while the
    socket is still there, not closed, and the transport goes on retrying it
    ([shouldReconnect] even answers true): a second [connect] then creates a
    second socket without closing the first, and both end up connected at
    the same time. *)
Theorem connect_after_error_opens_second_socket (behaviour : nat → Value → CbRun) :
  let history :=
    [CallConnect "tok"; TransportConnectError 0 Undefined; CallConnect "tok"] in
  let st2 := after behaviour (take 2 history) in
  let st3 := after behaviour history in
  let st4 := after behaviour (history ++ [TransportConnect 0; TransportConnect 1]) in
  isConnecting st2.1 = false
  ∧ socket_connected st2.1 st2.2 = false
  ∧ shouldReconnect st2.1 = true
  ∧ length (live_socks st2.2) = 1
  ∧ socket st3.1 = Some 1
  ∧ length (live_socks st3.2) = 2
  ∧ length (connected_socks st4.2) = 2.
Proof. repeat split; reflexivity. Qed.

(** ** Reconnections and wire closures *)







(** ** Forced reconnection *)

Example exhausted_reached :
  after observers (CallConnect "tok" :: replicate 5 (TransportConnectError 0 Undefined))
  = (exhausted_service, exhausted_world).
Proof. vm_compute. reflexivity. Qed.

(** C8 as it stands fails: neither [forceReconnect] nor the [connect] its
    timer runs touches [connectionAttempts]; after five failed attempts the
    counter is still five. *)
Lemma force_reconnect_keeps_attempts :
  let st := after observers
              (CallConnect "tok" :: replicate 5 (TransportConnectError 0 Undefined)) in
  connectionAttempts st.1 = 5
  ∧ shouldReconnect st.1 = false
  ∧ connectionAttempts (forceReconnect observers "tok" st).1 = 5
  ∧ connectionAttempts (run_timer (forceReconnect observers "tok" st)).1 = 5
  ∧ connectionAttempts (run_timer (forceReconnect observers "tok" st)).1 ≠ 0.
Proof. vm_compute. repeat split; try reflexivity. discriminate. Qed.

(** [forceReconnect] on a service that holds a socket, and on one that holds
    none. *)
Lemma forceReconnect_with_socket (behaviour : nat → Value → CbRun) tok s w i k :
  socket s = Some i → socks w !! i = Some k →
  forceReconnect behaviour tok (s, w)
  = (mkService None false ∅ (connectionAttempts s) false,
     mkWorld (<[i := mkSock (sock_token k) false true [] (sent k)]> (socks w))
             (toasts w) (console w) (timers w ++ [(1000, tok)]) (calls w)).
Proof.
  intros Hs Hk. unfold forceReconnect.
  by rewrite (disconnect_spec behaviour s w i k Hs Hk).
Qed.

Lemma forceReconnect_without_socket (behaviour : nat → Value → CbRun) tok s w :
  socket s = None →
  forceReconnect behaviour tok (s, w)
  = (s, mkWorld (socks w) (toasts w) (console w) (timers w ++ [(1000, tok)]) (calls w)).
Proof.
  intros Hs. unfold forceReconnect. by rewrite disconnect_without_socket.
Qed.

(** [connect], and so a timer of [forceReconnect], leaves the counter of
    attempts alone. *)
Lemma connect_keeps_attempts tok st :
  connectionAttempts (connect tok st).1 = connectionAttempts st.1.
Proof.
  destruct st as [s w]. destruct (isConnecting s || socket_connected s w) eqn:Hbusy.
  - unfold connect. by rewrite Hbusy.
  - apply orb_false_elim in Hbusy as [Hc Hsc]. by rewrite connect_fresh.
Qed.

Lemma run_timer_keeps_attempts st :
  connectionAttempts (run_timer st).1 = connectionAttempts st.1.
Proof.
  unfold run_timer. destruct (timers st.2) as [| [delay tok] rest]; [done |].
  by rewrite connect_keeps_attempts.
Qed.

(** While an attempt is pending the timers that fire find [connect] busy. *)
Lemma run_timers_busy ts : ∀ s l t c ca,
  isConnecting s = true →
  Nat.iter (length ts) run_timer (s, mkWorld l t c ts ca) = (s, mkWorld l t c [] ca).
Proof.
  induction ts as [| [delay tok] ts IH]; intros s l t c ca Hc; [done |].
  cbn [length]. rewrite Nat.iter_succ_r.
  change (run_timer (s, mkWorld l t c ((delay, tok) :: ts) ca))
    with (connect tok (s, mkWorld l t c ts ca)).
  rewrite connect_noop_when_busy by (by left). by apply IH.
Qed.

(** On a service without socket the first timer in line opens the new
    socket. *)
Lemma run_timers_idle delay tok ts s l t c ca :
  socket s = None → isConnecting s = false →
  Nat.iter (length ((delay, tok) :: ts)) run_timer
    (s, mkWorld l t c ((delay, tok) :: ts) ca)
  = (mkService (Some (length l)) (isConnected s) (listeners s)
               (connectionAttempts s) true,
     mkWorld (l ++ [mkSock tok false false (lifecycle_regs ++ wire_regs) []])
             t c [] ca).
Proof.
  intros Hs Hc. cbn [length]. rewrite Nat.iter_succ_r.
  change (run_timer (s, mkWorld l t c ((delay, tok) :: ts) ca))
    with (connect tok (s, mkWorld l t c ts ca)).
  rewrite connect_fresh; [| done | unfold socket_connected; by rewrite Hs].
  cbn [socks toasts console timers calls]. by apply run_timers_busy.
Qed.

Lemma first_in_line (pending : list (nat * string)) tok :
  ∃ delay rest,
    pending ++ [(1000, tok)] = (delay, from_option snd tok (head pending)) :: rest.
Proof.
  destruct pending as [| [delay tk] rest]; simpl; by eexists _, _.
Qed.

(** C8, amended.  After any history, [forceReconnect] first tears down the
    connection the service holds, if any (flags cleared, the socket stripped
    of its closures, disconnected, closed and dropped, the registry
    emptied), and puts a timer behind the timers that are pending.  When
    the pending timers have fired, with no other call and no transport
    event between, one new socket has been created, which
    shares nothing with the old one: by the first timer in line, with the
    token of that timer (the token of this call when no timer was pending);
    the timers behind it find an attempt pending and do nothing.
    [connectionAttempts] keeps its value throughout, and no timer changes it
    in any state; a ['connect'] of the new socket sets it to zero. *)
Theorem forceReconnect_tears_down_then_connects
    (behaviour : nat → Value → CbRun) history tok :
  let st := after behaviour history in
  let st1 := forceReconnect behaviour tok st in
  let st2 := Nat.iter (length (timers st1.2)) run_timer st1 in
  let fresh := length (socks st.2) in
  let first := from_option snd tok (head (timers st.2)) in
  socket st1.1 = None
  ∧ isConnecting st1.1 = false
  ∧ (∀ i, socket st.1 = Some i →
       ∃ k, socks st.2 !! i = Some k
            ∧ st1.1 = mkService None false ∅ (connectionAttempts st.1) false
            ∧ socks st1.2 = <[i := mkSock (sock_token k) false true [] (sent k)]> (socks st.2))
  ∧ (socket st.1 = None → st1.1 = st.1 ∧ socks st1.2 = socks st.2)
  ∧ timers st1.2 = timers st.2 ++ [(1000, tok)]
  ∧ socket st2.1 = Some fresh
  ∧ isConnecting st2.1 = true
  ∧ socks st2.2 = socks st1.2 ++ [mkSock first false false (lifecycle_regs ++ wire_regs) []]
  ∧ timers st2.2 = []
  ∧ connectionAttempts st1.1 = connectionAttempts st.1
  ∧ connectionAttempts st2.1 = connectionAttempts st.1
  ∧ (∀ st', connectionAttempts (run_timer st').1 = connectionAttempts st'.1)
  ∧ connectionAttempts (transport_connect behaviour fresh st2).1 = 0.
Proof.
  intros st st1 st2 fresh first.
  pose proof (coherent_after behaviour history) as [Hnone Hsome].
  fold st in Hnone, Hsome. subst st1 st2 fresh first. clearbody st.
  destruct st as [s w]. cbn [fst snd] in *.
  destruct (first_in_line (timers w) tok) as (delay & rest & Hline).
  set (first := from_option snd tok (head (timers w))) in *.
  set (new := mkSock first false false (lifecycle_regs ++ wire_regs) []).
  assert (Hreset : ∀ s' l, socket s' = Some (length l) →
            connectionAttempts
              (transport_connect behaviour (length l)
                 (s', mkWorld (l ++ [new]) (toasts w) (console w) [] (calls w))).1 = 0).
  { intros s' l Hs'.
    rewrite (transport_connect_spec behaviour (length l) 1 _ _ new);
      [done | done | by apply list_lookup_middle | done |].
    cbn [handlers new replicate concat]. by rewrite app_nil_r. }
  destruct (socket s) as [i|] eqn:Hs.
  - destruct (lookup_lt_is_Some_2 (socks w) i (Hsome i eq_refl)) as [k Hk].
    rewrite (forceReconnect_with_socket behaviour tok s w i k Hs Hk).
    cbn [fst snd socks toasts console timers calls]. rewrite Hline.
    rewrite run_timers_idle by done.
    cbn [fst snd socket isConnecting socks timers connectionAttempts].
    split; [done |]. split; [done |].
    split; [intros j [= <-]; by exists k |].
    split; [done |]. split; [done |].
    split; [by rewrite length_insert |].
    split; [done |]. split; [done |]. split; [done |]. split; [done |].
    split; [done |]. split; [apply run_timer_keeps_attempts |].
    rewrite <- (length_insert (socks w) i (mkSock (sock_token k) false true [] (sent k))).
    by apply Hreset.
  - rewrite (forceReconnect_without_socket behaviour tok s w Hs).
    cbn [fst snd socks toasts console timers calls]. rewrite Hline.
    rewrite run_timers_idle by auto.
    cbn [fst snd socket isConnecting socks timers connectionAttempts].
    split; [done |]. split; [by apply Hnone |].
    split; [done |]. split; [done |]. split; [done |].
    split; [done |].
    split; [done |]. split; [done |]. split; [done |]. split; [done |].
    split; [done |]. split; [apply run_timer_keeps_attempts |].
    by apply Hreset.
Qed.

(** With the timer of an earlier [forceReconnect] still pending, that timer
    opens the new socket, with its own token; the timer of the second call
    finds the attempt pending and opens none. *)
Example second_forced_reconnect_opens_no_socket :
  let st := after observers [CallConnect "tok"; CallForceReconnect "a"] in
  let st1 := forceReconnect observers "b" st in
  timers st.2 = [(1000, "a")]
  ∧ timers st1.2 = [(1000, "a"); (1000, "b")]
  ∧ sock_token <$> socks (run_timer st1).2 = ["tok"; "a"]
  ∧ run_timer (run_timer st1)
    = ((run_timer st1).1,
       mkWorld (socks (run_timer st1).2) [] [] [] []).
Proof.
  split; [vm_compute; reflexivity |]. split; [vm_compute; reflexivity |].
  split; vm_compute; reflexivity.
Qed.

(** The counter is reset by the ['connect'] of any socket that is not
    closed, the current one or not: here socket 0, left behind by a second
    [connect], connects after socket 1 has failed once. *)
Example orphan_connect_resets_attempts :
  let st := after observers
              [CallConnect "tok"; TransportConnectError 0 Undefined;
               CallConnect "tok"; TransportConnectError 1 Undefined] in
  socket st.1 = Some 1
  ∧ connectionAttempts st.1 = 2
  ∧ connectionAttempts (transport_connect observers 0 st).1 = 0.
Proof.
  split; [vm_compute; reflexivity |]. split; vm_compute; reflexivity.
Qed.

(** ** Teardown *)

Lemma stopViewingFile_keeps f s w i k :
  socks w !! i = Some k →
  ∃ w', stopViewingFile f (s, w) = (s, w') ∧ is_Some (socks w' !! i).
Proof.
  intros Hk. unfold stopViewingFile.
  destruct (socket_connected s w);
    [| exists (console_out WarnCannotStopViewing w); split; [done | by exists k]].
  destruct (socket s) as [j|]; [| exists w; split; [done | by exists k]].
  eexists. split; [reflexivity |]. unfold sock_emit, update_sock.
  cbn [socks with_socks]. rewrite list_lookup_alter.
  case_decide; [subst; rewrite Hk |]; by eexists.
Qed.

Example online_reached :
  after observers [CallConnect "tok"; TransportConnect 0;
                   CallOnOff (CallOn "file-viewers-updated" 1)]
  = (online_service, online_world).
Proof. vm_compute. reflexivity. Qed.

(** Without a socket [disconnect] does nothing at all: a subscription made
    before any connection stays. *)
Example disconnect_without_socket_keeps_listeners :
  let st := after observers [CallOnOff (CallOn "notification" 1); CallDisconnect] in
  registered st.1 "notification" = [1].
Proof. reflexivity. Qed.

(** C9 as it stands fails: the cleanup of ViewingProvider disconnects the
    service but dispatches nothing to the reducer, so the cached viewers of
    ["f1"] are still shown after the teardown and after the next connect. *)
Lemma teardown_keeps_presence_cache :
  let c1 := Provider.cleanup_effect observers (Provider.state client1) client1 in
  let c2 := Provider.connect_effect true (Some "tok") c1 in
  Viewing.getFileViewers (Provider.heap client1) (Provider.state client1) "f1" = [alice]
  ∧ Viewing.getFileViewers (Provider.heap c1) (Provider.state c1) "f1" = [alice]
  ∧ Viewing.getFileViewers (Provider.heap c2) (Provider.state c2) "f1" = [alice]
  ∧ Viewing.view (Provider.heap c2) (Provider.state c2) !! "f1" ≠ None.
Proof. vm_compute. repeat split; try reflexivity. discriminate. Qed.

(** C9, amended.  After any history that leaves the service with a socket,
    [disconnect] (and with it the cleanup of ViewingProvider) empties the
    listener registry, so after the next connect no subscription from before
    is left and a dispatch calls nothing; the reducer state, the presence
    cache, is left as it was. *)
Theorem teardown_clears_listeners_only
    (behaviour : nat → Value → CbRun) history i captured vheap vstate tok :
  let st := after behaviour history in
  socket st.1 = Some i →
  let c := Provider.mkClient vheap vstate st.1 st.2 in
  let c1 := Provider.cleanup_effect behaviour captured c in
  let c2 := Provider.connect_effect true (Some tok) c1 in
  listeners (disconnect behaviour st).1 = ∅
  ∧ listeners (Provider.service c1) = ∅
  ∧ listeners (Provider.service c2) = ∅
  ∧ (∀ ev d,
       calls (triggerEvent behaviour ev d (Provider.service c2, Provider.world c2)).2
       = calls (Provider.world c2))
  ∧ Provider.heap c2 = vheap
  ∧ Provider.state c2 = vstate.
Proof.
  intros st Hs c c1 c2.
  pose proof (coherent_after behaviour history) as [_ Hsome]. fold st in Hsome.
  destruct (lookup_lt_is_Some_2 (socks st.2) i (Hsome i Hs)) as [k Hk].
  assert (H0 : listeners (disconnect behaviour st).1 = ∅).
  { destruct st as [s w]. by rewrite (disconnect_spec behaviour s w i k Hs Hk). }
  assert (H1 : listeners (Provider.service c1) = ∅
               ∧ Provider.heap c1 = vheap ∧ Provider.state c1 = vstate).
  { unfold c1, Provider.cleanup_effect. cbn [Provider.service Provider.world c].
    assert (∃ w', (match Viewing.currentlyViewing captured with
                   | Some f => if Provider.truthy (Some f)
                               then stopViewingFile f (st.1, st.2)
                               else (st.1, st.2)
                   | None => (st.1, st.2)
                   end) = (st.1, w') ∧ is_Some (socks w' !! i))
      as (w' & -> & [k' Hk']).
    { destruct (Viewing.currentlyViewing captured) as [f|];
        [| eexists; split; [done | by exists k]].
      destruct (Provider.truthy (Some f)); [| eexists; split; [done | by exists k]].
      by apply stopViewingFile_keeps with (k := k). }
    rewrite (disconnect_spec behaviour _ w' i k' Hs Hk'). done. }
  destruct H1 as (Hl1 & Hh1 & Hst1).
  assert (H2 : listeners (Provider.service c2) = ∅
               ∧ Provider.heap c2 = vheap ∧ Provider.state c2 = vstate).
  { unfold c2, Provider.connect_effect.
    destruct (true && Provider.truthy (Some tok)); [| done].
    cbn [Provider.service Provider.heap Provider.state].
    by rewrite connect_listeners. }
  destruct H2 as (Hl2 & Hh2 & Hst2).
  split; [done |]. split; [done |]. split; [done |]. split; [| done].
  intros ev d. unfold triggerEvent. by rewrite Hl2, lookup_empty.
Qed.

Lemma teardown_clears_listeners_only_witness :
  let history := [CallConnect "tok"; TransportConnect 0;
                  CallOnOff (CallOn "file-viewers-updated" 1)] in
  let st := after observers history in
  let c := Provider.mkClient heap1 (Provider.state client1) st.1 st.2 in
  let c1 := Provider.cleanup_effect observers (Provider.state client1) c in
  let c2 := Provider.connect_effect true (Some "tok") c1 in
  socket st.1 = Some 0
  ∧ registered st.1 "file-viewers-updated" = [1]
  ∧ listeners (Provider.service c1) = ∅
  ∧ listeners (Provider.service c2) = ∅.
Proof.
  intros history st c c1 c2.
  assert (Hs : socket st.1 = Some 0) by (vm_compute; reflexivity).
  split; [exact Hs |]. split; [vm_compute; reflexivity |].
  pose proof (teardown_clears_listeners_only observers history 0
                (Provider.state client1) heap1 (Provider.state client1) "tok" Hs)
    as (_ & H1 & H2 & _).
  split; [exact H1 | exact H2].
Defined.

End SocketProofs.

(** * Properties of the token check *)

Module AuthFacts.

Import Auth.

(** ** Cutting the scheme out of the header *)

Lemma strip_prefix_app pat t : strip_prefix pat (pat +:+ t) = Some t.
Proof.
  induction pat as [|a pat IH]; simpl; [by destruct t |].
  by rewrite Ascii.eqb_refl.
Qed.

Lemma strip_prefix_Some pat s rest :
  strip_prefix pat s = Some rest → s = pat +:+ rest.
Proof.
  revert s. induction pat as [|a pat IH]; intros s; simpl.
  - by intros [= ->].
  - destruct s as [|b s]; [done |].
    destruct (Ascii.eqb a b) eqn:E; [| done].
    apply Ascii.eqb_eq in E as ->. intros H. by rewrite (IH s H).
Qed.

Lemma replace_first_prefix pat t : replace_first pat (pat +:+ t) = t.
Proof.
  destruct (pat +:+ t) eqn:E; simpl.
  - pose proof (strip_prefix_app pat t) as H. rewrite E in H.
    destruct pat; simpl in *; [by injection H as <- | done].
  - pose proof (strip_prefix_app pat t) as H. rewrite E in H. by rewrite H.
Qed.

Lemma replace_first_absent pat s : ¬ occurs pat s → replace_first pat s = s.
Proof.
  induction s as [|c s IH]; intros Hno.
  - simpl. destruct (strip_prefix pat "") as [rest|] eqn:E; [| done].
    apply strip_prefix_Some in E. exfalso. apply Hno. exists "", rest. by simpl.
  - simpl. destruct (strip_prefix pat (String c s)) as [rest|] eqn:E.
    + apply strip_prefix_Some in E. exfalso. apply Hno. exists "", rest. by simpl.
    + f_equal. apply IH. intros (a & b & ->). apply Hno.
      exists (String c a), b. by simpl.
Qed.

(** When the pattern occurs, one occurrence of it is cut out. *)
Lemma replace_first_occurs pat s :
  occurs pat s →
  ∃ a b, s = a +:+ pat +:+ b ∧ replace_first pat s = a +:+ b.
Proof.
  induction s as [|c s IH]; intros Hocc.
  - destruct Hocc as (a & b & Hs). destruct a; [| done]. simpl in Hs.
    destruct pat; [| done]. destruct b; [| done].
    by exists "", "".
  - simpl. destruct (strip_prefix pat (String c s)) as [rest|] eqn:E.
    + apply strip_prefix_Some in E. by exists "", rest.
    + destruct Hocc as (a & b & Hs). destruct a as [|c' a].
      * change (String c s = pat +:+ b) in Hs.
        rewrite Hs in E. rewrite strip_prefix_app in E. done.
      * change (String c s = String c' (a +:+ pat +:+ b)) in Hs.
        injection Hs as <- Hs.
        destruct IH as (a' & b' & Hs' & Hr); [by exists a, b |].
        exists (String c a'), b'. rewrite Hr. split; [| reflexivity].
        rewrite Hs' at 1. reflexivity.
Qed.

Lemma contains_occurs pat s : contains pat s = true ↔ occurs pat s.
Proof.
  induction s as [|c s IH]; simpl.
  - destruct (strip_prefix pat "") as [rest|] eqn:E.
    + split; [| done]. intros _. apply strip_prefix_Some in E. by exists "", rest.
    + split; [done |]. intros (a & b & Hs). destruct a; [| done].
      change ("" = pat +:+ b) in Hs. rewrite Hs, strip_prefix_app in E. done.
  - destruct (strip_prefix pat (String c s)) as [rest|] eqn:E.
    + split; [| done]. intros _. apply strip_prefix_Some in E. by exists "", rest.
    + rewrite IH. split.
      * intros (a & b & ->). exists (String c a), b. reflexivity.
      * intros (a & b & Hs). destruct a as [|c' a].
        -- change (String c s = pat +:+ b) in Hs.
           rewrite Hs, strip_prefix_app in E. done.
        -- change (String c s = String c' (a +:+ pat +:+ b)) in Hs.
           injection Hs as _ Hs. by exists a, b.
Qed.

Lemma append_inv_head pat b b' : pat +:+ b = pat +:+ b' → b = b'.
Proof.
  induction pat as [|c pat IH]; [done |].
  change (String c (pat +:+ b) = String c (pat +:+ b') → b = b').
  intros [= H]. by apply IH.
Qed.

(** The occurrence that is cut out is the first one. *)
Lemma replace_first_first pat s a b :
  s = a +:+ pat +:+ b → first_after pat a s → replace_first pat s = a +:+ b.
Proof.
  revert a. induction s as [|c s IH]; intros a Hs Hmin.
  - destruct a; [| done]. change ("" = pat +:+ b) in Hs.
    destruct pat; [| done]. destruct b; [| done]. reflexivity.
  - simpl. destruct (strip_prefix pat (String c s)) as [rest|] eqn:E.
    + apply strip_prefix_Some in E.
      assert (a = "") as ->.
      { specialize (Hmin "" rest E). destruct a; [done | simpl in Hmin; lia]. }
      change (String c s = pat +:+ b) in Hs. rewrite E in Hs.
      by apply append_inv_head in Hs as ->.
    + destruct a as [|c' a].
      * change (String c s = pat +:+ b) in Hs.
        rewrite Hs, strip_prefix_app in E. done.
      * change (String c s = String c' (a +:+ pat +:+ b)) in Hs.
        injection Hs as <- Hs.
        change (String c (replace_first pat s) = String c (a +:+ b)).
        f_equal. apply IH; [done |].
        intros a' b' Hs'. specialize (Hmin (String c a') b').
        simpl in Hmin. apply Nat.succ_le_mono, Hmin.
        by rewrite Hs'.
Qed.

(** ** The middleware *)

Section Middleware.

Context {User : Type}.
Variable verify : string → option User.

Lemma authenticate_token hd :
  authenticate verify hd
  = match token_of hd with
    | Some token => answer_for verify token
    | None => Respond 401 false "No token, authorization denied"
    end.
Proof. reflexivity. Qed.

Lemma token_of_Some h : token_of (Some h) = Some (replace_first "Bearer " h).
Proof. reflexivity. Qed.

(** X1.  A header made of the scheme and a token: the token is verified as it
    is, also when it contains the scheme again, and the request goes on
    with the decoded payload exactly when [jwt.verify] accepts it; a header
    that is the scheme alone is answered as a missing token. *)
Theorem authenticate_bearer_token t :
  authenticate verify (Some ("Bearer " +:+ t)) = answer_for verify t.
Proof.
  by rewrite authenticate_token, token_of_Some, replace_first_prefix.
Qed.

(** X2.  The scheme is optional: a header that does not contain ["Bearer "] is
    taken as the token itself. *)
Theorem authenticate_without_scheme h :
  ¬ occurs "Bearer " h → authenticate verify (Some h) = answer_for verify h.
Proof.
  intros Hno. by rewrite authenticate_token, token_of_Some, replace_first_absent.
Qed.

(** X3.  The scheme is cut out wherever it first occurs: what stands before it
    and what stands after it, joined, are verified as the token. *)
Theorem authenticate_cuts_first_scheme a b :
  first_after "Bearer " a (a +:+ "Bearer " +:+ b) →
  authenticate verify (Some (a +:+ "Bearer " +:+ b)) = answer_for verify (a +:+ b).
Proof.
  intros Hmin. rewrite authenticate_token, token_of_Some.
  by rewrite (replace_first_first "Bearer " _ a b).
Qed.

End Middleware.

Lemma authenticate_without_scheme_witness :
  ¬ occurs "Bearer " "abc"
  ∧ authenticate (accepts_only "abc") (Some "abc") = Next 7.
Proof.
  assert (H : ¬ occurs "Bearer " "abc").
  { rewrite <- contains_occurs. vm_compute. congruence. }
  split; [exact H |].
  exact (authenticate_without_scheme (accepts_only "abc") "abc" H).
Defined.

Lemma authenticate_cuts_first_scheme_witness :
  first_after "Bearer " "ab" ("ab" +:+ "Bearer " +:+ "c")
  ∧ authenticate (accepts_only "abc") (Some "abBearer c") = Next 7.
Proof.
  assert (H : first_after "Bearer " "ab" ("ab" +:+ "Bearer " +:+ "c")).
  { intros a' b' Hs. destruct a' as [|c1 [|c2 a']]; [done | | simpl; lia].
    exfalso. injection Hs as _ Hs. discriminate. }
  split; [exact H |].
  exact (authenticate_cuts_first_scheme (accepts_only "abc") "ab" "c" H).
Defined.

End AuthFacts.

(** * Properties of the reducer over histories *)

Module FeedFacts.

Import Viewing Samples ViewingProofs Feed.

(** ** References of cached files *)

Lemma refs_of_Some h st f p :
  refs_of h st f = Some p ↔
  ∃ o, fileViewers st !! f = Some p.1 ∧ objs h !! p.1 = Some o ∧ viewers o = p.2.
Proof.
  unfold refs_of. split.
  - intros H. apply bind_Some in H as (r & Hr & H).
    apply bind_Some in H as (o & Ho & [= <-]). by exists o.
  - intros (o & Hr & Ho & Hv). rewrite Hr. simpl. rewrite Ho. simpl.
    destruct p; simpl in *. by subst.
Qed.

Lemma refs_of_bound h st f p :
  wf h st → refs_of h st f = Some p →
  p.1 < length (objs h) ∧ p.2 < length (arrs h).
Proof.
  intros [Hc Hs] H. apply refs_of_Some in H as (o & Hr & Ho & <-). split.
  - by eapply lookup_lt_Some.
  - by eapply heap_closed_lookup.
Qed.

(** What a cached file shows, from its references. *)
Lemma view_refs h st f e :
  view h st !! f = Some e ↔
  ∃ p o, refs_of h st f = Some p ∧ objs h !! p.1 = Some o
         ∧ arrs h !! p.2 = Some (view_viewers e)
         ∧ view_fileId e = fileId o ∧ view_lastUpdated e = lastUpdated o.
Proof.
  rewrite view_lookup. split.
  - intros (r & Hr & Hread). apply read_lookup in Hread as (o & Ho & Hvs & Hf & Ht).
    exists (r, viewers o), o. split; [| done].
    apply refs_of_Some. by exists o.
  - intros (p & o & Hp & Ho & Hvs & Hf & Ht).
    apply refs_of_Some in Hp as (o' & Hr & Ho' & Hv).
    assert (o' = o) as -> by congruence.
    exists p.1. split; [done |]. apply read_lookup. exists o. by rewrite Hv.
Qed.

(** A store that grew, seen from a state of before. *)
Lemma wf_extends h h' st :
  wf h st → extends h h' → heap_closed h' → wf h' st.
Proof.
  intros [Hc Hs] [[os Ho] _] Hc'. split; [done |].
  eapply state_closed_mono; [done |]. rewrite Ho, length_app. lia.
Qed.

(** ** A new object for a file

    The shape in which SET_FILE_VIEWERS leaves the store: a new object that
    points at the array [a] of the payload, which no other cached file
    uses. *)
Section SetEntry.

Variables (h : Heap) (st : ViewingState) (f : string) (a : nat)
          (vs : list ViewerInfo) (now : Z) (cv : option string).

Let h' : Heap := mkHeap (objs h ++ [mkFileViewers f a now]) (arrs h).
Let st' : ViewingState :=
  mkViewingState (<[f := length (objs h)]> (fileViewers st)) cv.

Hypothesis Hwf : wf h st.
Hypothesis Ha : arrs h !! a = Some vs.
Hypothesis Hfree : unused_by_others h st f a.

Lemma set_entry_extends : extends h h'.
Proof. split; simpl; [eauto | exists []; by rewrite app_nil_r]. Qed.

Lemma set_entry_wf : wf h' st'.
Proof.
  destruct Hwf as [Hc Hs]. split.
  - unfold heap_closed, h'; simpl. apply Forall_app. split; [exact Hc |].
    constructor; [| constructor]. simpl. by eapply lookup_lt_Some.
  - unfold state_closed, st', h'; simpl. apply map_Forall_insert_2.
    + rewrite length_app. simpl. lia.
    + eapply map_Forall_impl; [exact Hs |]. intros ? r Hr. simpl in *.
      rewrite length_app. lia.
Qed.

Lemma set_entry_refs_new : refs_of h' st' f = Some (length (objs h), a).
Proof.
  unfold refs_of, st', h'; simpl. rewrite lookup_insert_eq. simpl.
  by rewrite list_lookup_middle.
Qed.

Lemma set_entry_refs_old f' : f' ≠ f → refs_of h' st' f' = refs_of h st f'.
Proof.
  intros Hne. destruct Hwf as [Hc Hs]. unfold refs_of, st', h'; simpl.
  rewrite lookup_insert_ne by done.
  destruct (fileViewers st !! f') as [r|] eqn:Hr; [simpl | done].
  rewrite lookup_app_l; [done |]. by apply (Hs f' r).
Qed.

Lemma set_entry_separated : separated h st → separated h' st'.
Proof.
  intros Hsep f1 f2 p1 p2 Hne H1 H2.
  destruct (decide (f1 = f)) as [-> | Hf1]; destruct (decide (f2 = f)) as [-> | Hf2];
    try done.
  - rewrite set_entry_refs_new in H1. injection H1 as <-.
    rewrite set_entry_refs_old in H2 by done.
    destruct (refs_of_bound h st f2 p2 Hwf H2).
    pose proof (Hfree f2 p2 Hf2 H2). simpl. split; [lia | done].
  - rewrite set_entry_refs_new in H2. injection H2 as <-.
    rewrite set_entry_refs_old in H1 by done.
    destruct (refs_of_bound h st f1 p1 Hwf H1).
    pose proof (Hfree f1 p1 Hf1 H1). simpl. split; [lia | done].
  - rewrite set_entry_refs_old in H1 by done.
    rewrite set_entry_refs_old in H2 by done.
    exact (Hsep f1 f2 p1 p2 Hne H1 H2).
Qed.

Lemma set_entry_view : view h' st' = <[f := mkView f vs now]> (view h st).
Proof.
  unfold view at 1, st'. simpl. erewrite omap_insert_Some.
  - f_equal. apply (view_extends h h' st Hwf set_entry_extends).
  - apply read_lookup. eexists. unfold h'. simpl.
    split; [by apply list_lookup_middle |]. simpl. done.
Qed.

Lemma set_entry_unused : unused_by_others h' st' f a.
Proof.
  intros f' p Hne Hp. rewrite set_entry_refs_old in Hp by done.
  by eapply Hfree.
Qed.

End SetEntry.

(** A new array leaves every state as it is, and no cached file uses it. *)
Lemma alloc_arr_refs h st vs f :
  refs_of (mkHeap (objs h) (arrs h ++ [vs])) st f = refs_of h st f.
Proof. reflexivity. Qed.

Lemma alloc_arr_wf h st vs : wf h st → wf (mkHeap (objs h) (arrs h ++ [vs])) st.
Proof.
  intros [Hc Hs]. split; [| done].
  unfold heap_closed; simpl. eapply Forall_impl; [exact Hc |].
  intros o Ho. simpl in *. rewrite length_app. lia.
Qed.

Lemma alloc_arr_view h st vs :
  wf h st → view (mkHeap (objs h) (arrs h ++ [vs])) st = view h st.
Proof.
  intros Hwf. apply view_extends; [done |].
  split; simpl; [exists []; by rewrite app_nil_r | eauto].
Qed.

Lemma alloc_arr_unused h st vs f :
  wf h st → unused_by_others (mkHeap (objs h) (arrs h ++ [vs])) st f (length (arrs h)).
Proof.
  intros Hwf f' p _ Hp. rewrite alloc_arr_refs in Hp.
  destruct (refs_of_bound h st f' p Hwf Hp). lia.
Qed.

(** ** The store and the value model, event by event *)

Lemma insert_last {A} (l : list A) (x y : A) :
  <[length l := y]> (l ++ [x]) = l ++ [y].
Proof.
  rewrite insert_app_r_alt by lia. by rewrite Nat.sub_diag.
Qed.

(** The state of the model with the pieces of [stands_for] split. *)
Lemma stands_for_intro m h st :
  wf h st → separated h st → view h st = shown m →
  currentlyViewing st = pointer m → stands_for m (h, st).
Proof. intros H1 H2 H3 H4. exact (conj H1 (conj H2 (conj H3 H4))). Qed.

(** SET_FILE_VIEWERS with an array no other cached file uses. *)
Lemma reduce_updated m h st now f a vs :
  stands_for m (h, st) → arrs h !! a = Some vs → unused_by_others h st f a →
  ∃ hs', viewingReducer now h st (SET_FILE_VIEWERS f a) = Some hs'
         ∧ stands_for (ideal_step m (now, file_viewers_updated f vs)) hs'
         ∧ arrs hs'.1 !! a = Some vs
         ∧ unused_by_others hs'.1 hs'.2 f a.
Proof.
  intros (Hwf & Hsep & Hview & Hptr) Ha Hfree. simpl in *.
  eexists. split; [reflexivity |]. split; [| split]; simpl.
  - apply stands_for_intro; simpl.
    + by eapply set_entry_wf.
    + by eapply set_entry_separated.
    + rewrite <- Hview. by eapply set_entry_view.
    + done.
  - done.
  - by eapply set_entry_unused.
Qed.

Lemma reduce_started_new m h st now f v :
  stands_for m (h, st) → fileViewers st !! f = None →
  ∃ hs', viewingReducer now h st (USER_STARTED_VIEWING f v) = Some hs'
         ∧ stands_for (ideal_step m (now, user_started_viewing_file f v)) hs'.
Proof.
  intros (Hwf & Hsep & Hview & Hptr) Hf. simpl in *.
  exists (mkHeap (objs h ++ [mkFileViewers f (length (arrs h)) now]) (arrs h ++ [[v]]),
          mkViewingState (<[f := length (objs h)]> (fileViewers st)) (currentlyViewing st)).
  split.
  - unfold get_or_create. rewrite Hf. simpl.
    rewrite list_lookup_middle by done. simpl.
    rewrite list_lookup_middle by done. simpl.
    unfold set_obj, set_arr; simpl. by rewrite !insert_last.
  - assert (shown m !! f = None) as Hm.
    { rewrite <- Hview. by apply view_lookup_None. }
    unfold ideal_step; simpl. rewrite Hm.
    set (h0 := mkHeap (objs h) (arrs h ++ [[v]])).
    pose proof (alloc_arr_wf h st [v] Hwf) as Hwf0.
    pose proof (alloc_arr_unused h st [v] f Hwf) as Hfree0.
    assert (Hsep0 : separated h0 st) by exact Hsep.
    assert (Ha0 : arrs h0 !! length (arrs h) = Some [v])
      by (by apply list_lookup_middle).
    apply stands_for_intro; simpl.
    + exact (set_entry_wf h0 st f (length (arrs h)) [v] now
               (currentlyViewing st) Hwf0 Ha0).
    + exact (set_entry_separated h0 st f (length (arrs h)) now
               (currentlyViewing st) Hwf0 Hfree0 Hsep0).
    + rewrite <- Hview, <- (alloc_arr_view h st [v] Hwf).
      exact (set_entry_view h0 st f (length (arrs h)) [v] now
               (currentlyViewing st) Hwf0 Ha0).
    + done.
Qed.

(** Updating the object and the array of one cached file in place. *)
Section InPlace.

Variables (h : Heap) (st : ViewingState) (f : string) (cur : nat)
          (o : FileViewers) (vs' : list ViewerInfo) (now : Z).

Let h' : Heap :=
  set_obj (set_arr h (viewers o) vs') cur
    (mkFileViewers (fileId o) (viewers o) now).

Hypothesis Hwf : wf h st.
Hypothesis Hsep : separated h st.
Hypothesis Hf : fileViewers st !! f = Some cur.
Hypothesis Ho : objs h !! cur = Some o.

Lemma in_place_refs f' : refs_of h' st f' = refs_of h st f'.
Proof.
  unfold refs_of, h'; simpl.
  destruct (fileViewers st !! f') as [r|] eqn:Hr; [simpl | done].
  destruct (decide (r = cur)) as [-> | Hne].
  - rewrite list_lookup_insert_eq by (by eapply lookup_lt_Some).
    rewrite Ho. done.
  - by rewrite list_lookup_insert_ne.
Qed.

Lemma in_place_separated : separated h' st.
Proof.
  intros f1 f2 p1 p2 Hne H1 H2. rewrite in_place_refs in H1, H2.
  exact (Hsep f1 f2 p1 p2 Hne H1 H2).
Qed.

Lemma in_place_refs_cur : refs_of h st f = Some (cur, viewers o).
Proof. unfold refs_of. rewrite Hf. simpl. by rewrite Ho. Qed.

Lemma in_place_view :
  view h' st = <[f := mkView (fileId o) vs' now]> (view h st).
Proof.
  destruct Hwf as [Hc Hs].
  assert (Hlt : viewers o < length (arrs h)) by (by eapply heap_closed_lookup).
  apply map_eq; intros f'. destruct (decide (f' = f)) as [-> | Hne].
  - rewrite lookup_insert_eq. apply view_lookup. exists cur. split; [done |].
    destruct (lookup_lt_is_Some_2 _ _ Hlt) as [vs Hvs].
    by eapply read_set_obj_arr_cur.
  - rewrite lookup_insert_ne by done. unfold view. rewrite !lookup_omap.
    destruct (fileViewers st !! f') as [r|] eqn:Hr; [simpl | done].
    assert (Hr' : r < length (objs h)) by (by apply (Hs f' r)).
    destruct (lookup_lt_is_Some_2 _ _ Hr') as [o' Ho'].
    destruct (Hsep f' f (r, viewers o') (cur, viewers o)) as [H1 H2]; [done | | |].
    + unfold refs_of. rewrite Hr. simpl. by rewrite Ho'.
    + exact in_place_refs_cur.
    + simpl in *. unfold read, h'; simpl.
      rewrite list_lookup_insert_ne by done. rewrite Ho'. simpl.
      by rewrite list_lookup_insert_ne.
Qed.

End InPlace.

Lemma reduce_started_cached m h st now f v cur :
  stands_for m (h, st) → fileViewers st !! f = Some cur →
  ∃ hs', viewingReducer now h st (USER_STARTED_VIEWING f v) = Some hs'
         ∧ stands_for (ideal_step m (now, user_started_viewing_file f v)) hs'.
Proof.
  intros (Hwf & Hsep & Hview & Hptr) Hf. simpl in *.
  destruct (Hwf) as [Hc Hs].
  assert (Hcur : cur < length (objs h)) by (by apply (Hs f cur)).
  destruct (lookup_lt_is_Some_2 _ _ Hcur) as [o Ho].
  destruct (lookup_lt_is_Some_2 (arrs h) (viewers o)) as [vs Hvs];
    [by eapply heap_closed_lookup |].
  assert (Hm : shown m !! f = Some (mkView (fileId o) vs (lastUpdated o))).
  { rewrite <- Hview. apply view_lookup. exists cur. split; [done |].
    apply read_lookup. by exists o. }
  eexists. split.
  - simpl. unfold get_or_create. rewrite Hf. simpl. rewrite Ho. simpl.
    rewrite Hvs. simpl. rewrite insert_id by done. rewrite state_eta. reflexivity.
  - unfold ideal_step; simpl. rewrite Hm. simpl.
    split; [| split; [| split]]; simpl.
    + by apply wf_set_obj_arr.
    + by eapply in_place_separated.
    + rewrite <- Hview. by eapply in_place_view.
    + done.
Qed.

Lemma reduce_started_stands_for m hs now f v :
  stands_for m hs →
  ∃ hs', viewingReducer now hs.1 hs.2 (USER_STARTED_VIEWING f v) = Some hs'
         ∧ stands_for (ideal_step m (now, user_started_viewing_file f v)) hs'.
Proof.
  destruct hs as [h st]. intros H.
  destruct (fileViewers st !! f) as [cur|] eqn:Hf.
  - by eapply reduce_started_cached.
  - by eapply reduce_started_new.
Qed.

(** USER_STOPPED_VIEWING on a cached file: the object is pointed at a new
    array. *)
Section Repointed.

Variables (h : Heap) (st : ViewingState) (f : string) (cur : nat)
          (o : FileViewers) (vs' : list ViewerInfo) (now : Z).

Let h' : Heap :=
  set_obj (mkHeap (objs h) (arrs h ++ [vs'])) cur
    (mkFileViewers (fileId o) (length (arrs h)) now).

Hypothesis Hwf : wf h st.
Hypothesis Hsep : separated h st.
Hypothesis Hf : fileViewers st !! f = Some cur.
Hypothesis Ho : objs h !! cur = Some o.

Lemma repointed_heap_closed : heap_closed h'.
Proof.
  destruct Hwf as [Hc Hs]. unfold heap_closed, h'; simpl.
  apply Forall_insert.
  - eapply Forall_impl; [exact Hc |]. intros o' Ho'. simpl in *.
    rewrite length_app. lia.
  - simpl. rewrite length_app. simpl. lia.
Qed.

Lemma repointed_wf m c : m ⊆ fileViewers st → wf h' (mkViewingState m c).
Proof.
  destruct Hwf as [Hc Hs]. intros Hsub. split; [exact repointed_heap_closed |].
  unfold state_closed, h'; simpl. rewrite length_insert.
  intros f' r Hr. apply (Hs f' r). by eapply lookup_weaken.
Qed.

Lemma repointed_refs_cur : refs_of h' st f = Some (cur, length (arrs h)).
Proof.
  unfold refs_of, h'; simpl. rewrite Hf. simpl.
  by rewrite list_lookup_insert_eq by (by eapply lookup_lt_Some).
Qed.

Lemma repointed_other f' r :
  f' ≠ f → fileViewers st !! f' = Some r → r ≠ cur.
Proof.
  intros Hne Hr. destruct Hwf as [Hc Hs].
  assert (Hr' : r < length (objs h)) by (by apply (Hs f' r)).
  destruct (lookup_lt_is_Some_2 _ _ Hr') as [o' Ho'].
  destruct (Hsep f' f (r, viewers o') (cur, viewers o)) as [H1 _]; [done | | | done].
  - unfold refs_of. rewrite Hr. simpl. by rewrite Ho'.
  - unfold refs_of. rewrite Hf. simpl. by rewrite Ho.
Qed.

Lemma repointed_refs_other f' : f' ≠ f → refs_of h' st f' = refs_of h st f'.
Proof.
  intros Hne. unfold refs_of, h'; simpl.
  destruct (fileViewers st !! f') as [r|] eqn:Hr; [simpl | done].
  rewrite list_lookup_insert_ne; [done |].
  pose proof (repointed_other f' r Hne Hr). congruence.
Qed.

Lemma repointed_separated : separated h' st.
Proof.
  intros f1 f2 p1 p2 Hne H1 H2.
  destruct (decide (f1 = f)) as [-> | Hf1]; destruct (decide (f2 = f)) as [-> | Hf2];
    try done.
  - rewrite repointed_refs_cur in H1. injection H1 as <-.
    rewrite repointed_refs_other in H2 by done.
    destruct (refs_of_bound h st f2 p2 Hwf H2) as [_ Hb].
    assert (Hr : fileViewers st !! f2 = Some p2.1).
    { apply refs_of_Some in H2 as (? & ? & _). done. }
    pose proof (repointed_other f2 p2.1 Hf2 Hr). simpl. split; [done | lia].
  - rewrite repointed_refs_cur in H2. injection H2 as <-.
    rewrite repointed_refs_other in H1 by done.
    destruct (refs_of_bound h st f1 p1 Hwf H1) as [_ Hb].
    assert (Hr : fileViewers st !! f1 = Some p1.1).
    { apply refs_of_Some in H1 as (? & ? & _). done. }
    pose proof (repointed_other f1 p1.1 Hf1 Hr). simpl. split; [done | lia].
  - rewrite repointed_refs_other in H1 by done.
    rewrite repointed_refs_other in H2 by done.
    exact (Hsep f1 f2 p1 p2 Hne H1 H2).
Qed.

Lemma repointed_read_cur : read h' cur = Some (mkView (fileId o) vs' now).
Proof.
  apply read_lookup. eexists. unfold h'; simpl. split; [| split].
  - apply list_lookup_insert_eq. by eapply lookup_lt_Some.
  - simpl. by apply list_lookup_middle.
  - done.
Qed.

Lemma repointed_read_other f' r :
  f' ≠ f → fileViewers st !! f' = Some r → read h' r = read h r.
Proof.
  intros Hne Hr. destruct Hwf as [Hc Hs].
  pose proof (repointed_other f' r Hne Hr) as Hcur.
  unfold read, h'; simpl. rewrite list_lookup_insert_ne by done.
  destruct (objs h !! r) as [o'|] eqn:Ho'; [simpl | done].
  rewrite lookup_app_l; [done |]. by eapply heap_closed_lookup.
Qed.

Lemma repointed_view :
  view h' st = <[f := mkView (fileId o) vs' now]> (view h st).
Proof.
  apply map_eq; intros f'. destruct (decide (f' = f)) as [-> | Hne].
  - rewrite lookup_insert_eq. apply view_lookup. exists cur.
    split; [done | exact repointed_read_cur].
  - rewrite lookup_insert_ne by done. unfold view. rewrite !lookup_omap.
    destruct (fileViewers st !! f') as [r|] eqn:Hr; [simpl | done].
    by eapply repointed_read_other.
Qed.

End Repointed.

(** A state that forgets entries keeps the separation. *)
Lemma separated_subseteq h st m c :
  separated h st → m ⊆ fileViewers st → separated h (mkViewingState m c).
Proof.
  intros Hsep Hsub f1 f2 p1 p2 Hne H1 H2.
  apply (Hsep f1 f2 p1 p2 Hne).
  - apply refs_of_Some in H1 as (o & Hr & Ho & Hv). apply refs_of_Some.
    exists o. split; [| done]. by eapply lookup_weaken.
  - apply refs_of_Some in H2 as (o & Hr & Ho & Hv). apply refs_of_Some.
    exists o. split; [| done]. by eapply lookup_weaken.
Qed.

Lemma wf_subseteq h st m c :
  wf h st → m ⊆ fileViewers st → wf h (mkViewingState m c).
Proof.
  intros [Hc Hs] Hsub. split; [done |].
  intros f r Hr. apply (Hs f r). by eapply lookup_weaken.
Qed.

Lemma reduce_stopped_stands_for m hs now f u :
  stands_for m hs →
  ∃ hs', viewingReducer now hs.1 hs.2 (USER_STOPPED_VIEWING f u) = Some hs'
         ∧ stands_for (ideal_step m (now, user_stopped_viewing_file f u)) hs'.
Proof.
  destruct hs as [h st]. intros (Hwf & Hsep & Hview & Hptr). simpl in *.
  destruct (Hwf) as [Hc Hs].
  destruct (fileViewers st !! f) as [cur|] eqn:Hf.
  - assert (Hcur : cur < length (objs h)) by (by apply (Hs f cur)).
    destruct (lookup_lt_is_Some_2 _ _ Hcur) as [o Ho].
    destruct (lookup_lt_is_Some_2 (arrs h) (viewers o)) as [vs Hvs];
      [by eapply heap_closed_lookup |].
    assert (Hm : shown m !! f = Some (mkView (fileId o) vs (lastUpdated o))).
    { rewrite <- Hview. apply view_lookup. exists cur. split; [done |].
      apply read_lookup. by exists o. }
    eexists. split.
    { simpl. rewrite Ho. simpl. rewrite Hvs. simpl. reflexivity. }
    unfold ideal_step; simpl. rewrite Hm. simpl.
    set (rest := filter (other_id u) vs).
    destruct (decide (rest = [])) as [Hnil | Hcons].
    + rewrite (bool_decide_eq_true_2 (rest = [])) by done.
      rewrite (bool_decide_eq_true_2 (length rest = 0)) by (by rewrite Hnil).
      split; [| split; [| split]]; simpl.
      * eapply (repointed_wf h st cur o rest now); [done |].
        apply delete_subseteq.
      * apply (separated_subseteq _ st); [| apply delete_subseteq].
        by eapply (repointed_separated h st f cur o rest now).
      * rewrite view_delete.
        rewrite (repointed_view h st f cur o rest now) by done.
        rewrite delete_insert_eq. by rewrite Hview.
      * done.
    + rewrite (bool_decide_eq_false_2 (rest = [])) by done.
      rewrite (bool_decide_eq_false_2 (length rest = 0))
        by (by intros ?%length_zero_iff_nil).
      rewrite (insert_id (fileViewers st)) by done. rewrite state_eta.
      split; [| split; [| split]]; simpl.
      * rewrite <- (state_eta st).
        by eapply (repointed_wf h st cur o rest now).
      * by eapply (repointed_separated h st f cur o rest now).
      * rewrite (repointed_view h st f cur o rest now) by done.
        by rewrite Hview.
      * done.
  - assert (shown m !! f = None) as Hm.
    { rewrite <- Hview. by apply view_lookup_None. }
    eexists. split.
    { simpl. rewrite state_eta. reflexivity. }
    unfold ideal_step; simpl. rewrite Hm. done.
Qed.

Lemma reduce_pointer_stands_for m hs now p :
  stands_for m hs →
  ∃ hs', viewingReducer now hs.1 hs.2 (SET_CURRENTLY_VIEWING p) = Some hs'
         ∧ stands_for (ideal_step m (now, set_currently_viewing p)) hs'.
Proof.
  destruct hs as [h st]. intros (Hwf & Hsep & Hview & Hptr). simpl in *.
  eexists. split; [reflexivity |].
  apply stands_for_intro; simpl.
  - by apply (wf_subseteq h st).
  - by apply (separated_subseteq h st).
  - done.
  - done.
Qed.

Lemma reduce_clear_stands_for m hs now f :
  stands_for m hs →
  ∃ hs', viewingReducer now hs.1 hs.2 (CLEAR_FILE_VIEWERS f) = Some hs'
         ∧ stands_for (ideal_step m (now, clear_file_viewers f)) hs'.
Proof.
  destruct hs as [h st]. intros (Hwf & Hsep & Hview & Hptr). simpl in *.
  eexists. split; [reflexivity |].
  apply stands_for_intro; simpl.
  - apply (wf_subseteq h st); [done | apply delete_subseteq].
  - apply (separated_subseteq h st); [done | apply delete_subseteq].
  - by rewrite view_delete, Hview.
  - done.
Qed.

(** ** One packet, dispatched any number of times *)

Lemma dispatch_all_cons action now ts hs :
  dispatch_all action (now :: ts) hs
  = viewingReducer now hs.1 hs.2 action ≫= dispatch_all action ts.
Proof.
  unfold dispatch_all. simpl.
  destruct (viewingReducer now hs.1 hs.2 action) as [hs'|]; [done |].
  simpl. induction ts as [| t ts IH]; [done | exact IH].
Qed.

Lemma ideal_receive_cons m now ts ev :
  ideal_receive m (now :: ts, ev) = ideal_receive (ideal_step m (now, ev)) (ts, ev).
Proof. reflexivity. Qed.

(** Dispatching with a step that keeps [stands_for]. *)
Lemma dispatch_all_stands_for action ev ts :
  (∀ m hs now, stands_for m hs →
     ∃ hs', viewingReducer now hs.1 hs.2 action = Some hs'
            ∧ stands_for (ideal_step m (now, ev)) hs') →
  ∀ m hs, stands_for m hs →
    ∃ hs', dispatch_all action ts hs = Some hs'
           ∧ stands_for (ideal_receive m (ts, ev)) hs'.
Proof.
  intros Hstep. induction ts as [| now ts IH]; intros m hs Hst.
  - exists hs. by split.
  - destruct (Hstep m hs now Hst) as (hs1 & Hred & Hst1).
    destruct (IH _ _ Hst1) as (hs2 & Hall & Hst2).
    exists hs2. split; [| by rewrite ideal_receive_cons].
    rewrite dispatch_all_cons, Hred. done.
Qed.

Lemma dispatch_all_updated f a vs ts : ∀ m hs,
  stands_for m hs → arrs hs.1 !! a = Some vs → unused_by_others hs.1 hs.2 f a →
  ∃ hs', dispatch_all (SET_FILE_VIEWERS f a) ts hs = Some hs'
         ∧ stands_for (ideal_receive m (ts, file_viewers_updated f vs)) hs'.
Proof.
  induction ts as [| now ts IH]; intros m hs Hst Ha Hfree.
  - exists hs. by split.
  - destruct hs as [h st].
    destruct (reduce_updated m h st now f a vs Hst Ha Hfree)
      as (hs1 & Hred & Hst1 & Ha1 & Hfree1).
    destruct (IH _ _ Hst1 Ha1 Hfree1) as (hs2 & Hall & Hst2).
    exists hs2. split; [| by rewrite ideal_receive_cons].
    rewrite dispatch_all_cons. cbn [fst snd]. rewrite Hred. done.
Qed.

Lemma receive_stands_for m hs d :
  stands_for m hs →
  ∃ hs', receive hs d = Some hs' ∧ stands_for (ideal_receive m d) hs'.
Proof.
  destruct d as [ts [f vs | f v | f u | p | f]]; intros H; unfold receive; simpl.
  - destruct hs as [h st]. destruct H as (Hwf & Hsep & Hview & Hptr). simpl in *.
    apply dispatch_all_updated; simpl.
    + apply stands_for_intro; simpl.
      * by apply alloc_arr_wf.
      * exact Hsep.
      * by rewrite alloc_arr_view.
      * done.
    + by apply list_lookup_middle.
    + by apply alloc_arr_unused.
  - destruct hs. apply dispatch_all_stands_for; [| done].
    intros. by apply reduce_started_stands_for.
  - destruct hs. apply dispatch_all_stands_for; [| done].
    intros. by apply reduce_stopped_stands_for.
  - destruct hs. apply dispatch_all_stands_for; [| done].
    intros. by apply reduce_pointer_stands_for.
  - destruct hs. apply dispatch_all_stands_for; [| done].
    intros. by apply reduce_clear_stands_for.
Qed.

Lemma stands_for_initial : stands_for ideal0 (initialHeap, initialState).
Proof.
  apply stands_for_intro; simpl.
  - split; [constructor | apply map_Forall_empty].
  - intros f1 f2 p1 p2 _ H1. unfold refs_of in H1. simpl in H1.
    by rewrite lookup_empty in H1.
  - unfold view. simpl. apply omap_empty.
  - done.
Qed.

Lemma replay_snoc history d :
  replay (history ++ [d]) = replay history ≫= (λ hs, receive hs d).
Proof. unfold replay. by rewrite foldl_app. Qed.

Lemma ideal_snoc history d :
  ideal (history ++ [d]) = ideal_receive (ideal history) d.
Proof. unfold ideal. by rewrite foldl_app. Qed.

Lemma replay_stands_for history :
  ∃ hs, replay history = Some hs ∧ stands_for (ideal history) hs.
Proof.
  induction history as [| d history IH] using rev_ind.
  - eexists. split; [reflexivity | apply stands_for_initial].
  - destruct IH as (hs & Hrun & Hst).
    destruct (receive_stands_for _ _ d Hst) as (hs' & Hrec & Hst').
    exists hs'. split; [| by rewrite ideal_snoc].
    rewrite replay_snoc, Hrun. done.
Qed.

(** ** The value model on its own *)

Lemma alike_refl m : alike m m.
Proof. by split. Qed.

Lemma alike_trans m1 m2 m3 : alike m1 m2 → alike m2 m3 → alike m1 m3.
Proof. intros [H1 H2] [H3 H4]. split; congruence. Qed.

Lemma alike_lookup m1 m2 f :
  alike m1 m2 → untimed <$> (shown m1 !! f) = untimed <$> (shown m2 !! f).
Proof. intros [H _]. by rewrite <- !lookup_fmap, H. Qed.

Lemma untimed_inj_fields e1 e2 :
  untimed e1 = untimed e2 →
  view_fileId e1 = view_fileId e2 ∧ view_viewers e1 = view_viewers e2.
Proof. unfold untimed. by intros [= -> ->]. Qed.

Lemma ideal_step_alike m1 m2 t1 t2 ev :
  alike m1 m2 → alike (ideal_step m1 (t1, ev)) (ideal_step m2 (t2, ev)).
Proof.
  intros Hm. pose proof Hm as [Hs Hp].
  destruct ev as [f vs | f v | f u | p | f]; unfold ideal_step; simpl.
  - split; simpl; [| done]. rewrite !fmap_insert. unfold untimed at 1 3; simpl.
    by rewrite Hs.
  - pose proof (alike_lookup m1 m2 f Hm) as Hf.
    destruct (shown m1 !! f) as [e1|], (shown m2 !! f) as [e2|]; simpl in Hf;
      try done.
    + assert (Hu : untimed e1 = untimed e2) by congruence.
      apply untimed_inj_fields in Hu as [Hid Hvs].
      split; simpl; [| done]. rewrite !fmap_insert. unfold untimed at 1 3; simpl.
      by rewrite Hs, Hid, Hvs.
    + split; simpl; [| done]. rewrite !fmap_insert. unfold untimed at 1 3; simpl.
      by rewrite Hs.
  - pose proof (alike_lookup m1 m2 f Hm) as Hf.
    destruct (shown m1 !! f) as [e1|], (shown m2 !! f) as [e2|]; simpl in Hf;
      try done.
    assert (Hu : untimed e1 = untimed e2) by congruence.
      apply untimed_inj_fields in Hu as [Hid Hvs].
    rewrite Hvs. destruct (bool_decide _).
    + split; simpl; [| done]. by rewrite !fmap_delete, Hs.
    + split; simpl; [| done]. rewrite !fmap_insert. unfold untimed at 1 3; simpl.
      by rewrite Hs, Hid.
  - by split.
  - split; simpl; [| done]. by rewrite !fmap_delete, Hs.
Qed.

(** [findIndex] after the two kinds of update [upsert] makes. *)
Lemma findIndex_app_last {A} (p : A → bool) l x :
  findIndex p l = None → p x = true → findIndex p (l ++ [x]) = Some (length l).
Proof.
  induction l as [| y l IH]; simpl; intros Hn Hx.
  - by rewrite Hx.
  - destruct (p y); [done |]. apply fmap_None in Hn. by rewrite IH.
Qed.

Lemma findIndex_insert_same {A} (p : A → bool) l i x :
  findIndex p l = Some i → p x = true → findIndex p (<[i := x]> l) = Some i.
Proof.
  revert i. induction l as [| y l IH]; simpl; intros i Hi Hx; [done |].
  destruct (p y) eqn:Hy.
  - injection Hi as <-. simpl. by rewrite Hx.
  - apply fmap_Some in Hi as (j & Hj & ->). simpl. rewrite Hy.
    by rewrite (IH j).
Qed.

Lemma same_id_refl v : same_id v v = true.
Proof. by apply same_id_true. Qed.

(** Pushing or overwriting the same viewer twice is the same as once. *)
Lemma upsert_twice v vs : upsert v (upsert v vs) = upsert v vs.
Proof.
  destruct (findIndex (same_id v) vs) as [i|] eqn:E.
  - assert (upsert v vs = <[i := v]> vs) as -> by (unfold upsert; by rewrite E).
    unfold upsert. rewrite (findIndex_insert_same _ _ _ _ E (same_id_refl v)).
    apply list_insert_insert_eq.
  - assert (upsert v vs = vs ++ [v]) as -> by (unfold upsert; by rewrite E).
    unfold upsert. rewrite (findIndex_app_last _ _ _ E (same_id_refl v)).
    apply insert_last.
Qed.

Lemma filter_twice (u : string) (vs : list ViewerInfo) :
  filter (other_id u) (filter (other_id u) vs) = filter (other_id u) vs.
Proof.
  induction vs as [| v vs IH]; [done |].
  destruct (decide (other_id u v)) as [Hv | Hv].
  - rewrite (filter_cons_True _ _ _ Hv). rewrite (filter_cons_True _ _ _ Hv).
    by rewrite IH.
  - by rewrite (filter_cons_False _ _ _ Hv).
Qed.

Lemma ideal_step_twice m t1 t2 ev :
  alike (ideal_step (ideal_step m (t1, ev)) (t2, ev)) (ideal_step m (t1, ev)).
Proof.
  destruct ev as [f vs | f v | f u | p | f]; unfold ideal_step; simpl.
  - split; simpl; [| done]. rewrite insert_insert_eq, !fmap_insert. reflexivity.
  - destruct (shown m !! f) as [e|] eqn:Hf; simpl; rewrite lookup_insert_eq; simpl.
    + split; simpl; [| done]. rewrite insert_insert_eq, !fmap_insert.
      unfold untimed at 1 3; simpl. by rewrite upsert_twice.
    + assert (upsert v [v] = [v]) as -> by exact (upsert_twice v []).
      split; simpl; [| done]. rewrite insert_insert_eq, !fmap_insert. reflexivity.
  - destruct (shown m !! f) as [e|] eqn:Hf; simpl; [| by rewrite Hf; apply alike_refl].
    destruct (bool_decide (filter (other_id u) (view_viewers e) = [])) eqn:Hr; simpl.
    + rewrite lookup_delete_eq. apply alike_refl.
    + rewrite lookup_insert_eq. simpl. rewrite filter_twice, Hr.
      split; simpl; [| done]. rewrite insert_insert_eq, !fmap_insert. reflexivity.
  - by split.
  - split; simpl; [| done]. by rewrite delete_delete_eq.
Qed.

Lemma ideal_receive_settles ev t m0 : ∀ ts m,
  alike m (ideal_step m0 (t, ev)) →
  alike (ideal_receive m (ts, ev)) (ideal_step m0 (t, ev)).
Proof.
  induction ts as [| t' ts IH]; intros m Hm; [done |].
  rewrite ideal_receive_cons. apply IH.
  eapply alike_trans; [| apply (ideal_step_twice m0 t t' ev)].
  by apply ideal_step_alike.
Qed.

(** Dispatching a packet many times or once. *)
Lemma ideal_receive_once m1 m2 d :
  alike m1 m2 → alike (ideal_receive m1 d) (ideal_receive m2 (take 1 d.1, d.2)).
Proof.
  destruct d as [[| t ts] ev]; intros Hm; [done |]. simpl.
  rewrite ideal_receive_cons. rewrite take_0.
  apply ideal_receive_settles. by apply ideal_step_alike.
Qed.

Lemma ideal_once history : alike (ideal history) (ideal (once history)).
Proof.
  induction history as [| d history IH] using rev_ind; [apply alike_refl |].
  unfold once. rewrite fmap_app. simpl. rewrite !ideal_snoc.
  by apply ideal_receive_once.
Qed.

Lemma ideal_step_keyed m t ev : keyed m → keyed (ideal_step m (t, ev)).
Proof.
  intros Hk. destruct ev as [f vs | f v | f u | p | f]; unfold ideal_step; simpl.
  - intros f' e. simpl. destruct (decide (f' = f)) as [-> | Hne].
    + rewrite lookup_insert_eq. by intros [= <-].
    + rewrite lookup_insert_ne by done. apply Hk.
  - destruct (shown m !! f) as [e0|] eqn:Hf; intros f' e; simpl;
      (destruct (decide (f' = f)) as [-> | Hne];
       [rewrite lookup_insert_eq | rewrite lookup_insert_ne by done; apply Hk]).
    + intros [= <-]. simpl. by apply Hk.
    + by intros [= <-].
  - destruct (shown m !! f) as [e0|] eqn:Hf; [| done].
    destruct (bool_decide _); intros f' e; simpl.
    + intros [_ H]%lookup_delete_Some. by apply Hk.
    + destruct (decide (f' = f)) as [-> | Hne].
      * rewrite lookup_insert_eq. intros [= <-]. simpl. by apply Hk.
      * rewrite lookup_insert_ne by done. apply Hk.
  - done.
  - intros f' e. simpl. intros [_ H]%lookup_delete_Some. by apply Hk.
Qed.

Lemma ideal_receive_keyed d : ∀ m, keyed m → keyed (ideal_receive m d).
Proof.
  destruct d as [ts ev]. induction ts as [| t ts IH]; intros m Hk; [done |].
  rewrite ideal_receive_cons. apply IH. by apply ideal_step_keyed.
Qed.

Lemma ideal_keyed history : keyed (ideal history).
Proof.
  induction history as [| d history IH] using rev_ind.
  - intros f e. simpl. by rewrite lookup_empty.
  - rewrite ideal_snoc. by apply ideal_receive_keyed.
Qed.

(** An event about one file leaves the entries of the others. *)
Lemma ideal_step_other m t ev f' :
  file_of ev ≠ Some f' → shown (ideal_step m (t, ev)) !! f' = shown m !! f'.
Proof.
  destruct ev as [f vs | f v | f u | p | f]; unfold ideal_step; simpl; intros Hne;
    try done.
  - rewrite lookup_insert_ne; [done | congruence].
  - destruct (shown m !! f); simpl; (rewrite lookup_insert_ne; [done | congruence]).
  - destruct (shown m !! f); [| done]. destruct (bool_decide _); simpl.
    + rewrite lookup_delete_ne; [done | congruence].
    + rewrite lookup_insert_ne; [done | congruence].
  - rewrite lookup_delete_ne; [done | congruence].
Qed.

Lemma ideal_receive_other d f' : ∀ m,
  file_of d.2 ≠ Some f' → shown (ideal_receive m d) !! f' = shown m !! f'.
Proof.
  destruct d as [ts ev]. simpl. induction ts as [| t ts IH]; intros m Hne; [done |].
  rewrite ideal_receive_cons, IH by done. by apply ideal_step_other.
Qed.

Lemma alike_viewers_of m1 m2 f : alike m1 m2 → viewers_of m1 f = viewers_of m2 f.
Proof.
  intros Hm. pose proof (alike_lookup m1 m2 f Hm) as Hf. unfold viewers_of.
  destruct (shown m1 !! f) as [e1|], (shown m2 !! f) as [e2|]; simpl in Hf;
    try done.
  assert (Hu : untimed e1 = untimed e2) by congruence.
  by apply untimed_inj_fields in Hu as [_ Hvs].
Qed.

Lemma getFileViewers_stands_for m h st f :
  stands_for m (h, st) → getFileViewers h st f = viewers_of m f.
Proof. intros (_ & _ & Hview & _). simpl in *. unfold getFileViewers. by rewrite Hview. Qed.

Lemma filter_absent (u : string) (vs : list ViewerInfo) :
  u ∉ id <$> vs → filter (other_id u) vs = vs.
Proof.
  induction vs as [| v vs IH]; [done |]. simpl. intros Hu.
  apply not_elem_of_cons in Hu as [Hv Hu].
  rewrite filter_cons_True by (unfold other_id; congruence).
  by rewrite IH.
Qed.

Lemma filter_upsert_absent v vs :
  id v ∉ id <$> vs → filter (other_id (id v)) (upsert v vs) = vs.
Proof.
  intros Hu. rewrite upsert_absent.
  - rewrite filter_app, filter_absent by done.
    rewrite filter_cons_False by (unfold other_id; tauto).
    by rewrite filter_nil, app_nil_r.
  - apply Forall_forall. intros w Hw Heq. apply Hu. rewrite <- Heq.
    by apply list_elem_of_fmap_2.
Qed.

Lemma ideal_stop_absent m t f u f' :
  u ∉ id <$> viewers_of m f →
  viewers_of (ideal_step m (t, user_stopped_viewing_file f u)) f' = viewers_of m f'.
Proof.
  intros Hu. unfold ideal_step; simpl. unfold viewers_of in Hu.
  destruct (shown m !! f) as [e|] eqn:Hf; [| done].
  rewrite filter_absent by done.
  destruct (decide (f' = f)) as [-> | Hne].
  - unfold viewers_of. destruct (bool_decide (view_viewers e = [])) eqn:Hr; simpl.
    + rewrite lookup_delete_eq, Hf. by apply bool_decide_eq_true_1 in Hr.
    + by rewrite lookup_insert_eq, Hf.
  - unfold viewers_of. destruct (bool_decide _); simpl.
    + by rewrite lookup_delete_ne.
    + by rewrite lookup_insert_ne.
Qed.

Lemma ideal_start_stop m t1 t2 f v f' :
  id v ∉ id <$> viewers_of m f →
  viewers_of (ideal_step (ideal_step m (t1, user_started_viewing_file f v))
                (t2, user_stopped_viewing_file f (id v))) f'
  = viewers_of m f'.
Proof.
  intros Hu. unfold viewers_of in Hu. unfold ideal_step at 2; simpl.
  destruct (shown m !! f) as [e|] eqn:Hf.
  - unfold ideal_step; simpl. rewrite lookup_insert_eq. simpl.
    rewrite filter_upsert_absent by done. unfold viewers_of.
    destruct (decide (f' = f)) as [-> | Hne].
    + destruct (bool_decide (view_viewers e = [])) eqn:Hr; simpl.
      * rewrite lookup_delete_eq, Hf. by apply bool_decide_eq_true_1 in Hr.
      * by rewrite lookup_insert_eq, Hf.
    + destruct (bool_decide _); simpl.
      * rewrite lookup_delete_ne, lookup_insert_ne by done. done.
      * rewrite !lookup_insert_ne by done. done.
  - unfold ideal_step; simpl. rewrite lookup_insert_eq. simpl.
    assert (filter (other_id (id v)) [v] = []) as ->.
    { rewrite filter_cons_False by (unfold other_id; tauto). done. }
    simpl. unfold viewers_of. simpl.
    destruct (decide (f' = f)) as [-> | Hne].
    + by rewrite lookup_delete_eq, Hf.
    + rewrite lookup_delete_ne, lookup_insert_ne by done. done.
Qed.

Lemma ideal_receive_start_stop m ts1 ts2 f v f' :
  ts2 ≠ [] → id v ∉ id <$> viewers_of m f →
  viewers_of (ideal_receive (ideal_receive m (ts1, user_started_viewing_file f v))
                (ts2, user_stopped_viewing_file f (id v))) f'
  = viewers_of m f'.
Proof.
  intros Hts Hu. destruct ts2 as [| t2 ts2]; [done |].
  pose proof (ideal_receive_once m m (ts1, user_started_viewing_file f v)
                (alike_refl m)) as H1.
  pose proof (ideal_receive_once _ _ (t2 :: ts2, user_stopped_viewing_file f (id v)) H1)
    as H2.
  rewrite (alike_viewers_of _ _ f' H2). simpl. rewrite take_0.
  destruct ts1 as [| t1 ts1]; simpl.
  - by apply ideal_stop_absent.
  - rewrite take_0. by apply ideal_start_stop.
Qed.

(** ** The reducer over whole histories *)

(** X4.  Every history of events returns a state, and the state shows what the
    same transitions on plain values give: no sharing between objects or
    arrays of the store is visible through the latest state.  Each event may
    be dispatched any number of times. *)
Theorem replay_shows_value_model history :
  ∃ h st, replay history = Some (h, st)
          ∧ view h st = shown (ideal history)
          ∧ currentlyViewing st = pointer (ideal history).
Proof.
  destruct (replay_stands_for history) as ([h st] & Hrun & _ & _ & Hview & Hptr).
  by exists h, st.
Qed.

(** X5.  In every state reached from [initialState] the store has no dangling
    reference, and two cached files never share a FileViewers object or a
    viewers array. *)
Theorem replay_keeps_files_apart history :
  ∃ h st, replay history = Some (h, st) ∧ wf h st ∧ separated h st.
Proof.
  destruct (replay_stands_for history) as ([h st] & Hrun & Hwf & Hsep & _).
  by exists h, st.
Qed.

(** X6.  In every state reached from [initialState] the entry cached under a file
    id carries that id in its [fileId] field. *)
Theorem replay_files_under_own_id history h st f e :
  replay history = Some (h, st) → view h st !! f = Some e → view_fileId e = f.
Proof.
  intros Hrun He.
  destruct (replay_stands_for history) as (hs & Hrun' & _ & _ & Hview & _).
  assert (hs = (h, st)) as -> by congruence. simpl in *.
  apply (ideal_keyed history). by rewrite <- Hview.
Qed.

Lemma replay_files_under_own_id_witness :
  let history := [([10; 11]%Z, file_viewers_updated "f1" [alice]);
                  ([12]%Z, user_started_viewing_file "f2" bob)] in
  let h := mkHeap [mkFileViewers "f1" 0 10; mkFileViewers "f1" 0 11;
                   mkFileViewers "f2" 1 12] [[alice]; [bob]] in
  let st := mkViewingState {["f1" := 1; "f2" := 2]} None in
  replay history = Some (h, st)
  ∧ view h st !! "f2" = Some (mkView "f2" [bob] 12)
  ∧ view_fileId (mkView "f2" [bob] 12) = "f2".
Proof.
  assert (H1 : replay [([10; 11]%Z, file_viewers_updated "f1" [alice]);
                       ([12]%Z, user_started_viewing_file "f2" bob)]
               = Some (mkHeap [mkFileViewers "f1" 0 10; mkFileViewers "f1" 0 11;
                               mkFileViewers "f2" 1 12] [[alice]; [bob]],
                       mkViewingState {["f1" := 1; "f2" := 2]} None))
    by (vm_compute; reflexivity).
  assert (H2 : view (mkHeap [mkFileViewers "f1" 0 10; mkFileViewers "f1" 0 11;
                             mkFileViewers "f2" 1 12] [[alice]; [bob]])
                 (mkViewingState {["f1" := 1; "f2" := 2]} None) !! "f2"
               = Some (mkView "f2" [bob] 12))
    by (vm_compute; reflexivity).
  exact (conj H1 (conj H2 (replay_files_under_own_id _ _ _ _ _ H1 H2))).
Defined.

(** X7.  A packet dispatched once per transport handler leaves the state showing
    the same files, the same viewers and the same pointer as a single
    dispatch; only the time stamps can differ. *)
Theorem repeated_dispatch_shows_same_viewers history :
  ∃ h st h1 st1,
    replay history = Some (h, st)
    ∧ replay (once history) = Some (h1, st1)
    ∧ untimed <$> view h st = untimed <$> view h1 st1
    ∧ currentlyViewing st = currentlyViewing st1.
Proof.
  destruct (replay_stands_for history) as ([h st] & Hrun & _ & _ & Hview & Hptr).
  destruct (replay_stands_for (once history))
    as ([h1 st1] & Hrun1 & _ & _ & Hview1 & Hptr1).
  exists h, st, h1, st1. simpl in *.
  destruct (ideal_once history) as [Hs Hp].
  repeat split; [done | done | |].
  - by rewrite Hview, Hview1.
  - by rewrite Hptr, Hptr1.
Qed.

(** X8.  An event about one file leaves what the state shows for every other
    file as it was, time stamp included. *)
Theorem event_leaves_other_files history d f' h st h' st' :
  replay history = Some (h, st) → replay (history ++ [d]) = Some (h', st') →
  file_of d.2 ≠ Some f' →
  view h' st' !! f' = view h st !! f'.
Proof.
  intros Hrun Hrun' Hne.
  destruct (replay_stands_for history) as (hs & Hr & _ & _ & Hview & _).
  destruct (replay_stands_for (history ++ [d])) as (hs' & Hr' & _ & _ & Hview' & _).
  assert (hs = (h, st)) as -> by congruence.
  assert (hs' = (h', st')) as -> by congruence. simpl in *.
  rewrite Hview, Hview', ideal_snoc. by apply ideal_receive_other.
Qed.

Lemma event_leaves_other_files_witness :
  let history := [([10; 11]%Z, file_viewers_updated "f1" [alice])] in
  let d := ([12; 13]%Z, user_started_viewing_file "f2" bob) in
  let h := mkHeap [mkFileViewers "f1" 0 10; mkFileViewers "f1" 0 11] [[alice]] in
  let st := mkViewingState {["f1" := 1]} None in
  let h' := mkHeap [mkFileViewers "f1" 0 10; mkFileViewers "f1" 0 11;
                    mkFileViewers "f2" 1 13] [[alice]; [bob]] in
  let st' := mkViewingState {["f1" := 1; "f2" := 2]} None in
  replay history = Some (h, st)
  ∧ replay (history ++ [d]) = Some (h', st')
  ∧ view h' st' !! "f1" = view h st !! "f1".
Proof.
  assert (H1 : replay [([10; 11]%Z, file_viewers_updated "f1" [alice])]
               = Some (mkHeap [mkFileViewers "f1" 0 10; mkFileViewers "f1" 0 11]
                         [[alice]],
                       mkViewingState {["f1" := 1]} None))
    by (vm_compute; reflexivity).
  assert (H2 : replay ([([10; 11]%Z, file_viewers_updated "f1" [alice])]
                       ++ [([12; 13]%Z, user_started_viewing_file "f2" bob)])
               = Some (mkHeap [mkFileViewers "f1" 0 10; mkFileViewers "f1" 0 11;
                               mkFileViewers "f2" 1 13] [[alice]; [bob]],
                       mkViewingState {["f1" := 1; "f2" := 2]} None))
    by (vm_compute; reflexivity).
  assert (H3 : file_of (([12; 13]%Z, user_started_viewing_file "f2" bob) : list Z * Event).2
               ≠ Some "f1") by (simpl; congruence).
  exact (conj H1 (conj H2 (event_leaves_other_files _ _ "f1" _ _ _ _ H1 H2 H3))).
Defined.

(** X9.  A viewer who was not shown for a file, announced and then withdrawn,
    leaves the viewers of every file as they were. *)
Theorem started_then_stopped_restores_viewers history f v ts1 ts2 h st :
  replay history = Some (h, st) → ts2 ≠ [] →
  id v ∉ id <$> getFileViewers h st f →
  ∃ h2 st2,
    replay (history ++ [(ts1, user_started_viewing_file f v);
                        (ts2, user_stopped_viewing_file f (id v))])
    = Some (h2, st2)
    ∧ ∀ f', getFileViewers h2 st2 f' = getFileViewers h st f'.
Proof.
  intros Hrun Hts Hu.
  destruct (replay_stands_for history) as (hs & Hr & Hst).
  assert (hs = (h, st)) as -> by congruence.
  destruct (replay_stands_for
              (history ++ [(ts1, user_started_viewing_file f v);
                           (ts2, user_stopped_viewing_file f (id v))]))
    as ([h2 st2] & Hr2 & Hst2).
  exists h2, st2. split; [done |]. intros f'.
  rewrite (getFileViewers_stands_for _ _ _ _ Hst2).
  rewrite (getFileViewers_stands_for _ _ _ _ Hst).
  rewrite (getFileViewers_stands_for _ _ _ _ Hst) in Hu.
  change (history ++ [(ts1, user_started_viewing_file f v);
                      (ts2, user_stopped_viewing_file f (id v))])
    with (history ++ [(ts1, user_started_viewing_file f v)]
                  ++ [(ts2, user_stopped_viewing_file f (id v))]).
  rewrite app_assoc, !ideal_snoc. by apply ideal_receive_start_stop.
Qed.

Lemma started_then_stopped_restores_viewers_witness :
  let history := [([10; 11]%Z, file_viewers_updated "f1" [alice])] in
  let h := mkHeap [mkFileViewers "f1" 0 10; mkFileViewers "f1" 0 11] [[alice]] in
  let st := mkViewingState {["f1" := 1]} None in
  replay history = Some (h, st)
  ∧ ∃ h2 st2,
      replay (history ++ [([12; 13]%Z, user_started_viewing_file "f1" bob);
                          ([14; 15]%Z, user_stopped_viewing_file "f1" (id bob))])
      = Some (h2, st2)
      ∧ ∀ f', getFileViewers h2 st2 f' = getFileViewers h st f'.
Proof.
  assert (H1 : replay [([10; 11]%Z, file_viewers_updated "f1" [alice])]
               = Some (mkHeap [mkFileViewers "f1" 0 10; mkFileViewers "f1" 0 11]
                         [[alice]],
                       mkViewingState {["f1" := 1]} None))
    by (vm_compute; reflexivity).
  assert (H2 : ([14; 15]%Z : list Z) ≠ []) by done.
  assert (H3 : id bob ∉ id <$> getFileViewers
                 (mkHeap [mkFileViewers "f1" 0 10; mkFileViewers "f1" 0 11] [[alice]])
                 (mkViewingState {["f1" := 1]} None) "f1").
  { vm_compute. intros H. apply list_elem_of_singleton in H. discriminate. }
  exact (conj H1 (started_then_stopped_restores_viewers _ "f1" bob [12; 13]%Z [14; 15]%Z
                    _ _ H1 H2 H3)).
Defined.

End FeedFacts.

(** * Properties of the senders *)

Module OutboundFacts.

Import Socket Samples SocketProofs Outbound.

Lemma sock_emit_spec i ev d w k :
  socks w !! i = Some k →
  sock_emit i ev d w
  = mkWorld (<[i := mkSock (sock_token k) (sock_connected k) (sock_closed k)
                      (handlers k) (sent k ++ [(ev, d)])]> (socks w))
            (toasts w) (console w) (timers w) (calls w).
Proof. intros Hk. unfold sock_emit. by rewrite (update_sock_spec _ _ _ _ Hk). Qed.

Lemma socket_connected_spec s w i k :
  socket s = Some i → socks w !! i = Some k →
  socket_connected s w = sock_connected k.
Proof. intros Hs Hk. unfold socket_connected. by rewrite Hs, Hk. Qed.

Lemma emit_online ev d s w i k :
  socket s = Some i → socks w !! i = Some k → sock_connected k = true →
  emit ev d (s, w)
  = (s, mkWorld (<[i := mkSock (sock_token k) true (sock_closed k)
                          (handlers k) (sent k ++ [(ev, d)])]> (socks w))
                (toasts w) (console w) (timers w) (calls w)).
Proof.
  intros Hs Hk Hc. unfold emit.
  rewrite (socket_connected_spec _ _ _ _ Hs Hk), Hc, Hs.
  by rewrite (sock_emit_spec _ _ _ _ _ Hk), Hc.
Qed.

(** One request on a connected socket. *)
Lemma perform_online r s w i k :
  socket s = Some i → socks w !! i = Some k → sock_connected k = true →
  perform (s, w) r
  = (s, mkWorld (<[i := mkSock (sock_token k) true (sock_closed k)
                          (handlers k) (sent k ++ [packet_of r])]> (socks w))
                (toasts w) (console w ++ log_of r) (timers w) (calls w)).
Proof.
  intros Hs Hk Hc.
  destruct r; simpl perform; simpl packet_of; simpl log_of;
    rewrite ?app_nil_r;
    try (unfold notifyFileUploaded, startEditingFile, stopEditingFile,
           joinCollaboration, leaveCollaboration, sendNotification,
           checkUserOnline;
         by apply emit_online).
  - unfold startViewingFile.
    rewrite (socket_connected_spec _ _ _ _ Hs Hk), Hc, Hs.
    by rewrite (sock_emit_spec _ _ _ _ _ Hk), Hc.
  - unfold stopViewingFile.
    rewrite (socket_connected_spec _ _ _ _ Hs Hk), Hc, Hs.
    by rewrite (sock_emit_spec _ _ _ _ _ Hk), Hc.
  - unfold getOnlineUsers.
    rewrite (socket_connected_spec _ _ _ _ Hs Hk), Hc, Hs.
    rewrite (sock_emit_spec _ _ _ (console_out LogEmittingGetOnlineUsers w) k Hk).
    by rewrite Hc.
Qed.

Lemma perform_all_online rs : ∀ s w i k,
  socket s = Some i → socks w !! i = Some k → sock_connected k = true →
  foldl perform (s, w) rs
  = (s, mkWorld (<[i := mkSock (sock_token k) true (sock_closed k)
                          (handlers k) (sent k ++ (packet_of <$> rs))]> (socks w))
                (toasts w) (console w ++ concat (log_of <$> rs))
                (timers w) (calls w)).
Proof.
  induction rs as [| r rs IH]; intros s w i k Hs Hk Hc.
  - simpl. rewrite !app_nil_r. rewrite <- Hc.
    assert (mkSock (sock_token k) (sock_connected k) (sock_closed k)
              (handlers k) (sent k) = k) as -> by (by destruct k).
    rewrite list_insert_id by done. by rewrite world_eta.
  - simpl foldl. rewrite (perform_online r s w i k Hs Hk Hc).
    erewrite IH; [| exact Hs | by eapply insert_lookup_same | done].
    cbn [sock_token sock_connected sock_closed handlers sent socks toasts
         console timers calls].
    rewrite list_insert_insert_eq. simpl fmap. simpl concat.
    by rewrite <- !app_assoc.
Qed.

(** One request while the socket is not connected. *)
Lemma perform_offline r s w :
  socket_connected s w = false →
  perform (s, w) r = (s, console_out (warning_of r) w).
Proof.
  intros Hc.
  destruct r; simpl perform;
    unfold notifyFileUploaded, startEditingFile, stopEditingFile,
      joinCollaboration, leaveCollaboration, sendNotification, checkUserOnline,
      startViewingFile, stopViewingFile, getOnlineUsers, emit;
    by rewrite Hc.
Qed.

Lemma perform_all_offline rs : ∀ s w,
  socket_connected s w = false →
  foldl perform (s, w) rs
  = (s, mkWorld (socks w) (toasts w) (console w ++ (warning_of <$> rs))
                (timers w) (calls w)).
Proof.
  induction rs as [| r rs IH]; intros s w Hc.
  - simpl. by rewrite app_nil_r, world_eta.
  - simpl foldl. rewrite (perform_offline r s w Hc). rewrite IH by exact Hc.
    simpl. by rewrite <- app_assoc.
Qed.

(** X10.  Requests made while the current socket is connected go out as one
    packet each, in the order of the calls, on that socket; no toast is
    shown, no subscriber is called, and the service object is left as it
    is. *)
Theorem outbound_in_order rs s w i k :
  socket s = Some i → socks w !! i = Some k → sock_connected k = true →
  foldl perform (s, w) rs
  = (s, mkWorld (<[i := mkSock (sock_token k) true (sock_closed k)
                          (handlers k) (sent k ++ (packet_of <$> rs))]> (socks w))
                (toasts w) (console w ++ concat (log_of <$> rs))
                (timers w) (calls w)).
Proof. apply perform_all_online. Qed.

Lemma outbound_in_order_witness :
  let rs := [JoinCollaboration "r1"; StartEditingFile "f1"; GetOnlineUsers;
             SendNotification "u2" "info" "hello" None; StopEditingFile "f1"] in
  socket online_service = Some 0
  ∧ (foldl perform (online_service, online_world) rs).2
    = mkWorld
        [mkSock "tok" true false
           (lifecycle_regs ++ wire_regs ++ wire_regs) (packet_of <$> rs)]
        [ToastConnected] [LogEmittingGetOnlineUsers] [] [].
Proof.
  split; [reflexivity |].
  exact (f_equal snd
           (outbound_in_order
              [JoinCollaboration "r1"; StartEditingFile "f1"; GetOnlineUsers;
               SendNotification "u2" "info" "hello" None; StopEditingFile "f1"]
              online_service online_world 0
              (mkSock "tok" true false (lifecycle_regs ++ wire_regs ++ wire_regs) [])
              eq_refl eq_refl eq_refl)).
Defined.

(** X11.  Requests made while the current socket is not connected, or while there
    is none, are all dropped: every sender leaves one warning on the console
    and nothing else changes; nothing is kept for later. *)
Theorem outbound_dropped_offline rs s w :
  socket_connected s w = false →
  foldl perform (s, w) rs
  = (s, mkWorld (socks w) (toasts w) (console w ++ (warning_of <$> rs))
                (timers w) (calls w)).
Proof. apply perform_all_offline. Qed.

Lemma outbound_dropped_offline_witness :
  let rs := [CheckUserOnline "u2"; NotifyFileUploaded (Str "file") None;
             GetOnlineUsers; LeaveCollaboration "r1"] in
  socket_connected dialing_service dialing_world = false
  ∧ socks (foldl perform (dialing_service, dialing_world) rs).2 = socks dialing_world
  ∧ console (foldl perform (dialing_service, dialing_world) rs).2
    = [WarnCannotEmit "check-user-online"; WarnCannotEmit "file-uploaded";
       WarnCannotGetOnlineUsers; WarnCannotEmit "leave-collaboration"].
Proof.
  split; [reflexivity |].
  pose proof (outbound_dropped_offline
                [CheckUserOnline "u2"; NotifyFileUploaded (Str "file") None;
                 GetOnlineUsers; LeaveCollaboration "r1"]
                dialing_service dialing_world eq_refl) as H.
  split; [exact (f_equal (λ st, socks st.2) H) | exact (f_equal (λ st, console st.2) H)].
Defined.

End OutboundFacts.

(** * Properties of the provider *)

Module HooksFacts.

Import Viewing Socket Provider Samples ViewingProofs SocketProofs Feed FeedFacts
  Outbound OutboundFacts Hooks.

(** ** [startViewing] and [stopViewing] as requests to the service *)

Lemma startViewing_from_requests captured now f c :
  startViewing_from captured now f c
  = let st := foldl perform (service c, world c)
                (leaving (currentlyViewing captured) f ++ [StartViewingFile f]) in
    Some (mkClient (heap c)
            (mkViewingState (fileViewers (state c)) (Some f)) st.1 st.2).
Proof.
  unfold startViewing_from, leaving.
  destruct (currentlyViewing captured) as [cur|];
    [destruct (truthy (Some cur) && negb (bool_decide (cur = f))) |];
    reflexivity.
Qed.

Lemma startViewing_requests now f c :
  startViewing now f c
  = let st := foldl perform (service c, world c)
                (leaving (currentlyViewing (state c)) f ++ [StartViewingFile f]) in
    Some (mkClient (heap c)
            (mkViewingState (fileViewers (state c)) (Some f)) st.1 st.2).
Proof. apply startViewing_from_requests. Qed.

Lemma stopViewing_requests now f c :
  stopViewing now f c
  = let st := foldl perform (service c, world c) [StopViewingFile f] in
    Some (mkClient (heap c)
            (mkViewingState (fileViewers (state c))
               (if bool_decide (currentlyViewing (state c) = Some f)
                then None else currentlyViewing (state c)))
            st.1 st.2).
Proof.
  unfold stopViewing, stopViewing_from.
  destruct (bool_decide (currentlyViewing (state c) = Some f)); [reflexivity |].
  cbn zeta. by rewrite state_eta.
Qed.

(** ** What the packets say and what the page shows *)

Lemma announced_app ps qs : announced (ps ++ qs) = foldl announce (announced ps) qs.
Proof. unfold announced. by rewrite foldl_app. Qed.

Lemma announce_start acc f :
  announce acc ("start-viewing-file", Obj [("fileId", Str f)]) = acc ∪ {[f]}.
Proof. reflexivity. Qed.

Lemma announce_stop acc f :
  announce acc ("stop-viewing-file", Obj [("fileId", Str f)]) = acc ∖ {[f]}.
Proof. reflexivity. Qed.

Lemma truthy_nonempty f : f ≠ "" → truthy (Some f) = true.
Proof. intros Hf. unfold truthy. by rewrite bool_decide_eq_false_2. Qed.

(** The packets [startViewing] sends turn the announcement of the file
    shown so far into that of the new file. *)
Lemma leaving_then_start (cv : option string) f (acc : gset string) :
  cv ≠ Some "" →
  acc = match cv with Some g => {[g]} | None => ∅ end →
  foldl announce acc (packet_of <$> (leaving cv f ++ [StartViewingFile f])) = {[f]}.
Proof.
  intros Hcv ->. unfold leaving. destruct cv as [cur|].
  - rewrite truthy_nonempty by congruence. cbn [andb].
    destruct (decide (cur = f)) as [-> | Hne].
    + rewrite bool_decide_eq_true_2 by done. simpl.
      rewrite announce_start. apply union_idemp_L.
    + rewrite bool_decide_eq_false_2 by done. simpl.
      rewrite announce_stop, announce_start.
      by rewrite difference_diag_L, union_empty_l_L.
  - simpl. rewrite announce_start. apply union_empty_l_L.
Qed.

Lemma stop_packet (cv : option string) f (acc : gset string) :
  acc = match cv with Some g => {[g]} | None => ∅ end →
  foldl announce acc (packet_of <$> [StopViewingFile f])
  = match (if bool_decide (cv = Some f) then None else cv) with
    | Some g => {[g]}
    | None => ∅
    end.
Proof.
  intros ->. simpl. rewrite announce_stop.
  destruct cv as [g|].
  - destruct (decide (g = f)) as [-> | Hne].
    + rewrite bool_decide_eq_true_2 by done. apply difference_diag_L.
    + rewrite bool_decide_eq_false_2 by congruence.
      apply difference_disjoint_L, disjoint_singleton_l.
      by apply not_elem_of_singleton.
  - rewrite bool_decide_eq_false_2 by done.
    apply difference_disjoint_L, disjoint_empty_l.
Qed.

Lemma sent_now_spec c i k :
  socket (service c) = Some i → socks (world c) !! i = Some k → sent_now c = sent k.
Proof. intros Hs Hk. unfold sent_now. rewrite Hs. simpl. by rewrite Hk. Qed.

(** The client after a list of requests made online. *)
Lemma requests_in_step h st s w i k rs :
  socket s = Some i → socks w !! i = Some k → sock_connected k = true →
  let r := foldl perform (s, w) rs in
  (∃ i k', socket r.1 = Some i ∧ socks r.2 !! i = Some k' ∧ sock_connected k' = true)
  ∧ sent_now (mkClient h st r.1 r.2) = sent k ++ (packet_of <$> rs).
Proof.
  intros Hs Hk Hc. rewrite (perform_all_online rs s w i k Hs Hk Hc).
  cbn zeta. cbn [fst snd].
  assert (Hk' : <[i := mkSock (sock_token k) true (sock_closed k) (handlers k)
                         (sent k ++ (packet_of <$> rs))]> (socks w) !! i
                = Some (mkSock (sock_token k) true (sock_closed k) (handlers k)
                          (sent k ++ (packet_of <$> rs))))
    by (by eapply insert_lookup_same).
  split.
  - by exists i, (mkSock (sock_token k) true (sock_closed k) (handlers k)
                    (sent k ++ (packet_of <$> rs))).
  - unfold sent_now. cbn [service world]. rewrite Hs.
    cbn [mbind option_bind socks]. by rewrite Hk'.
Qed.

(** A render followed by a call of the functions it made. *)
Lemma page_run_in_step c r p :
  in_step c → page_file p.2 ≠ "" →
  ∃ c', foldl page_run (Some (mkPage c r)) [Render; Call p.1 p.2]
        = Some (mkPage c' (state c))
        ∧ in_step c'.
Proof.
  intros ((i & k & Hs & Hk & Hc) & Hann & Hcv) Hf.
  destruct c as [h st s w]. destruct p as [now [f | f]];
    cbn [foldl page_run mbind option_bind client rendered state fst snd page_file] in *.
  - rewrite startViewing_from_requests. eexists. split; [reflexivity |].
    destruct (requests_in_step h (mkViewingState (fileViewers st) (Some f)) s w i k
                (leaving (currentlyViewing st) f ++ [StartViewingFile f]) Hs Hk Hc)
      as [Hon Hsent].
    split; [exact Hon |]. split; [| simpl; congruence].
    cbn [heap state service world] in *. rewrite Hsent, announced_app.
    unfold shown_as_viewed. simpl.
    apply leaving_then_start; [done |].
    rewrite <- (sent_now_spec (mkClient h st s w) i k Hs Hk). exact Hann.
  - change (stopViewing_from st now f (mkClient h st s w))
      with (stopViewing now f (mkClient h st s w)).
    rewrite stopViewing_requests. eexists. split; [reflexivity |].
    destruct (requests_in_step h
                (mkViewingState (fileViewers st)
                   (if bool_decide (currentlyViewing st = Some f)
                    then None else currentlyViewing st)) s w i k
                [StopViewingFile f] Hs Hk Hc)
      as [Hon Hsent].
    split; [exact Hon |]. split.
    + cbn [heap state service world] in *. rewrite Hsent, announced_app.
      unfold shown_as_viewed. cbn [state currentlyViewing].
      apply stop_packet.
      rewrite <- (sent_now_spec (mkClient h st s w) i k Hs Hk). exact Hann.
    + simpl. by destruct (bool_decide (currentlyViewing st = Some f)).
Qed.

Lemma page_runs_in_step ps : ∀ c r,
  in_step c → Forall (λ p, page_file p.2 ≠ "") ps →
  ∃ pg', foldl page_run (Some (mkPage c r)) (from_latest_render ps) = Some pg'
         ∧ in_step (client pg').
Proof.
  induction ps as [| p ps IH]; intros c r Hc Hps.
  - by exists (mkPage c r).
  - apply Forall_cons in Hps as [Hp Hps].
    destruct (page_run_in_step c r p Hc Hp) as (c1 & Hrun & Hc1).
    destruct (IH c1 (state c) Hc1 Hps) as (pg' & Hruns & Hpg').
    exists pg'. split; [| done].
    change (from_latest_render (p :: ps))
      with ([Render; Call p.1 p.2] ++ from_latest_render ps).
    by rewrite foldl_app, Hrun.
Qed.

(** X12.  On a page whose current socket is connected and whose packets so
    far announce exactly the file it shows as currently viewed, whatever
    files a consumer opens and closes with [startViewing] and [stopViewing],
    each call made with the functions of a render that follows the call
    before it, the packets sent announce exactly the file the page shows as
    currently viewed: at most one file is announced, and it is the one of
    the pointer. *)
Theorem announced_file_is_the_pointer ps c r i k :
  socket (service c) = Some i → socks (world c) !! i = Some k →
  sock_connected k = true →
  announced (sent_now c) = shown_as_viewed c →
  currentlyViewing (state c) ≠ Some "" →
  Forall (λ p, page_file p.2 ≠ "") ps →
  ∃ pg', foldl page_run (Some (mkPage c r)) (from_latest_render ps) = Some pg'
         ∧ announced (sent_now (client pg')) = shown_as_viewed (client pg')
         ∧ socket_connected (service (client pg')) (world (client pg')) = true.
Proof.
  intros Hs Hk Hc Hann Hcv Hps.
  destruct (page_runs_in_step ps c r)
    as (pg' & Hrun & (i' & k' & Hs' & Hk' & Hc') & Hann' & _); [| done |].
  { split; [by exists i, k | done]. }
  exists pg'. split; [done |]. split; [done |].
  by rewrite (socket_connected_spec _ _ _ _ Hs' Hk').
Qed.

Lemma announced_file_is_the_pointer_witness :
  let c := mkClient initialHeap initialState online_service online_world in
  let ps := [(1%Z, PageStartViewing "f1"); (2%Z, PageStartViewing "f2");
             (3%Z, PageStopViewing "f1"); (4%Z, PageStopViewing "f2")] in
  (announced (sent_now c) = shown_as_viewed c
   ∧ socket_connected (service c) (world c) = true)
  ∧ ∃ pg', foldl page_run (Some (mkPage c initialState)) (from_latest_render ps)
           = Some pg'
           ∧ announced (sent_now (client pg')) = shown_as_viewed (client pg')
           ∧ socket_connected (service (client pg')) (world (client pg')) = true.
Proof.
  split; [split; reflexivity |].
  apply (announced_file_is_the_pointer
           [(1%Z, PageStartViewing "f1"); (2%Z, PageStartViewing "f2");
            (3%Z, PageStopViewing "f1"); (4%Z, PageStopViewing "f2")]
           (mkClient initialHeap initialState online_service online_world)
           initialState 0
           (mkSock "tok" true false (lifecycle_regs ++ wire_regs ++ wire_regs) []));
    try reflexivity.
  - simpl. congruence.
  - repeat constructor; simpl; congruence.
Defined.

(** Two calls made with the functions of one render both read the pointer
    of that render: the second [startViewing] does not see the file the
    first one opened and sends no ['stop-viewing-file'] for it, so the
    packets announce two files while the page shows one. *)
Example calls_from_one_render_announce_two :
  let c := mkClient initialHeap initialState online_service online_world in
  let steps := [Render; Call 1 (PageStartViewing "f1"); Call 2 (PageStartViewing "f2")] in
  let r := foldl page_run (Some (mkPage c initialState)) steps in
  (λ pg, currentlyViewing (state (client pg))) <$> r = Some (Some "f2")
  ∧ (λ pg, sent_now (client pg)) <$> r
    = Some [("start-viewing-file", Obj [("fileId", Str "f1")]);
            ("start-viewing-file", Obj [("fileId", Str "f2")])]
  ∧ (λ pg, bool_decide (announced (sent_now (client pg))
                        = shown_as_viewed (client pg))) <$> r
    = Some false.
Proof.
  split; [vm_compute; reflexivity |]. split; vm_compute; reflexivity.
Qed.

(** ** Opening a file while offline *)

Lemma socket_connected_socks s w w' :
  socks w' = socks w → socket_connected s w' = socket_connected s w.
Proof. intros H. unfold socket_connected. by rewrite H. Qed.

(** X13.  A file opened with [startViewing] while the service is not connected
    becomes the file the page shows as viewed, and no packet announces it:
    not when it is opened, and not when the connection is made afterwards. *)
Theorem opened_offline_is_never_announced
    (behaviour : nat → Value → CbRun) now f tok c :
  isConnecting (service c) = false →
  socket_connected (service c) (world c) = false →
  ∃ c1, startViewing now f c = Some c1
        ∧ isCurrentlyViewing f c1 = true
        ∧ socks (world c1) = socks (world c)
        ∧ let st2 := transport_connect behaviour (length (socks (world c)))
                       (connect tok (service c1, world c1)) in
          connected st2.1 st2.2 = true
          ∧ sent_now (mkClient (heap c1) (state c1) st2.1 st2.2) = [].
Proof.
  destruct c as [h st s w]. cbn [service world heap state]. intros Hing Hoff.
  rewrite startViewing_requests. cbn [service world heap state].
  rewrite (perform_all_offline _ s w Hoff). cbn zeta. cbn [fst snd].
  eexists. split; [reflexivity |].
  cbn [service world heap state].
  split; [by apply bool_decide_eq_true_2 |]. split; [reflexivity |].
  set (w1 := mkWorld (socks w) (toasts w) _ (timers w) (calls w)).
  assert (Hoff1 : socket_connected s w1 = false)
    by (by rewrite (socket_connected_socks s w w1)).
  rewrite (connect_fresh tok s w1 Hing Hoff1). cbn [socks w1].
  set (k := mkSock tok false false (lifecycle_regs ++ wire_regs) []).
  rewrite (transport_connect_spec behaviour (length (socks w)) 1 _ _ k);
    [| reflexivity | by apply list_lookup_middle | reflexivity | reflexivity].
  cbn [fst snd]. unfold connected, socket_connected, sent_now.
  cbn [isConnected socket socks service world mbind option_bind].
  rewrite (insert_lookup_same _ k _ _ (list_lookup_middle _ [] k _ eq_refl)).
  done.
Qed.

Lemma opened_offline_is_never_announced_witness :
  let c := mkClient initialHeap initialState newService newWorld in
  (isConnecting (service c) = false ∧ socket_connected (service c) (world c) = false)
  ∧ ∃ c1, startViewing 5 "f1" c = Some c1
          ∧ isCurrentlyViewing "f1" c1 = true
          ∧ socks (world c1) = socks (world c)
          ∧ let st2 := transport_connect observers (length (socks (world c)))
                         (connect "tok" (service c1, world c1)) in
            connected st2.1 st2.2 = true
            ∧ sent_now (mkClient (heap c1) (state c1) st2.1 st2.2) = [].
Proof.
  split; [by split |].
  exact (opened_offline_is_never_announced observers 5 "f1" "tok"
           (mkClient initialHeap initialState newService newWorld) eq_refl eq_refl).
Defined.

(** ** The listener effect and its cleanup *)



(** ** The viewer count of a file *)

Lemma getCurrentViewersCount_length f c :
  getCurrentViewersCount f c = length (getFileViewers (heap c) (state c) f).
Proof.
  unfold getCurrentViewersCount, getFileViewers.
  by destruct (view (heap c) (state c) !! f).
Qed.

Lemma length_upsert v vs :
  length (upsert v vs)
  = length vs + (if bool_decide (id v ∈ id <$> vs) then 0 else 1).
Proof.
  unfold upsert. destruct (findIndex (same_id v) vs) as [i|] eqn:E.
  - apply findIndex_Some in E as (x & Hx & Hid & _). apply same_id_true in Hid.
    rewrite length_insert, bool_decide_eq_true_2; [lia |].
    rewrite <- Hid. apply list_elem_of_fmap_2. by eapply list_elem_of_lookup_2.
  - apply findIndex_None in E.
    rewrite length_app, bool_decide_eq_false_2; [done |].
    intros (x & Hid & Hx)%list_elem_of_fmap.
    eapply Forall_forall in E; [| exact Hx].
    apply same_id_false in E. congruence.
Qed.

Lemma ideal_started_viewers m ts f v :
  ts ≠ [] →
  viewers_of (ideal_receive m (ts, user_started_viewing_file f v)) f
  = upsert v (viewers_of m f).
Proof.
  intros Hts. destruct ts as [| t ts]; [done |].
  rewrite (alike_viewers_of _ _ f
             (ideal_receive_once m m (t :: ts, user_started_viewing_file f v)
                (alike_refl m))).
  simpl. rewrite take_0. unfold ideal_receive, ideal_step, viewers_of. simpl.
  destruct (shown m !! f) as [e|]; simpl; by rewrite lookup_insert_eq.
Qed.

(** X15.  A ['user-started-viewing-file'] event makes the viewers of its file the
    old list with the viewer pushed, or overwritten where an entry with the
    same [id] stood; the count the provider reports grows by one for a new
    [id] and stays for a known one, however many times the event is
    dispatched. *)
Theorem started_adds_at_most_one history ts f v h st :
  replay history = Some (h, st) → ts ≠ [] →
  ∃ h' st',
    replay (history ++ [(ts, user_started_viewing_file f v)]) = Some (h', st')
    ∧ getFileViewers h' st' f = upsert v (getFileViewers h st f)
    ∧ ∀ s w,
        getCurrentViewersCount f (mkClient h' st' s w)
        = getCurrentViewersCount f (mkClient h st s w)
          + (if bool_decide (id v ∈ id <$> getFileViewers h st f) then 0 else 1).
Proof.
  intros Hrun Hts.
  destruct (replay_stands_for history) as (hs & Hr & Hst).
  assert (hs = (h, st)) as -> by congruence.
  destruct (replay_stands_for (history ++ [(ts, user_started_viewing_file f v)]))
    as ([h' st'] & Hr' & Hst').
  exists h', st'. split; [done |].
  assert (Hv : getFileViewers h' st' f = upsert v (getFileViewers h st f)).
  { rewrite (getFileViewers_stands_for _ _ _ _ Hst').
    rewrite (getFileViewers_stands_for _ _ _ _ Hst).
    rewrite ideal_snoc. by apply ideal_started_viewers. }
  split; [exact Hv |]. intros s w.
  rewrite !getCurrentViewersCount_length. cbn [heap state].
  rewrite Hv. apply length_upsert.
Qed.

Lemma started_adds_at_most_one_witness :
  let history := [([10; 11]%Z, file_viewers_updated "f1" [alice])] in
  let h := mkHeap [mkFileViewers "f1" 0 10; mkFileViewers "f1" 0 11] [[alice]] in
  let st := mkViewingState {["f1" := 1]} None in
  replay history = Some (h, st)
  ∧ ∃ h' st',
      replay (history ++ [([12; 13]%Z, user_started_viewing_file "f1" alice2)])
      = Some (h', st')
      ∧ getFileViewers h' st' "f1" = [alice2]
      ∧ ∀ s w, getCurrentViewersCount "f1" (mkClient h' st' s w) = 1.
Proof.
  assert (H1 : replay [([10; 11]%Z, file_viewers_updated "f1" [alice])]
               = Some (mkHeap [mkFileViewers "f1" 0 10; mkFileViewers "f1" 0 11]
                         [[alice]],
                       mkViewingState {["f1" := 1]} None))
    by (vm_compute; reflexivity).
  assert (H2 : ([12; 13]%Z : list Z) ≠ []) by done.
  split; [exact H1 |].
  exact (started_adds_at_most_one _ [12; 13]%Z "f1" alice2 _ _ H1 H2).
Defined.

End HooksFacts.

(** * Properties of the service over histories *)

Module ServiceFacts.

Import Socket Samples SocketProofs Outbound OutboundFacts Relay.

(** ** [connect] and [disconnect] called twice *)

(** X16.  A second [connect] right after a first changes nothing, whatever the
    state and the tokens: the call in flight wins and the second token is
    dropped. *)
Theorem connect_twice_is_connect_once t1 t2 st :
  connect t2 (connect t1 st) = connect t1 st.
Proof.
  destruct st as [s w].
  destruct (isConnecting s) eqn:Hing.
  { rewrite (connect_noop_when_busy t1 s w) by (by left).
    apply connect_noop_when_busy. by left. }
  destruct (socket_connected s w) eqn:Hcon.
  { rewrite (connect_noop_when_busy t1 s w) by (by right).
    apply connect_noop_when_busy. by right. }
  rewrite (connect_fresh t1 s w Hing Hcon).
  apply connect_noop_when_busy. by left.
Qed.

Section Teardown.

Variable behaviour : nat → Value → CbRun.

(** X17.  [disconnect] in any state a page can reach is silent and final: it
    shows no toast, calls no subscriber and writes nothing to the console
    (the handlers are removed before the socket is closed, so the closure
    for ['disconnect'] does not run), the service reports not connected, and
    a second [disconnect] changes nothing. *)
Theorem disconnect_is_silent_and_final history :
  let st := after behaviour history in
  let st' := disconnect behaviour st in
  toasts st'.2 = toasts st.2
  ∧ calls st'.2 = calls st.2
  ∧ console st'.2 = console st.2
  ∧ timers st'.2 = timers st.2
  ∧ connected st'.1 st'.2 = false
  ∧ disconnect behaviour st' = st'.
Proof.
  intros st st'. subst st'.
  pose proof (coherent_after behaviour history) as [_ Hin]. fold st in Hin.
  destruct st as [s w]. cbn [fst snd] in Hin.
  destruct (socket s) as [i|] eqn:Hs.
  - destruct (lookup_lt_is_Some_2 _ _ (Hin i eq_refl)) as [k Hk].
    rewrite (disconnect_spec behaviour s w i k Hs Hk). cbn [fst snd].
    repeat split; reflexivity.
  - rewrite (disconnect_without_socket behaviour s w Hs). cbn [fst snd].
    repeat split; try reflexivity.
    + unfold connected, socket_connected. rewrite Hs. apply andb_false_r.
    + by apply disconnect_without_socket.
Qed.

(** ** Failed connection attempts *)

Lemma transport_connect_error_spec i m error s w k :
  socks w !! i = Some k → sock_closed k = false →
  handlers k = lifecycle_regs ++ concat (replicate m wire_regs) →
  transport_connect_error behaviour i error (s, w)
  = (mkService (socket s) (isConnected s) (listeners s)
               (connectionAttempts s + 1) false,
     mkWorld (socks w)
             (toasts w ++ if bool_decide (maxReconnectAttempts ≤ connectionAttempts s + 1)
                          then [ToastConnectFailed] else [])
             (console w ++ [ErrorConnection error]) (timers w) (calls w)).
Proof.
  intros Hk Hcl Hh. unfold transport_connect_error. cbn [fst snd].
  rewrite (sock_open_spec i w k Hk), Hcl. cbn [negb].
  rewrite (deliver_spec behaviour i _ _ s w k Hk).
  rewrite (handlers_for_lifecycle k m "connect_error" OnConnectError);
    [| unfold lifecycle_regs; set_solver | done].
  cbn [run_handlers handler_throws]. unfold run_handler. cbn [fst snd].
  unfold with_connectionAttempts, with_isConnecting.
  cbn [socket isConnected listeners connectionAttempts isConnecting].
  destruct (bool_decide (maxReconnectAttempts ≤ connectionAttempts s + 1)).
  - reflexivity.
  - unfold console_out. cbn [socks toasts console timers calls].
    by rewrite app_nil_r.
Qed.

Lemma failure_toasts_step (a n : nat) :
  replicate (a + n - Nat.max a (maxReconnectAttempts - 1)) ToastConnectFailed
  ++ (if bool_decide (maxReconnectAttempts ≤ a + n + 1)
      then [ToastConnectFailed] else [])
  = replicate (a + S n - Nat.max a (maxReconnectAttempts - 1)) ToastConnectFailed.
Proof.
  unfold maxReconnectAttempts. case_bool_decide.
  - replace (a + S n - Nat.max a (5 - 1))
      with (S (a + n - Nat.max a (5 - 1))) by lia.
    by rewrite replicate_S_end.
  - replace (a + S n - Nat.max a (5 - 1)) with 0 by lia.
    replace (a + n - Nat.max a (5 - 1)) with 0 by lia.
    done.
Qed.

Lemma connect_errors_spec i m error s w k n :
  socks w !! i = Some k → sock_closed k = false →
  handlers k = lifecycle_regs ++ concat (replicate m wire_regs) →
  Nat.iter (S n) (transport_connect_error behaviour i error) (s, w)
  = (mkService (socket s) (isConnected s) (listeners s)
               (connectionAttempts s + S n) false,
     mkWorld (socks w)
             (toasts w
              ++ replicate (connectionAttempts s + S n
                            - Nat.max (connectionAttempts s) (maxReconnectAttempts - 1))
                   ToastConnectFailed)
             (console w ++ replicate (S n) (ErrorConnection error))
             (timers w) (calls w)).
Proof.
  intros Hk Hcl Hh. induction n as [| n IH].
  - rewrite Nat.iter_succ. change (Nat.iter 0 ?f ?x) with x.
    rewrite (transport_connect_error_spec i m error s w k Hk Hcl Hh).
    rewrite <- (failure_toasts_step (connectionAttempts s) 0).
    replace (connectionAttempts s + 0 - Nat.max (connectionAttempts s)
                                          (maxReconnectAttempts - 1)) with 0 by lia.
    by rewrite Nat.add_0_r.
  - rewrite Nat.iter_succ, IH.
    match goal with
    | |- transport_connect_error _ _ _ (?s1, ?w1) = _ =>
        rewrite (transport_connect_error_spec i m error s1 w1 k Hk Hcl Hh)
    end.
    cbn [socket isConnected listeners connectionAttempts socks toasts console
         timers calls].
    rewrite <- !app_assoc.
    replace (connectionAttempts s + S n + 1) with (connectionAttempts s + S (S n))
      by lia.
    rewrite <- (failure_toasts_step (connectionAttempts s) (S n)).
    replace (connectionAttempts s + S n + 1) with (connectionAttempts s + S (S n))
      by lia.
    by rewrite <- replicate_S_end.
Qed.

(** X18.  After [n] failed attempts in a row on the current socket the counter
    has grown by [n], each failure is on the console, the failure toast has
    been shown at every failure that brought the counter to the limit of
    five or beyond, and from the limit on [shouldReconnect] answers no. *)
Theorem connect_errors_count i m error st n :
  attached i m st →
  let st' := Nat.iter n (transport_connect_error behaviour i error) st in
  connectionAttempts st'.1 = connectionAttempts st.1 + n
  ∧ toasts st'.2
    = toasts st.2
      ++ replicate (connectionAttempts st.1 + n
                    - Nat.max (connectionAttempts st.1) (maxReconnectAttempts - 1))
           ToastConnectFailed
  ∧ console st'.2 = console st.2 ++ replicate n (ErrorConnection error)
  ∧ (maxReconnectAttempts ≤ connectionAttempts st.1 + n →
     shouldReconnect st'.1 = false)
  ∧ attached i m st'.
Proof.
  destruct st as [s w]. intros Hatt st'. subst st'.
  pose proof Hatt as (Hs & k & Hk & Hcl & Hh). cbn [fst snd] in *.
  destruct n as [| n].
  - change (Nat.iter 0 ?f ?x) with x. cbn [fst snd]. rewrite Nat.add_0_r.
    replace (connectionAttempts s - Nat.max (connectionAttempts s)
                                      (maxReconnectAttempts - 1)) with 0 by lia.
    rewrite !app_nil_r.
    split; [done |]. split; [done |]. split; [done |]. split; [| exact Hatt].
    intros Hmax. unfold shouldReconnect.
    rewrite (bool_decide_eq_false_2 (connectionAttempts s < maxReconnectAttempts))
      by lia.
    apply andb_false_r.
  - rewrite (connect_errors_spec i m error s w k n Hk Hcl Hh). cbn [fst snd].
    cbn [connectionAttempts toasts console].
    split; [done |]. split; [done |]. split; [done |]. split.
    + intros Hmax. unfold shouldReconnect.
      cbn [connectionAttempts isConnected isConnecting].
      rewrite bool_decide_eq_false_2 by lia. apply andb_false_r.
    + split; [exact Hs |]. by exists k.
Qed.

End Teardown.

Lemma connect_errors_count_witness :
  attached 0 1 (dialing_service, dialing_world)
  ∧ connectionAttempts
      (Nat.iter 6 (transport_connect_error observers 0 Undefined)
         (dialing_service, dialing_world)).1 = 6
  ∧ toasts
      (Nat.iter 6 (transport_connect_error observers 0 Undefined)
         (dialing_service, dialing_world)).2
    = [ToastConnectFailed; ToastConnectFailed].
Proof.
  assert (H : attached 0 1 (dialing_service, dialing_world)).
  { split; [reflexivity |]. eexists. split; [reflexivity |]. by split. }
  split; [exact H |].
  pose proof (connect_errors_count observers 0 1 Undefined (dialing_service, dialing_world) 6 H)
    as (H1 & H2 & _).
  exact (conj H1 H2).
Defined.

(** ** What a step leaves alone *)

Lemma kept_refl st : kept st st.
Proof. by repeat split. Qed.

Lemma kept_trans st1 st2 st3 : kept st1 st2 → kept st2 st3 → kept st1 st3.
Proof.
  unfold kept. intros (A1 & A2 & A3 & A4) (B1 & B2 & B3 & B4).
  rewrite B1, B2, B3, B4. done.
Qed.

Lemma kept_foldl {A} (f : Service * World → A → Service * World) (l : list A) st :
  (∀ st x, kept st (f st x)) → kept st (foldl f st l).
Proof.
  intros Hf. revert st. induction l as [| x l IH]; intros st; [apply kept_refl |].
  simpl. eapply kept_trans; [apply Hf | apply IH].
Qed.

Lemma foldl_run_op_socket ops : ∀ s, socket (foldl run_op s ops) = socket s.
Proof.
  induction ops as [| op ops IH]; intros s; [done |].
  simpl. rewrite IH. by destruct (run_op_frame s op) as [-> _].
Qed.

Section Relaying.

Variable behaviour : nat → Value → CbRun.

Lemma call_listener_kept ev d st k : kept st (call_listener behaviour ev d st k).
Proof.
  destruct st as [s w]. unfold call_listener.
  destruct (listeners s !! ev ≫= (λ callbacks, callbacks !! k)) as [cb|];
    [| apply kept_refl].
  destruct (cb_throws (behaviour cb d)); repeat split; cbn [fst snd];
    by rewrite ?foldl_run_op_socket.
Qed.

Lemma triggerEvent_kept ev d st : kept st (triggerEvent behaviour ev d st).
Proof.
  destruct st as [s w]. unfold triggerEvent.
  destruct (listeners s !! ev) as [cbs|]; [| by repeat split].
  destruct (bool_decide (0 < length cbs)); [| by repeat split].
  apply kept_foldl. intros. apply call_listener_kept.
Qed.




End Relaying.


(** ** The shape of the sockets *)

Lemma kept_shaped st st' : kept st st' → shaped st → shaped st'.
Proof.
  intros (Hs & Hk & _) [Hall Hcur]. split.
  - by rewrite Hk.
  - intros i Hi. rewrite Hk. apply Hcur. by rewrite <- Hs.
Qed.

(** Replacing one socket by one of the right shape. *)
Lemma shaped_insert s s' w w' i k' :
  shaped (s, w) → socket s' = socket s → socks w' = <[i := k']> (socks w) →
  sock_shape k' → sock_closed k' = false →
  shaped (s', w').
Proof.
  intros [Hall Hcur] Hs Hw Hshape Hopen. cbn [fst snd] in *. split; cbn [fst snd].
  - rewrite Hw. destruct (decide (i < length (socks w))) as [Hlt | Hge].
    + by apply Forall_insert.
    + by rewrite list_insert_ge by lia.
  - intros j Hj. rewrite Hs in Hj. destruct (Hcur j Hj) as (k & Hk & Hcl).
    rewrite Hw. destruct (decide (j = i)) as [-> | Hne].
    + exists k'. split; [| done]. by eapply insert_lookup_same.
    + exists k. by rewrite list_lookup_insert_ne.
Qed.

Lemma shape_open_of k k' :
  sock_shape k → sock_closed k = false →
  sock_closed k' = false → handlers k' = handlers k → sock_shape k'.
Proof.
  intros [[_ [m Hm]] | [Hcl _]] Hopen Hopen' Hh; [| congruence].
  left. split; [done |]. exists m. by rewrite Hh.
Qed.

Lemma shaped_lookup st i k :
  shaped st → socks st.2 !! i = Some k → sock_shape k.
Proof. intros [Hall _] Hk. by eapply Forall_lookup_1 in Hall. Qed.

(** The senders. *)
Lemma perform_shaped r st : shaped st → shaped (perform st r).
Proof.
  destruct st as [s w]. intros Hsh.
  destruct (socket_connected s w) eqn:Hcon.
  - unfold socket_connected in Hcon.
    destruct (socket s) as [i|] eqn:Hs; [| done].
    destruct (socks w !! i) as [k|] eqn:Hk; [| done].
    destruct (proj2 Hsh i Hs) as (k0 & Hk0 & Hopen). cbn [fst snd] in Hk0.
    assert (k0 = k) as -> by congruence.
    rewrite (perform_online r s w i k Hs Hk Hcon).
    eapply (shaped_insert s s w _ i); [exact Hsh | done | reflexivity | | done].
    eapply (shape_open_of k); [by eapply (shaped_lookup (s, w)) | done | done | done].
  - rewrite (perform_offline r s w Hcon).
    eapply kept_shaped; [| exact Hsh]. by repeat split.
Qed.

Lemma setupEventListeners_shaped st : shaped st → shaped (setupEventListeners st).
Proof.
  destruct st as [s w]. intros Hsh.
  destruct (socket s) as [i|] eqn:Hs.
  - destruct (proj2 Hsh i Hs) as (k & Hk & Hopen). cbn [fst snd] in Hk.
    rewrite (setupEventListeners_spec s w i k Hs Hk).
    eapply (shaped_insert s s w _ i); [exact Hsh | done | reflexivity | | done].
    destruct (shaped_lookup (s, w) i k Hsh Hk) as [[_ [m Hm]] | [Hcl _]];
      [| congruence].
    left. split; [done |]. exists (S m). cbn [handlers].
    by rewrite Hm, <- app_assoc, concat_replicate_S_end.
  - unfold setupEventListeners. by rewrite Hs.
Qed.

Lemma reregisterListeners_shaped st : shaped st → shaped (reregisterListeners st).
Proof.
  destruct st as [s w]. intros Hsh. unfold reregisterListeners.
  destruct (socket s); [| done]. by apply setupEventListeners_shaped.
Qed.

(** Changes of the service object that keep its socket. *)
Lemma shaped_service s s' w :
  socket s' = socket s → shaped (s, w) → shaped (s', w).
Proof. intros Hs. apply kept_shaped. by repeat split. Qed.

Lemma shaped_world s w w' :
  socks w' = socks w → shaped (s, w) → shaped (s, w').
Proof.
  intros Hw [Hall Hcur]. split; cbn [fst snd] in *; rewrite Hw; done.
Qed.

Section Shapes.

Variable behaviour : nat → Value → CbRun.

Lemma run_wire_shaped e d st : shaped st → shaped (run_wire behaviour e d st).
Proof.
  intros Hsh. unfold run_wire. destruct (wire_throws e d); [done |].
  destruct st as [s w].
  destruct e; unfold wire_body, on_world; cbn [fst snd];
    try (eapply kept_shaped; [apply triggerEvent_kept |]);
    try (by apply (shaped_world s w)).
  apply (perform_shaped GetOnlineUsers (s, console_out LogRequestingOnlineUsers w)).
  by apply (shaped_world s w).
Qed.

Lemma run_handler_shaped arg st h :
  shaped st → shaped (run_handler behaviour arg st h).
Proof.
  destruct st as [s w]. intros Hsh. destruct h; unfold run_handler; cbn [fst snd].
  - apply reregisterListeners_shaped.
    apply (shaped_world _ w); [done |]. by apply (shaped_service s).
  - destruct (is_client_disconnect arg).
    + by apply (shaped_service s).
    + apply (shaped_world _ w); [done |]. by apply (shaped_service s).
  - destruct (bool_decide _);
      (apply (shaped_world _ w); [done |]; by apply (shaped_service s)).
  - unfold on_world. by apply (shaped_world s w).
  - apply (shaped_world _ w); [done |]. by apply (shaped_service s).
  - by apply run_wire_shaped.
Qed.

Lemma deliver_shaped i name arg st :
  shaped st → shaped (deliver behaviour i name arg st).
Proof.
  intros Hsh. unfold deliver. destruct (socks st.2 !! i) as [k|]; [| done].
  revert st Hsh. induction (handlers_for name k) as [| h hs IH]; intros st Hsh;
    [done |].
  cbn [run_handlers]. destruct (handler_throws arg h); [done |].
  apply IH. by apply run_handler_shaped.
Qed.

Lemma set_connected_shaped i b st :
  sock_open i st.2 = true → shaped st →
  shaped (on_world (sock_set_connected i b) st).
Proof.
  destruct st as [s w]. unfold sock_open, on_world. cbn [fst snd].
  destruct (socks w !! i) as [k|] eqn:Hk; [| done].
  intros Hopen%negb_true_iff Hsh.
  unfold sock_set_connected. rewrite (update_sock_spec _ _ _ _ Hk).
  eapply (shaped_insert s s w _ i); [exact Hsh | done | reflexivity | | done].
  eapply (shape_open_of k); [by eapply (shaped_lookup (s, w)) | done | done | done].
Qed.

Lemma connect_shaped tok st : shaped st → shaped (connect tok st).
Proof.
  destruct st as [s w]. intros Hsh.
  destruct (isConnecting s) eqn:Hing.
  { rewrite connect_noop_when_busy; [done | by left]. }
  destruct (socket_connected s w) eqn:Hcon.
  { rewrite connect_noop_when_busy; [done | by right]. }
  rewrite (connect_fresh tok s w Hing Hcon). destruct Hsh as [Hall _].
  split; cbn [fst snd socks socket] in *.
  - apply Forall_app. split; [done |]. constructor; [| constructor].
    left. split; [done |]. exists 0. reflexivity.
  - intros i [= <-]. eexists. split; [by apply list_lookup_middle | done].
Qed.

Lemma disconnect_shaped st : shaped st → shaped (disconnect behaviour st).
Proof.
  destruct st as [s w]. intros Hsh.
  destruct (socket s) as [i|] eqn:Hs.
  - destruct (proj2 Hsh i Hs) as (k & Hk & Hopen). cbn [fst snd] in Hk.
    rewrite (disconnect_spec behaviour s w i k Hs Hk). destruct Hsh as [Hall _].
    split; cbn [fst snd socks socket] in *; [| done].
    apply Forall_insert; [done |]. by right.
  - by rewrite disconnect_without_socket.
Qed.

Lemma run_shaped st c : shaped st → shaped (run behaviour st c).
Proof.
  intros Hsh. destruct c; cbn [run].
  - by apply connect_shaped.
  - by apply disconnect_shaped.
  - unfold forceReconnect, on_world.
    pose proof (disconnect_shaped st Hsh) as H.
    destruct (disconnect behaviour st) as [s1 w1]. by apply (shaped_world s1 w1).
  - unfold run_timer. destruct (timers st.2) as [| [? token] rest]; [done |].
    apply connect_shaped. destruct st as [s w]. by apply (shaped_world s w).
  - destruct st as [s w]. unfold on_service. cbn [fst snd].
    apply (shaped_service s); [| done]. by destruct (run_op_frame s op) as [-> _].
  - by apply (perform_shaped (Emit event data) st).
  - by apply (perform_shaped (StartViewingFile fileId) st).
  - by apply (perform_shaped (StopViewingFile fileId) st).
  - by apply (perform_shaped GetOnlineUsers st).
  - unfold transport_connect. destruct (sock_open i st.2) eqn:Ho; [| done].
    apply deliver_shaped. by apply set_connected_shaped.
  - unfold transport_disconnect. destruct (sock_open i st.2) eqn:Ho; [| done].
    apply deliver_shaped. by apply set_connected_shaped.
  - unfold transport_connect_error. destruct (sock_open i st.2); [| done].
    by apply deliver_shaped.
  - unfold transport_reconnect. destruct (sock_open i st.2); [| done].
    by apply deliver_shaped.
  - unfold transport_reconnect_failed. destruct (sock_open i st.2); [| done].
    by apply deliver_shaped.
  - unfold inbound. destruct (sock_open i st.2); [| done].
    by apply deliver_shaped.
Qed.

(** X20.  In every state a page can reach, whatever it called and whatever the
    transport reported: a socket the client has not closed carries each
    life-cycle closure exactly once and the wire closures a whole number of
    rounds, at least one; a socket the client closed carries no closure and
    is not connected; and the current socket of the service is never a
    closed one. *)
Theorem sockets_keep_their_shape history : shaped (after behaviour history).
Proof.
  unfold after.
  assert (H0 : shaped (newService, newWorld)).
  { split; [constructor | done]. }
  revert H0. generalize (newService, newWorld).
  induction history as [| c history IH]; intros st Hsh; [done |].
  simpl. apply IH. by apply run_shaped.
Qed.

End Shapes.

(** ** Automatic reconnections *)

Section Reconnects.

Variable behaviour : nat → Value → CbRun.

Lemma reconnect_cycle_spec i m s w k :
  socket s = Some i → socks w !! i = Some k → sock_closed k = false →
  handlers k = lifecycle_regs ++ concat (replicate m wire_regs) →
  reconnect_cycle behaviour i (s, w)
  = (mkService (Some i) true (listeners s) 0 false,
     mkWorld (<[i := mkSock (sock_token k) true false
                       (lifecycle_regs ++ concat (replicate (S m) wire_regs))
                       (sent k)]> (socks w))
             (toasts w ++ [ToastDisconnected; ToastConnected])
             (console w) (timers w) (calls w)).
Proof.
  intros Hs Hk Hcl Hh. unfold reconnect_cycle.
  rewrite (transport_disconnect_spec behaviour i m _ s w k Hs Hk Hcl Hh).
  rewrite (bool_decide_eq_false_2 ("transport close" = "io client disconnect"))
    by done.
  erewrite (transport_connect_spec behaviour i m);
    [| reflexivity | by eapply insert_lookup_same | reflexivity | exact Hh].
  cbn [sock_token sent socks toasts console timers calls listeners].
  by rewrite list_insert_insert_eq, <- app_assoc.
Qed.

(** X21.  Automatic reconnections of the current socket keep every subscriber:
    after [n] of them the registry is what it was, no subscriber has been
    called, the attempt counter is back at zero, and the page has seen one
    "disconnected" and one "connected" toast per reconnection. *)
Theorem reconnects_keep_subscribers i m st n :
  attached i m st →
  let st' := Nat.iter n (reconnect_cycle behaviour i) st in
  listeners st'.1 = listeners st.1
  ∧ calls st'.2 = calls st.2
  ∧ toasts st'.2
    = toasts st.2 ++ concat (replicate n [ToastDisconnected; ToastConnected])
  ∧ (0 < n → connected st'.1 st'.2 = true ∧ connectionAttempts st'.1 = 0)
  ∧ attached i (n + m) st'.
Proof.
  intros Hatt. induction n as [| n IH].
  - cbn zeta. change (Nat.iter 0 ?f ?x) with x. simpl concat. rewrite app_nil_r.
    repeat (split; [done || lia |]). exact Hatt.
  - cbn zeta in *. rewrite Nat.iter_succ.
    destruct IH as (Hl & Hc & Ht & _ & Ha).
    destruct (Nat.iter n (reconnect_cycle behaviour i) st) as [s1 w1].
    destruct Ha as (Hs1 & k & Hk & Hcl & Hh). cbn [fst snd] in *.
    rewrite (reconnect_cycle_spec i (n + m) s1 w1 k Hs1 Hk Hcl Hh).
    cbn [fst snd listeners calls toasts connectionAttempts].
    split; [done |]. split; [done |]. split.
    { rewrite Ht, <- app_assoc. f_equal.
      by rewrite <- (concat_replicate_S_end n). }
    split.
    { intros _. split; [| done]. unfold connected, socket_connected.
      cbn [isConnected socket socks].
      by rewrite (insert_lookup_same _ k _ _ Hk). }
    split; [done |]. eexists. split; [by eapply insert_lookup_same |].
    by split.
Qed.

End Reconnects.

Lemma reconnects_keep_subscribers_witness :
  attached 0 2 (online_service, online_world)
  ∧ listeners (Nat.iter 3 (reconnect_cycle observers 0)
                 (online_service, online_world)).1
    = {["file-viewers-updated" := [1]]}
  ∧ attached 0 5 (Nat.iter 3 (reconnect_cycle observers 0)
                    (online_service, online_world)).
Proof.
  assert (H : attached 0 2 (online_service, online_world)).
  { split; [reflexivity |]. eexists. split; [reflexivity |]. by split. }
  split; [exact H |].
  pose proof (reconnects_keep_subscribers observers 0 2
                (online_service, online_world) 3 H) as (H1 & _ & _ & _ & H2).
  exact (conj H1 H2).
Defined.

End ServiceFacts.
